(** * GEOUNED [core.py]: the CAD-to-CSG driver

    A shallow embedding of [src/geouned/GEOUNED/core.py], the
    properties its specification states about it, and further
    properties of the code.

    Python objects live in a store ([heap]) and lists hold references
    to them, so that in-place updates ([m.label = ...],
    [meta.__id__ = ...]) are seen through every list that holds the
    object.  A call that can raise returns a [res]. *)

From stdpp Require Import gmap list strings sorting pretty.

Local Open Scope Z_scope.

(** ** Outcomes of a Python call *)

Inductive exn :=
  | IndexError      (* list index out of range *)
  | KeyError        (* dict key not found *)
  | TypeError       (* None used where a value is required *)
  | ValueError      (* list.remove(x): x not in list *)
  | SystemExit      (* exit() *)
  | Unallocated.    (* a reference that names no object; no Python run reaches it *)

Inductive res (A : Type) :=
  | Ok (a : A)
  | Raise (e : exn).
Arguments Ok {A} a.
Arguments Raise {A} e.

Global Instance res_ret : MRet res := λ A, @Ok A.
Global Instance res_bind : MBind res := λ A B f m,
  match m with Ok a => f a | Raise e => Raise e end.

Definition is_Ok {A} (m : res A) : Prop := ∃ a, m = Ok a.

(** [for x in l: s = f(s, x)] where the body may raise. *)
Fixpoint foldM {A S : Type} (f : S → A → res S) (s : S) (l : list A) : res S :=
  match l with
  | [] => Ok s
  | x :: l' => s' ← f s x; foldM f s' l'
  end.

(** [enumerate(l)] *)
Definition enumerate {A : Type} (l : list A) : list (nat * A) :=
  zip (seq 0 (length l)) l.

(** ** Python list operations used by [core.py] *)

(** Position named by index [i] in a list of length [len]: a negative
    index counts from the end, anything outside [-len, len) is an
    [IndexError]. *)
Definition py_index (len : nat) (i : Z) : res nat :=
  if decide (0 ≤ i < Z.of_nat len) then Ok (Z.to_nat i)
  else if decide (- Z.of_nat len ≤ i < 0) then Ok (Z.to_nat (Z.of_nat len + i))
  else Raise IndexError.

(** [del l[i]] *)
Definition py_del {A : Type} (l : list A) (i : Z) : res (list A) :=
  n ← py_index (length l) i; Ok (delete n l).

(** [l[-1]] *)
Definition py_last {A : Type} (l : list A) : res A :=
  match last l with Some x => Ok x | None => Raise IndexError end.

(** [l.remove(x)]: drops the first occurrence of [x]. *)
Fixpoint py_remove `{EqDecision A} (x : A) (l : list A) : res (list A) :=
  match l with
  | [] => Raise ValueError
  | y :: l' => if decide (x = y) then Ok l' else l'' ← py_remove x l'; Ok (y :: l'')
  end.

(** The entries of [l] whose position is not listed in [skip], in
    their order: what is left of [l] once the entries at the positions
    in [skip] are removed. *)
Definition without_positions {A : Type} (skip : list Z) (l : list A) : list A :=
  (filter (λ ix, Z.of_nat ix.1 ∉ skip) (enumerate l)).*2.

(** [without_positions] on a list whose first entry has position [k]. *)
Definition wp_from {A : Type} (k : nat) (skip : list Z) (l : list A) : list A :=
  (filter (λ ix : nat * A, Z.of_nat ix.1 ∉ skip) (zip (seq k (length l)) l)).*2.

(** [sorted(l, reverse=True)] on ints. *)
Definition desc (x y : Z) : Prop := y ≤ x.
Global Instance desc_dec x y : Decision (desc x y) := Z_le_dec y x.
Definition sorted_reverse (l : list Z) : list Z := merge_sort desc l.

(** ** The external collaborators

    [core.py] drives FreeCAD and the other GEOUNED modules.  Their types
    and operations are not part of this file: they are the fields of
    two classes, and every definition below is parametric in them. *)

Class KernelTypes := {
  BoolSequence : Type;   (* the class of [m.Definition] *)
  Shape : Type;          (* a FreeCAD solid, element of [m.Solids] *)
  CompSolid : Type;      (* what [Decom.SplitSolid] returns *)
  BoxLimits : Type;      (* first component of [m.__commentInfo__] *)
  OtherAttrs : Type;     (* the attributes of a cell [core.py] never reads *)
  SurfacesDict : Type;   (* [UF.SurfacesDict] *)
  coord : Type;          (* a FreeCAD length (Python float) *)
}.

(** [UF.GeounedSolid]: the attributes [core.py] reads or writes. *)
Record GeounedSolid `{KernelTypes} := mkSolid {
  __id__ : Z;
  label : option Z;
  Solids : option (list Shape);
  Definition_ : BoolSequence;
  Comments : string;
  IsEnclosure : bool;
  EnclosureID : Z;
  NullCell : bool;
  Void : bool;
  __commentInfo__ : option (BoxLimits * option (list Z));
  other_attrs : OtherAttrs;
}.

(** [FreeCAD.BoundBox] *)
Record BoundBox `{KernelTypes} := mkBox {
  XMin : coord; YMin : coord; ZMin : coord;
  XMax : coord; YMax : coord; ZMax : coord;
}.

(** Object references and the store. *)
Abbreviation ref := nat.
Abbreviation heap := (gmap nat GeounedSolid).

(** The running state of a numbering pass: the store, [icount],
    [idLabel] and the list under construction. *)
Abbreviation numbering := (heap * Z * gmap Z Z * list ref)%type.

(** The operations of FreeCAD and of the GEOUNED modules [core.py]
    imports ([UF], [Conv], [Decom], [void], [translate],
    [build_c_table_from_solids]).  Tolerances, numeric format and the
    options these calls receive are fixed for a run and are part of
    the instance. *)
Class Collaborators `{KernelTypes} := {
  (* [UF.GeounedSolid(id)] *)
  GeounedSolid_init : option Z → GeounedSolid;
  (* [void.void_comment_line((box, labels))] *)
  void_comment_line : BoxLimits → list Z → string;
  (* [m.optimalBoundingBox()] *)
  optimalBoundingBox : GeounedSolid → BoundBox;
  (* [<], [+], [-] on floats and the default padding [10.0] *)
  coord_lt : coord → coord → bool;
  coord_add : coord → coord → coord;
  coord_sub : coord → coord → coord;
  default_padding : coord;
  (* [UF.SurfacesDict(offset=n)] *)
  SurfacesDict_init : Z → SurfacesDict;
  (* [Decom.SplitSolid(Part.makeCompound(solids), box, ...)]: the split
     solid and the error code *)
  SplitSolid : list Shape → BoundBox → CompSolid * Z;
  (* [Surfaces.extend(Decom.extract_surfaces(comsolid, "All", box, ...))] *)
  extend_surfaces : SurfacesDict → CompSolid → BoundBox → SurfacesDict;
  (* [m.set_cad_solid(); m.update_solids(comsolid.Solids)] *)
  update_solids : GeounedSolid → CompSolid → GeounedSolid;
  (* [Conv.cellDef(m, Surfaces, box, ...)]: updates the cell and the
     registry, returns the cone references *)
  cellDef : GeounedSolid → SurfacesDict → BoundBox →
            GeounedSolid * SurfacesDict * gset Z;
  (* [Conv.no_overlapping_cell(meta_list, Surfaces, options)] *)
  no_overlapping_cell : list ref → heap → SurfacesDict → heap * SurfacesDict;
  (* [translate(meta_list, Surfaces, box, ...)] *)
  translate : list ref → heap → SurfacesDict → BoundBox → heap * SurfacesDict;
  (* [void.void_generation(meta_reduced, enclosure_list, Surfaces, box,
     settings, init, ...)]: the new void cells *)
  void_generation : list ref → list ref → SurfacesDict → BoundBox → Z → heap →
                    list ref * heap * SurfacesDict;
  (* [c.Definition.level] *)
  level : BoolSequence → Z;
  (* [UF.get_box], [build_c_table_from_solids], [c.Definition.simplify(CT)],
     [c.Definition.clean()] on one cell *)
  simplify_full : GeounedSolid → SurfacesDict → GeounedSolid;
  (* [Conv.add_cone_plane(definition, cones, Surfaces, box, ...)] *)
  add_cone_plane : BoolSequence → gset Z → SurfacesDict → BoundBox →
                   BoolSequence * SurfacesDict;
}.

(** The fields of [geouned.Settings] and [geouned.Options] that
    [core.py] reads. *)
Module Settings.
Record t := mk {
  exportSolids : string;
  startSurf : Z;
  startCell : Z;
  voidGen : bool;
  voidExclude : list string;
  simplify : string;
  sort_enclosure : bool;
}.
End Settings.

Module Options.
Record t := mk {
  Facets : bool;
  forceNoOverlap : bool;
}.
End Options.

Section Core.
Context `{KT : KernelTypes} `{C : !Collaborators}.

(** ** Reading and writing objects *)

Definition deref (h : heap) (r : ref) : res GeounedSolid :=
  match h !! r with Some m => Ok m | None => Raise Unallocated end.

Definition set_id (i : Z) (m : GeounedSolid) : GeounedSolid :=
  mkSolid _ i (label m) (Solids m) (Definition_ m) (Comments m) (IsEnclosure m)
    (EnclosureID m) (NullCell m) (Void m) (__commentInfo__ m) (other_attrs m).

Definition set_label (l : Z) (m : GeounedSolid) : GeounedSolid :=
  mkSolid _ (__id__ m) (Some l) (Solids m) (Definition_ m) (Comments m) (IsEnclosure m)
    (EnclosureID m) (NullCell m) (Void m) (__commentInfo__ m) (other_attrs m).

Definition set_Comments (c : string) (m : GeounedSolid) : GeounedSolid :=
  mkSolid _ (__id__ m) (label m) (Solids m) (Definition_ m) c (IsEnclosure m)
    (EnclosureID m) (NullCell m) (Void m) (__commentInfo__ m) (other_attrs m).

Definition set_Definition (d : BoolSequence) (m : GeounedSolid) : GeounedSolid :=
  mkSolid _ (__id__ m) (label m) (Solids m) d (Comments m) (IsEnclosure m)
    (EnclosureID m) (NullCell m) (Void m) (__commentInfo__ m) (other_attrs m).

(** Modelled from the spec: [GeounedSolid.set_comments] (the class is
    not among the sources) stores the text as the cell's comment. *)
Definition set_comments (m : GeounedSolid) (c : string) : GeounedSolid :=
  set_Comments c m.

(** [mc = UF.GeounedSolid(None); mc.Comments = lineComment]: a new
    object, at a reference no list holds yet. *)
Definition new_comment_cell (lineComment : string) (h : heap) : ref * heap :=
  let r := fresh (dom h) in
  (r, <[r := set_Comments lineComment (GeounedSolid_init None)]> h).

(** ** Loading: [join_meta_lists] and [CadToCsg.load_step_file] *)

(** Body of [for i, meta in enumerate(M)]. *)
Definition join_meta_step (lastID : Z) (st : list ref * heap) (im : nat * ref)
    : res (list ref * heap) :=
  let '(newMetaList, h) := st in
  let '(i, meta) := im in
  m ← deref h meta;
  Ok (newMetaList ++ [meta], <[meta := set_id (lastID + Z.of_nat i) m]> h).

(** Body of [for M in MList[1:]]. *)
Definition join_meta_chunk (st : list ref * heap) (M : list ref)
    : res (list ref * heap) :=
  let '(newMetaList, h) := st in
  l ← py_last newMetaList;
  m ← deref h l;
  let lastID := __id__ m + 1 in
  foldM (join_meta_step lastID) st (enumerate M).

Definition join_meta_lists (MList : list (list ref)) (h : heap)
    : res (list ref * heap) :=
  match MList with
  | [] => Raise IndexError
  | M0 :: rest =>
      let newMetaList := M0 in
      if bool_decide (M0 ≠ []) then foldM join_meta_chunk (newMetaList, h) rest
      else Ok (newMetaList, h)
  end.

(** [for solid_index in sorted(skip_solids, reverse=True):
    del self.meta_list[solid_index]] *)
Definition delete_skipped (meta_list : list ref) (skip_solids : list Z)
    : res (list ref) :=
  foldM py_del meta_list (sorted_reverse skip_solids).

(** [for m in reversed(self.enclosure_list): if m.Solids is None: exit()] *)
Definition check_enclosure_solids (h : heap) (enclosure_list : list ref) : res () :=
  foldM (λ _ m, o ← deref h m;
               match Solids o with None => Raise SystemExit | Some _ => Ok () end)
        () (reverse enclosure_list).

(** [for m in reversed(self.meta_list): if m.Solids is None:
    self.meta_list.remove(m)].  The reverse iterator holds an index
    into the list it walks: it starts at [len - 1], yields [l[index]]
    while the index is a position of the list as it is now, and steps
    down.  [n] is the index plus one. *)
Fixpoint remove_spline_solids (h : heap) (n : nat) (meta_list : list ref)
    : res (list ref) :=
  match n with
  | O => Ok meta_list
  | S index =>
      match meta_list !! index with
      | None => Ok meta_list
      | Some m =>
          o ← deref h m;
          meta_list' ← match Solids o with
                       | None => py_remove m meta_list
                       | Some _ => Ok meta_list
                       end;
          remove_spline_solids h index meta_list'
      end
  end.

(** [load_step_file] after its argument checks.  [loaded] holds what
    [Load.load_cad] returned for each STEP file, in order: the solid
    list and the enclosure list of that file. *)
Definition load_step_file (loaded : list (list ref * list ref))
    (skip_solids : list Z) (h : heap) : res (list ref * list ref * heap) :=
  let MetaChunk := loaded.*1 in
  let EnclosureChunk := loaded.*2 in
  '(meta_list, h) ← join_meta_lists MetaChunk h;
  '(enclosure_list, h) ← join_meta_lists EnclosureChunk h;
  meta_list ← delete_skipped meta_list skip_solids;
  _ ← check_enclosure_solids h enclosure_list;
  meta_list ← remove_spline_solids h (length meta_list) meta_list;
  Ok (meta_list, enclosure_list, h).

(** ** [CadToCsg._get_geometry_bounding_box] *)

(** [min(a, b)] and [max(a, b)]: the second argument wins only when it
    is strictly smaller (greater). *)
Definition py_min (a b : coord) : coord := if coord_lt b a then b else a.
Definition py_max (a b : coord) : coord := if coord_lt a b then b else a.

(** Body of [for m in meta_list[1:]]; the six running extrema are kept
    as a box. *)
Definition bounding_box_step (h : heap) (acc : BoundBox) (m : ref) : res BoundBox :=
  o ← deref h m;
  let optBox := optimalBoundingBox o in
  Ok (mkBox _ (py_min (XMin optBox) (XMin acc))
              (py_min (YMin optBox) (YMin acc))
              (py_min (ZMin optBox) (ZMin acc))
              (py_max (XMax optBox) (XMax acc))
              (py_max (YMax optBox) (YMax acc))
              (py_max (ZMax optBox) (ZMax acc))).

Definition _get_geometry_bounding_box (padding : coord) (meta_list : list ref)
    (h : heap) : res BoundBox :=
  match meta_list with
  | [] => Raise IndexError
  | m0 :: rest =>
      o ← deref h m0;
      let Box := optimalBoundingBox o in
      acc ← foldM (bounding_box_step h) Box rest;
      Ok (mkBox _ (coord_sub (XMin acc) padding)
                  (coord_sub (YMin acc) padding)
                  (coord_sub (ZMin acc) padding)
                  (coord_add (XMax acc) padding)
                  (coord_add (YMax acc) padding)
                  (coord_add (ZMax acc) padding))
  end.

(** ** [exclude_cells] *)

(** [label in comments] on strings. *)
Definition py_in_str (label comments : string) : bool :=
  bool_decide (is_Some (String.index 0 label comments)).

Definition exclude_cells (h : heap) (MetaList : list ref) (labelList : list string)
    : res (list ref) :=
  foldM (λ voidMeta m,
           o ← deref h m;
           if IsEnclosure o then Ok voidMeta
           else if existsb (λ label, py_in_str label (Comments o)) labelList
                then Ok voidMeta
                else Ok (voidMeta ++ [m]))
        [] MetaList.

(** ** [update_comment] *)

(** [d[k]] *)
Definition py_getitem `{Countable K} {V} (d : gmap K V) (k : K) : res V :=
  match d !! k with Some v => Ok v | None => Raise KeyError end.

(** [newLabel] is a generator over [idLabel[i]]: the lookups are made
    when [void.void_comment_line] walks it, in the order of the
    identities, and the first identity that is no key of [idLabel]
    raises [KeyError] out of [update_comment], the comment left as it
    was. *)
Definition update_comment (meta : ref) (idLabel : gmap Z Z) (h : heap) : res heap :=
  o ← deref h meta;
  match __commentInfo__ o with
  | None => Ok h
  | Some (_, None) => Ok h
  | Some (box, Some ids) =>
      newLabel ← mapM (py_getitem idLabel) ids;
      Ok (<[meta := set_comments o (void_comment_line box newLabel)]> h)
  end.

(** ** [process_cones] *)

(** [for Id in m.__commentInfo__[1]: if Id in cellId:
    cones.update(-x for x in coneInfo[Id])] *)
Definition void_cones_step (coneInfo : gmap Z (gset Z)) (cones : gset Z) (Id : Z)
    : res (gset Z) :=
  let cellId := dom coneInfo in
  if bool_decide (Id ∈ cellId) then
    s ← py_getitem coneInfo Id; Ok (cones ∪ set_map Z.opp s)
  else Ok cones.

Definition void_cones (coneInfo : gmap Z (gset Z)) (ids : list Z) : res (gset Z) :=
  foldM (void_cones_step coneInfo) ∅ ids.

(** Body of [for m in MetaList]. *)
Definition process_cones_step (coneInfo : gmap Z (gset Z)) (UniverseBox : BoundBox)
    (st : heap * SurfacesDict) (m : ref) : res (heap * SurfacesDict) :=
  let cellId := dom coneInfo in
  let '(h, Surfaces) := st in
  o ← deref h m;
  if bool_decide (__id__ o ∉ cellId) && negb (Void o) then Ok st
  else
    match Void o, __commentInfo__ o with
    | true, Some (_, None) => Ok st
    | true, Some (_, Some ids) =>
        cones ← void_cones coneInfo ids;
        let '(d, Surfaces) := add_cone_plane (Definition_ o) cones Surfaces UniverseBox in
        Ok (<[m := set_Definition d o]> h, Surfaces)
    | true, None => Ok st
    | false, _ =>
        cones ← py_getitem coneInfo (__id__ o);
        let '(d, Surfaces) := add_cone_plane (Definition_ o) cones Surfaces UniverseBox in
        Ok (<[m := set_Definition d o]> h, Surfaces)
    end.

Definition process_cones (MetaList : list ref) (coneInfo : gmap Z (gset Z))
    (Surfaces : SurfacesDict) (UniverseBox : BoundBox) (h : heap)
    : res (heap * SurfacesDict) :=
  foldM (process_cones_step coneInfo UniverseBox) (h, Surfaces) MetaList.

(** ** Numbering: [sort_enclosure] and the flat branch of [start] *)

Definition void_cells_banner : string :=
"##########################################################
             VOID CELLS
##########################################################".

Definition void_cells_banner_sorted : string :=
"##########################################################
             VOID CELLS 
##########################################################".

Definition enclosure_banner (EnclosureID : Z) : string :=
"##########################################################
             ENCLOSURE " +:+ pretty EnclosureID +:+ "
##########################################################".

Definition end_enclosure_banner (EnclosureID : Z) : string :=
"##########################################################
            END  ENCLOSURE " +:+ pretty EnclosureID +:+ "
##########################################################".

(** Body of [for m in meta_void] that fills [newList]. *)
Definition group_step (h : heap) (newList : gmap Z (list ref)) (m : ref)
    : res (gmap Z (list ref)) :=
  o ← deref h m;
  match newList !! EnclosureID o with
  | Some l => Ok (<[EnclosureID o := l ++ [m]]> newList)
  | None => Ok (<[EnclosureID o := [m]]> newList)
  end.

(** Body of [for e in newList[m.EnclosureID]] and of [for v in newList[0]]. *)
Definition label_void_step (st : numbering) (e : ref) : res numbering :=
  let '(h, icount, idLabel, newMeta) := st in
  o ← deref h e;
  if NullCell o then Ok st
  else
    let icount := icount + 1 in
    let o := set_label icount o in
    Ok (<[e := o]> h, icount, <[__id__ o := icount]> idLabel, newMeta ++ [e]).

(** Body of [for m in MetaList]. *)
Definition sort_enclosure_step (newList : gmap Z (list ref)) (st : numbering) (m : ref)
    : res numbering :=
  let '(h, icount, idLabel, newMeta) := st in
  o ← deref h m;
  if NullCell o then Ok st
  else if IsEnclosure o then
    let '(mc, h) := new_comment_cell (enclosure_banner (EnclosureID o)) h in
    let newMeta := newMeta ++ [mc] in
    group ← py_getitem newList (EnclosureID o);
    '(h, icount, idLabel, newMeta) ← foldM label_void_step (h, icount, idLabel, newMeta) group;
    let '(mc, h) := new_comment_cell (end_enclosure_banner (EnclosureID o)) h in
    Ok (h, icount, idLabel, newMeta ++ [mc])
  else
    let icount := icount + 1 in
    let o := set_label icount o in
    Ok (<[m := o]> h, icount, <[__id__ o := icount]> idLabel, newMeta ++ [m]).

(** Body of the last loop, [for m in newMeta]. *)
Definition update_comments_step (idLabel : gmap Z Z) (h : heap) (m : ref) : res heap :=
  o ← deref h m;
  if negb (Void o) then Ok h
  else if IsEnclosure o then Ok h
  else update_comment m idLabel h.

Definition sort_enclosure (MetaList meta_void : list ref) (offSet : Z) (h : heap)
    : res (list ref * heap) :=
  newList ← foldM (group_step h) ∅ meta_void;
  let icount := offSet in
  let idLabel : gmap Z Z := {[0 := 0]} in
  '(h, icount, idLabel, newMeta) ←
    foldM (sort_enclosure_step newList) (h, icount, idLabel, []) MetaList;
  let '(mc, h) := new_comment_cell void_cells_banner_sorted h in
  let newMeta := newMeta ++ [mc] in
  group ← py_getitem newList 0;
  '(h, icount, idLabel, newMeta) ← foldM label_void_step (h, icount, idLabel, newMeta) group;
  h ← foldM (update_comments_step idLabel) h newMeta;
  Ok (newMeta, h).

(** First loop of the flat branch: [for i, m in enumerate(self.meta_list)]. *)
Definition flat_solid_step (st : heap * Z * gmap Z Z * list nat) (im : nat * ref)
    : res (heap * Z * gmap Z Z * list nat) :=
  let '(h, icount, idLabel, deleted) := st in
  let '(i, m) := im in
  o ← deref h m;
  if NullCell o || IsEnclosure o then Ok (h, icount, idLabel, deleted ++ [i])
  else
    let icount := icount + 1 in
    let o := set_label icount o in
    Ok (<[m := o]> h, icount, <[__id__ o := icount]> idLabel, deleted).

(** Second loop of the flat branch: [for i, m in enumerate(meta_void)]. *)
Definition flat_void_step (idLabel : gmap Z Z) (st : heap * Z * list nat) (im : nat * ref)
    : res (heap * Z * list nat) :=
  let '(h, icount, deleted) := st in
  let '(i, m) := im in
  o ← deref h m;
  if NullCell o then Ok (h, icount, deleted ++ [i])
  else
    let icount := icount + 1 in
    let h := <[m := set_label icount o]> h in
    h ← update_comment m idLabel h;
    Ok (h, icount, deleted).

(** [for i in reversed(deleted): del l[i]] *)
Definition delete_reversed {A : Type} (l : list A) (deleted : list nat) : res (list A) :=
  foldM py_del l (Z.of_nat <$> reverse deleted).

(** The [else] branch of [start] at "remove Null Cell and apply cell
    numbering offset": returns the new [self.meta_list]. *)
Definition number_flat (meta_list meta_void : list ref) (cellOffSet : Z) (h : heap)
    : res (list ref * heap) :=
  let idLabel : gmap Z Z := {[0 := 0]} in
  let icount := cellOffSet in
  '(h, icount, idLabel, deleted) ←
    foldM flat_solid_step (h, icount, idLabel, []) (enumerate meta_list);
  meta_list ← delete_reversed meta_list deleted;
  let '(mc, h) := new_comment_cell void_cells_banner h in
  let meta_list := meta_list ++ [mc] in
  '(h, icount, deleted) ←
    foldM (flat_void_step idLabel) (h, icount, []) (enumerate meta_void);
  meta_void ← delete_reversed meta_void deleted;
  Ok (meta_list ++ meta_void, h).

(** ** [CadToCsg]: the instance and the run

    [trace] records, in program order, each call [start] makes to a
    stage of the pipeline. *)

Inductive event :=
  | EvExportSolids                 (* [self._export_solids] *)
  | EvSplitSolid (m : ref)         (* [Decom.SplitSolid] and [Surfaces.extend] for one solid *)
  | EvCellDef (m : ref)            (* [Conv.cellDef] for one cell *)
  | EvNoOverlap                    (* [Conv.no_overlapping_cell] *)
  | EvTranslate                    (* [translate] *)
  | EvVoidGeneration (init : Z)    (* [void.void_generation] *)
  | EvSimplify (c : ref)           (* [c.Definition.simplify] for one cell *)
  | EvNumbering                    (* [sort_enclosure] or the flat numbering *)
  | EvProcessCones.                (* [process_cones] *)

Record CadToCsg := mkCadToCsg {
  settings : Settings.t;
  options : Options.t;
  meta_list : list ref;
  enclosure_list : list ref;
  geometry_bounding_box : option BoundBox;
  Surfaces : option SurfacesDict;
  objects : heap;
  trace : list event;
}.

Definition set_meta_list (l : list ref) (self : CadToCsg) : CadToCsg :=
  mkCadToCsg (settings self) (options self) l (enclosure_list self)
    (geometry_bounding_box self) (Surfaces self) (objects self) (trace self).

Definition set_geometry_bounding_box (b : BoundBox) (self : CadToCsg) : CadToCsg :=
  mkCadToCsg (settings self) (options self) (meta_list self) (enclosure_list self)
    (Some b) (Surfaces self) (objects self) (trace self).

Definition set_Surfaces (Sf : SurfacesDict) (self : CadToCsg) : CadToCsg :=
  mkCadToCsg (settings self) (options self) (meta_list self) (enclosure_list self)
    (geometry_bounding_box self) (Some Sf) (objects self) (trace self).

Definition set_objects (h : heap) (self : CadToCsg) : CadToCsg :=
  mkCadToCsg (settings self) (options self) (meta_list self) (enclosure_list self)
    (geometry_bounding_box self) (Surfaces self) h (trace self).

Definition log (e : event) (self : CadToCsg) : CadToCsg :=
  mkCadToCsg (settings self) (options self) (meta_list self) (enclosure_list self)
    (geometry_bounding_box self) (Surfaces self) (objects self) (trace self ++ [e]).

(** Reading an attribute that holds [None] where an object is needed. *)
Definition the {A : Type} (o : option A) : res A :=
  match o with Some a => Ok a | None => Raise TypeError end.

(** [CadToCsg._export_solids] *)
Definition _export_solids (self : CadToCsg) : res CadToCsg :=
  if bool_decide (meta_list self = []) then Raise ValueError
  else
    _ ← foldM (λ solids m,
                 o ← deref (objects self) m;
                 if IsEnclosure o then Ok solids
                 else s ← the (Solids o); Ok (solids ++ s))
              [] (meta_list self);
    Ok (log EvExportSolids self).

(** Body of the loop of [_decompose_solids].  The STEP files written
    under [settings.debug] and for a suspicious solid are not modelled:
    they change no cell and no surface. *)
Definition decompose_step (meta : bool) (st : CadToCsg * list nat) (im : nat * ref)
    : res (CadToCsg * list nat) :=
  let '(self, warningSolids) := st in
  let '(i, r) := im in
  m ← deref (objects self) r;
  if meta && IsEnclosure m then Ok st
  else
    solids ← the (Solids m);
    box ← the (geometry_bounding_box self);
    Sf ← the (Surfaces self);
    let '(comsolid, err) := SplitSolid solids box in
    let warningSolids :=
      if bool_decide (err ≠ 0) then warningSolids ++ [i] else warningSolids in
    let self := set_Surfaces (extend_surfaces Sf comsolid box) self in
    let self := set_objects (<[r := update_solids m comsolid]> (objects self)) self in
    Ok (log (EvSplitSolid r) self, warningSolids).

Definition _decompose_solids (meta : bool) (self : CadToCsg) : res (CadToCsg * list nat) :=
  let meta_list := if meta then meta_list self else enclosure_list self in
  foldM (decompose_step meta) (self, []) (enumerate meta_list).

(** [cones = Conv.cellDef(m, ...); if cones: coneInfo[m.__id__] = cones] *)
Definition build_cell (st : CadToCsg * gmap Z (gset Z)) (r : ref)
    : res (CadToCsg * gmap Z (gset Z)) :=
  let '(self, coneInfo) := st in
  m ← deref (objects self) r;
  box ← the (geometry_bounding_box self);
  Sf ← the (Surfaces self);
  let '(m, Sf, cones) := cellDef m Sf box in
  let self := set_objects (<[r := m]> (objects self)) (set_Surfaces Sf self) in
  let coneInfo :=
    if bool_decide (cones ≠ ∅) then <[__id__ m := cones]> coneInfo else coneInfo in
  Ok (log (EvCellDef r) self, coneInfo).

(** Body of [for j, m in enumerate(self.meta_list)] at "start Building
    CGS cells phase". *)
Definition build_solid_step (st : CadToCsg * gmap Z (gset Z)) (r : ref)
    : res (CadToCsg * gmap Z (gset Z)) :=
  m ← deref (objects st.1) r;
  if IsEnclosure m then Ok st else build_cell st r.

(** [if self.settings.voidGen and self.enclosure_list:
    warningEnclosureList = self._decompose_solids(meta=False)] *)
Definition decompose_enclosures (self : CadToCsg) : res CadToCsg :=
  if Settings.voidGen (settings self) && bool_decide (enclosure_list self ≠ []) then
    '(self, _) ← _decompose_solids false self; Ok self
  else Ok self.

(** The seed of the void identities: [init]. *)
Definition void_init (self : CadToCsg) : res Z :=
  if bool_decide (meta_list self ≠ []) then
    l ← py_last (meta_list self);
    m ← deref (objects self) l;
    Ok (__id__ m - Z.of_nat (length (enclosure_list self)))
  else Ok 0.

(** "void generation phase": returns [meta_void]. *)
Definition void_phase (self : CadToCsg) : res (CadToCsg * list ref) :=
  if Settings.voidGen (settings self) then
    meta_reduced ←
      (if bool_decide (Settings.voidExclude (settings self) = []) then Ok (meta_list self)
       else exclude_cells (objects self) (meta_list self)
              (Settings.voidExclude (settings self)));
    init ← void_init self;
    box ← the (geometry_bounding_box self);
    Sf ← the (Surfaces self);
    let '(meta_void, h, Sf) :=
      void_generation meta_reduced (enclosure_list self) Sf box init (objects self) in
    Ok (log (EvVoidGeneration init) (set_objects h (set_Surfaces Sf self)), meta_void)
  else Ok (self, []).

(** Body of [for c in self.meta_list] under [simplify == "full"]. *)
Definition simplify_step (self : CadToCsg) (c : ref) : res CadToCsg :=
  o ← deref (objects self) c;
  if bool_decide (level (Definition_ o) = 0) || IsEnclosure o then Ok self
  else
    Surfs ← the (Surfaces self);
    Ok (log (EvSimplify c)
          (set_objects (<[c := simplify_full o Surfs]> (objects self)) self)).

(** [CadToCsg.start].  The warning lists and the log messages are not
    modelled: they reach the loggers only. *)
Definition start (self : CadToCsg) : res CadToCsg :=
  if bool_decide (length (meta_list self) = 0%nat) then Raise SystemExit
  else
    self ← (if bool_decide (Settings.exportSolids (settings self) ≠ "")
            then _export_solids self else Ok self);
    box ← _get_geometry_bounding_box default_padding (meta_list self) (objects self);
    let self := set_geometry_bounding_box box self in
    let self :=
      set_Surfaces (SurfacesDict_init (Settings.startSurf (settings self) - 1)) self in
    let coneInfo : gmap Z (gset Z) := ∅ in
    '(self, coneInfo) ←
      (if negb (Options.Facets (options self)) then
         '(self, _) ← _decompose_solids true self;
         self ← decompose_enclosures self;
         '(self, coneInfo) ← foldM build_solid_step (self, coneInfo) (meta_list self);
         if Options.forceNoOverlap (options self) then
           Sf ← the (Surfaces self);
           let '(h, Sf) := no_overlapping_cell (meta_list self) (objects self) Sf in
           Ok (log EvNoOverlap (set_objects h (set_Surfaces Sf self)), coneInfo)
         else Ok (self, coneInfo)
       else
         Sf ← the (Surfaces self);
         box ← the (geometry_bounding_box self);
         let '(h, Sf) := translate (meta_list self) (objects self) Sf box in
         let self := log EvTranslate (set_objects h (set_Surfaces Sf self)) in
         self ← decompose_enclosures self;
         Ok (self, coneInfo));
    '(self, coneInfo) ←
      (if Settings.voidGen (settings self) && bool_decide (enclosure_list self ≠ []) then
         foldM build_cell (self, coneInfo) (enclosure_list self)
       else Ok (self, coneInfo));
    '(self, meta_void) ← void_phase self;
    self ←
      (if bool_decide (Settings.simplify (settings self) = "full") then
         foldM simplify_step self (meta_list self)
       else Ok self);
    let cellOffSet := Settings.startCell (settings self) - 1 in
    let self := log EvNumbering self in
    '(numbered, h) ←
      (if bool_decide (enclosure_list self ≠ []) && Settings.sort_enclosure (settings self)
       then sort_enclosure (meta_list self) meta_void cellOffSet (objects self)
       else number_flat (meta_list self) meta_void cellOffSet (objects self));
    let self := set_objects h (set_meta_list numbered self) in
    let self := log EvProcessCones self in
    Sf ← the (Surfaces self);
    box ← the (geometry_bounding_box self);
    '(h, Sf) ← process_cones (meta_list self) coneInfo Sf box (objects self);
    Ok (set_objects h (set_Surfaces Sf self)).

End Core.

(** * The entry points: [export_csg] and [from_json] *)

(** ** Argument values

    A Python value, as far as the argument checks of [export_csg] tell
    values apart. *)
Inductive pyval :=
  | PyNone
  | PyBool (b : bool)
  | PyInt (n : Z)
  | PyStr (s : string)
  | PyOther.       (* a value of any other type: a float, a list, ... *)






(** The arguments of [export_csg] that it checks. *)
Module ExportArgs.
Record t := mk {
  title : pyval;
  geometryName : pyval;
  volSDEF : pyval;
  volCARD : pyval;
  UCARD : pyval;
  dummyMat : pyval;
  cellCommentFile : pyval;
  cellSummaryFile : pyval;
}.
End ExportArgs.

(** The calls [from_json] makes once the configuration is read: the
    constructors of the four data classes with the setters of the
    instance, and the three methods. *)
Class ConfigCollaborators (V Inst : Type) := {
  (* [cls()] *)
  cls_init : Inst;
  (* [cad_to_csg.tolerances = Tolerances(...)], the keywords from [v] *)
  set_tolerances_from : V → Inst → res Inst;
  (* [cad_to_csg.options = Options(...)] *)
  set_options_from : V → Inst → res Inst;
  (* [cad_to_csg.numeric_format = NumericFormat(...)] *)
  set_numeric_format_from : V → Inst → res Inst;
  (* [cad_to_csg.settings = Settings(...)] *)
  set_settings_from : V → Inst → res Inst;
  (* [cad_to_csg.load_step_file(...)], the keywords from [v] *)
  call_load_step_file : V → Inst → res Inst;
  (* [cad_to_csg.start()] *)
  call_start : Inst → res Inst;
  (* [cad_to_csg.export_csg(...)] with the keywords given, or without any *)
  call_export_csg : option V → Inst → res Inst;
}.

Section Entry.
Context `{KT : KernelTypes} `{C : !Collaborators}.




End Entry.

Section FromJson.
Context {V Inst : Type} `{!ConfigCollaborators V Inst}.

(** The keys [from_json] accepts at the top of the configuration. *)
Definition config_keys : list string :=
  ["load_step_file"; "export_csg"; "Tolerances"; "Options"; "NumericFormat"; "Settings"].

(** Body of [for key in config.keys()]; [config] lists the entries of
    the dictionary [json.load] returned, in its order, each key
    once. *)
Definition from_json_key (config : list (string * V)) (cad_to_csg : Inst) (key : string)
    : res Inst :=
  let d : gmap string V := list_to_map config in
  if bool_decide (key ∈ ["load_step_file"; "export_csg"]) then Ok cad_to_csg
  else if bool_decide (key = "Tolerances") then
    v ← py_getitem d "Tolerances"; set_tolerances_from v cad_to_csg
  else if bool_decide (key = "Options") then
    v ← py_getitem d "Options"; set_options_from v cad_to_csg
  else if bool_decide (key = "NumericFormat") then
    v ← py_getitem d "NumericFormat"; set_numeric_format_from v cad_to_csg
  else if bool_decide (key = "Settings") then
    v ← py_getitem d "Settings"; set_settings_from v cad_to_csg
  else Raise ValueError.

(** [CadToCsg.from_json] once the file is read into [config]. *)
Definition from_json (config : list (string * V)) : res Inst :=
  let d : gmap string V := list_to_map config in
  cad_to_csg ← foldM (from_json_key config) cls_init config.*1;
  v ← py_getitem d "load_step_file";
  cad_to_csg ← call_load_step_file v cad_to_csg;
  cad_to_csg ← call_start cad_to_csg;
  call_export_csg (d !! "export_csg") cad_to_csg.

(** The constructors and setters of the four data classes accept
    every value. *)
Definition setters_total : Prop :=
  ∀ (v : V) (cad : Inst),
    is_Ok (set_tolerances_from v cad) ∧ is_Ok (set_options_from v cad)
    ∧ is_Ok (set_numeric_format_from v cad) ∧ is_Ok (set_settings_from v cad).

End FromJson.

(** * Vocabulary of the specification *)

Section Vocabulary.
Context `{KT : KernelTypes} `{C : !Collaborators}.

(** The cell at [r] has a list of solids ([m.Solids is not None]). *)
Definition has_solids (h : heap) (r : ref) : Prop :=
  ∃ o, h !! r = Some o ∧ is_Some (Solids o).

Global Instance has_solids_dec h r : Decision (has_solids h r).
Proof.
  unfold has_solids. destruct (h !! r) as [o|] eqn:Ho.
  - destruct (decide (is_Some (Solids o))) as [Hs|Hs].
    + left. by exists o.
    + right. intros (o' & ? & ?). by simplify_eq.
  - right. intros (o' & ? & ?). done.
Defined.

(** Every reference of [l] names an object of [h]. *)
Definition allocated (h : heap) (l : list ref) : Prop :=
  ∀ r, r ∈ l → is_Some (h !! r).

(** [a <= b] on lengths, read off [<]. *)
Definition coord_le (a b : coord) : Prop := coord_lt b a = false.

(** The order laws of the floats that are not NaN: [<] is asymmetric,
    [<=] is transitive, and adding or subtracting the same length is
    monotone. *)
Class CoordOrder := {
  coord_lt_asym a b : coord_lt a b = true → coord_lt b a = false;
  coord_le_trans a b c : coord_le a b → coord_le b c → coord_le a c;
  coord_sub_mono a b p : coord_le a b → coord_le (coord_sub a p) (coord_sub b p);
  coord_add_mono a b p : coord_le a b → coord_le (coord_add a p) (coord_add b p);
}.

Definition minimum_of (x : coord) (xs : list coord) : Prop :=
  x ∈ xs ∧ ∀ y, y ∈ xs → coord_le x y.

Definition maximum_of (x : coord) (xs : list coord) : Prop :=
  x ∈ xs ∧ ∀ y, y ∈ xs → coord_le y x.

(** The optimal bounding boxes of the cells of a list. *)
Definition bounding_boxes (h : heap) (l : list ref) : list BoundBox :=
  omap (λ r, optimalBoundingBox <$> h !! r) l.

(** The six running extrema of the bounding-box loop are extrema of
    the boxes seen. *)
Definition extrema_of (acc : BoundBox) (bs : list BoundBox) : Prop :=
  minimum_of (XMin acc) (XMin <$> bs) ∧ minimum_of (YMin acc) (YMin <$> bs)
  ∧ minimum_of (ZMin acc) (ZMin <$> bs) ∧ maximum_of (XMax acc) (XMax <$> bs)
  ∧ maximum_of (YMax acc) (YMax <$> bs) ∧ maximum_of (ZMax acc) (ZMax <$> bs).

(** *** Numbering *)

(** The attributes of a cell that numbering reads and never writes. *)
Definition frozen (o : GeounedSolid) :=
  (__id__ o, NullCell o, IsEnclosure o, Void o, EnclosureID o, __commentInfo__ o).

Definition is_null (h : heap) (r : ref) : bool :=
  match h !! r with Some o => NullCell o | None => false end.

Definition is_enclosure (h : heap) (r : ref) : bool :=
  match h !! r with Some o => IsEnclosure o | None => false end.

(** The comment record [UF.GeounedSolid(None)] with its text. *)
Definition comment_cell (text : string) : GeounedSolid :=
  set_Comments text (GeounedSolid_init None).

(** The cells the flat branch keeps, in the order it emits them. *)
Definition flat_solids (h : heap) (meta_list : list ref) : list ref :=
  filter (λ r, is_null h r || is_enclosure h r = false) meta_list.

Definition flat_voids (h : heap) (meta_void : list ref) : list ref :=
  filter (λ r, is_null h r = false) meta_void.

(** The void cells of enclosure [k], and what [sort_enclosure] emits
    when it meets the entry [m] of [MetaList]. *)
Definition void_group (h : heap) (meta_void : list ref) (k : Z) : list ref :=
  filter (λ r, EnclosureID <$> h !! r = Some k) meta_void.

Definition emitted_for (h : heap) (meta_void : list ref) (m : ref) : list ref :=
  match h !! m with
  | Some o =>
      if NullCell o then []
      else if IsEnclosure o then flat_voids h (void_group h meta_void (EnclosureID o))
      else [m]
  | None => []
  end.

Definition sorted_cells (h : heap) (MetaList meta_void : list ref) : list ref :=
  (MetaList ≫= emitted_for h meta_void) ++ flat_voids h (void_group h meta_void 0).

(** [g k] applied to the [k]-th cell of [cells], for every [k]. *)
Definition apply_cells (g : nat → GeounedSolid → GeounedSolid) (cells : list ref)
    (h : heap) : heap :=
  foldl (λ h kr, alter (g kr.1) kr.2 h) h (enumerate cells).

(** [idLabel] once the cells of [cells] have received the labels
    [c + 1], [c + 2], ... in this order. *)
Definition record_labels (h : heap) (c : Z) (cells : list ref) : gmap Z Z :=
  foldl (λ idLabel kr,
           match h !! kr.2 with
           | Some o => <[__id__ o := c + 1 + Z.of_nat kr.1]> idLabel
           | None => idLabel
           end)
        {[0 := 0]} (enumerate cells).

(** The text [update_comment] gives a cell: the recorded identities
    read through [idLabel]; the old text when the cell records none;
    nothing when an identity is not a key of [idLabel]. *)
Definition new_comment (idLabel : gmap Z Z) (o : GeounedSolid) : option string :=
  match __commentInfo__ o with
  | Some (box, Some ids) => void_comment_line box <$> mapM (λ i, idLabel !! i) ids
  | _ => Some (Comments o)
  end.

(** The same behind the guards of the last loop of [sort_enclosure]. *)
Definition sorted_comment (idLabel : gmap Z Z) (o : GeounedSolid) : option string :=
  if Void o && negb (IsEnclosure o) then new_comment idLabel o else Some (Comments o).

(** The [k]-th cell a numbering pass emits, once labelled; and once
    labelled and given its new comment. *)
Definition labelled (c : Z) (k : nat) (o : GeounedSolid) : GeounedSolid :=
  set_label (c + 1 + Z.of_nat k) o.

Definition labelled_void (idLabel : gmap Z Z) (c : Z) (k : nat) (o : GeounedSolid)
    : GeounedSolid :=
  let o' := labelled c k o in
  set_Comments (default (Comments o') (new_comment idLabel o')) o'.

(** A cell once the last loop of [sort_enclosure] has visited it. *)
Definition commented (idLabel : gmap Z Z) (o : GeounedSolid) : option GeounedSolid :=
  (λ cm, set_Comments cm o) <$> sorted_comment idLabel o.

(** The invariant of the labelling loops of [sort_enclosure]: [done]
    lists the cells labelled so far, in order; on the cells of the
    initial store [h0] the store agrees with [h0] relabelled, and what
    else [newMeta] holds are comment records. *)
Definition numbering_inv (h0 : heap) (c : Z) (done : list ref) (st : numbering) : Prop :=
  let '(h, icount, idLabel, newMeta) := st in
  icount = c + Z.of_nat (length done)
  ∧ idLabel = record_labels h0 c done
  ∧ (∀ r, is_Some (h0 !! r) → h !! r = apply_cells (labelled c) done h0 !! r)
  ∧ filter (λ r, is_Some (h0 !! r)) newMeta = done
  ∧ (∀ r, r ∈ newMeta → h0 !! r = None → ∃ text, h !! r = Some (comment_cell text)).

(** The inputs on which the flat branch of [start] runs to its end:
    every reference names an object, no object is emitted twice, and
    every identity a void cell records is a key of [idLabel]. *)
Definition flat_ready (h0 : heap) (meta_list meta_void : list ref) (c : Z) : Prop :=
  allocated h0 (meta_list ++ meta_void)
  ∧ NoDup (flat_solids h0 meta_list ++ flat_voids h0 meta_void)
  ∧ ∀ r o, r ∈ flat_voids h0 meta_void → h0 !! r = Some o →
           is_Some (new_comment (record_labels h0 c (flat_solids h0 meta_list)) o).

(** The same for [sort_enclosure]: moreover every enclosure that is
    met has void cells, so has the outer region [0], and a comment
    record is no void cell. *)
Definition sort_ready (h0 : heap) (MetaList meta_void : list ref) (c : Z) : Prop :=
  allocated h0 (MetaList ++ meta_void)
  ∧ NoDup (sorted_cells h0 MetaList meta_void)
  ∧ (∀ m o, m ∈ MetaList → h0 !! m = Some o → NullCell o = false →
            IsEnclosure o = true → void_group h0 meta_void (EnclosureID o) ≠ [])
  ∧ void_group h0 meta_void 0 ≠ []
  ∧ Void (GeounedSolid_init None) = false
  ∧ ∀ r o, r ∈ sorted_cells h0 MetaList meta_void → h0 !! r = Some o →
           is_Some (sorted_comment
                      (record_labels h0 c (sorted_cells h0 MetaList meta_void)) o).

(** *** The stages of a run *)

(** The stage an event of the trace belongs to: export, building
    (decomposition, registry, cell definitions), void generation, full
    simplification, numbering, cone planes. *)
Definition stage (e : event) : nat :=
  match e with
  | EvExportSolids => 0
  | EvSplitSolid _ | EvCellDef _ | EvNoOverlap | EvTranslate => 1
  | EvVoidGeneration _ => 2
  | EvSimplify _ => 3
  | EvNumbering => 4
  | EvProcessCones => 5
  end.

Definition stage_le (e1 e2 : event) : Prop := (stage e1 ≤ stage e2)%nat.

(** [self'] has the trace of [self] followed by events of the stages
    [lo] to [hi], in the order of their stages. *)
Definition appends (lo hi : nat) (self self' : CadToCsg) : Prop :=
  ∃ evs, trace self' = trace self ++ evs
         ∧ StronglySorted stage_le evs
         ∧ Forall (λ e, (lo ≤ stage e ≤ hi)%nat) evs.

(** The order the specification states between simplification and void
    generation: no cell is simplified after void generation began. *)
Definition simplification_before_void_generation (tr : list event) : Prop :=
  ∀ (i j : nat) init c,
    tr !! i = Some (EvVoidGeneration init) → tr !! j = Some (EvSimplify c) → (j < i)%nat.

(** *** Identities *)

(** The identity of the cell at [r]. *)
Definition id_at (h : heap) (r : ref) : Z :=
  match h !! r with Some o => __id__ o | None => 0 end.

(** Modelled from the spec: [void.void_generation] is not among the
    sources; the void cells it creates receive the identities
    [init + 1], [init + 2], ...  The property says none of them is the
    identity of a non-enclosure cell of the solid list. *)
Definition void_ids_clear_of_solids (self : CadToCsg) (init : Z) : Prop :=
  ∀ r o (k : nat), r ∈ meta_list self → objects self !! r = Some o →
                   IsEnclosure o = false → __id__ o ≠ init + 1 + Z.of_nat k.

(** The statement of the specification on comments, taken by the
    letter: every cell of the output that records a set of identities
    has the comment built from the labels [idLabel] holds for them. *)
Definition every_cross_reference_rewritten (idLabel : gmap Z Z) (h0 h' : heap)
    (out : list ref) : Prop :=
  ∀ r m b ids, r ∈ out → h0 !! r = Some m →
    __commentInfo__ m = Some (b, Some ids) →
    ∃ labels, Forall2 (λ i l, idLabel !! i = Some l) ids labels
              ∧ Comments <$> h' !! r = Some (void_comment_line b labels).

(** The labels of the cells of [l], in order. *)
Definition labels_of (h : heap) (l : list ref) : list (option Z) :=
  (λ r, h !! r ≫= label) <$> l.

End Vocabulary.

(** * Vocabulary of the further properties *)

Section FurtherVocabulary.
Context `{KT : KernelTypes} `{C : !Collaborators}.

(** What [exclude_cells] tests on the cell at [r]: an enclosure entry,
    or a comment that contains one of the labels. *)
Definition cell_excluded (h : heap) (labelList : list string) (r : ref) : bool :=
  match h !! r with
  | Some o => IsEnclosure o || existsb (λ label, py_in_str label (Comments o)) labelList
  | None => false
  end.

(** Box [outer] holds box [inner]. *)
Definition box_holds (outer inner : BoundBox) : Prop :=
  coord_le (XMin outer) (XMin inner) ∧ coord_le (YMin outer) (YMin inner)
  ∧ coord_le (ZMin outer) (ZMin inner) ∧ coord_le (XMax inner) (XMax outer)
  ∧ coord_le (YMax inner) (YMax outer) ∧ coord_le (ZMax inner) (ZMax outer).

(** Every object of [h0] is in [h], with the attributes numbering
    never writes as they were. *)
Definition same_frozen (h0 h : heap) : Prop :=
  ∀ r o, h0 !! r = Some o → ∃ o', h !! r = Some o' ∧ frozen o' = frozen o.

(** What a run keeps of the instance until the numbering. *)
Definition same_config (self self' : CadToCsg) : Prop :=
  settings self' = settings self ∧ options self' = options self
  ∧ meta_list self' = meta_list self ∧ enclosure_list self' = enclosure_list self
  ∧ geometry_bounding_box self' = geometry_bounding_box self.

(** The cells [_decompose_solids] splits: with [meta] every entry that
    is no enclosure entry, without it every entry. *)
Definition decomposed (meta : bool) (h : heap) (r : ref) : bool :=
  match h !! r with
  | Some o => negb (meta && IsEnclosure o)
  | None => false
  end.

(** The state of the loop of [_decompose_solids] once the entries
    [done] of the list are visited, [self] being the instance at the
    call and [box] its universe box. *)
Definition decompose_inv (meta : bool) (self : CadToCsg) (box : BoundBox)
    (done : list ref) (st : CadToCsg * list nat) : Prop :=
  let split := filter (λ r, decomposed meta (objects self) r = true) done in
  same_config self st.1
  ∧ is_Some (Surfaces st.1)
  ∧ trace st.1 = trace self ++ (EvSplitSolid <$> split)
  ∧ (∀ r, r ∉ split → objects st.1 !! r = objects self !! r)
  ∧ (∀ r o solids, r ∈ split → objects self !! r = Some o → Solids o = Some solids →
       objects st.1 !! r = Some (update_solids o (SplitSolid solids box).1))
  ∧ (∀ i : nat, i ∈ st.2 ↔
       ∃ r o solids, done !! i = Some r ∧ objects self !! r = Some o
                     ∧ decomposed meta (objects self) r = true
                     ∧ Solids o = Some solids ∧ (SplitSolid solids box).2 ≠ 0).

End FurtherVocabulary.

(** * A small instance

    Lengths are integers, a cell definition is the set of the signed
    surfaces it names and all of them count as cones, a solid at [z]
    has the unit cube at [(z, z, z)] as bounding box, and void
    generation makes one void cell that records the identities of the
    solids it was given. *)

Module Toy.

Definition types : KernelTypes :=
  {| BoolSequence := gset Z; Shape := unit; CompSolid := unit; BoxLimits := unit;
     OtherAttrs := Z; SurfacesDict := unit; coord := Z |}.

#[local] Existing Instance types.

Definition cell (id : Z) (null encl void : bool) (eid : Z)
    (info : option (unit * option (list Z))) (def : gset Z) (comments : string)
    (z : Z) : GeounedSolid :=
  mkSolid types id None (Some [()]) def comments encl eid null void info z.

Definition collaborators : Collaborators :=
  {| GeounedSolid_init := λ i, mkSolid types (default 0 i) None None ∅ "" false 0 true false None 0;
     void_comment_line := λ _ labels,
       "Enclosed cells : " +:+ String.concat ", " (pretty <$> labels);
     optimalBoundingBox := λ o,
       let z := other_attrs o in mkBox types z z z (z + 1) (z + 1) (z + 1);
     coord_lt := Z.ltb;
     coord_add := Z.add;
     coord_sub := Z.sub;
     default_padding := 10;
     SurfacesDict_init := λ _, ();
     SplitSolid := λ _ _, ((), 0);
     extend_surfaces := λ Sf _ _, Sf;
     update_solids := λ m _, m;
     cellDef := λ m Sf _, (m, Sf, Definition_ m);
     no_overlapping_cell := λ _ h Sf, (h, Sf);
     translate := λ _ h Sf _, (h, Sf);
     void_generation := λ meta_reduced _ Sf _ init h,
       let r := fresh (dom h) in
       let ids := omap (λ m, __id__ <$> h !! m) meta_reduced in
       ([r], <[r := cell (init + 1) false false true 0 (Some ((), Some ids)) ∅ "" 0]> h, Sf);
     level := λ d, if decide (d = ∅) then 0 else 1;
     simplify_full := λ m _, m;
     add_cone_plane := λ d cones Sf _, (d ∪ cones, Sf) |}.

#[local] Existing Instance collaborators.

(** A solid with the cone [+7], an enclosure, a null solid; a void
    cell of the outer region and one of the enclosure, both next to
    the solid, and a null void cell. *)
Definition store : heap :=
  <[0%nat := cell 1 false false false 0 None {[7]} "solid" 0]>
  (<[1%nat := cell 2 false true false 1 None ∅ "enclosure" (-5)]>
  (<[2%nat := cell 3 true false false 0 None ∅ "null" 3]>
  (<[3%nat := cell 4 false false true 0 (Some ((), Some [1])) ∅ "outer void" 0]>
  (<[4%nat := cell 5 false false true 1 (Some ((), Some [1; 0])) ∅ "inner void" 0]>
  (<[5%nat := cell 6 true false true 0 (Some ((), None)) ∅ "null void" 0]> ∅))))).

Definition solids : list ref := [0; 1; 2]%nat.
Definition voids : list ref := [3; 4; 5]%nat.

(** The cone record of the solid, and the universe box. *)
Definition cone_records : gmap Z (gset Z) := {[1 := {[7]}]}.
Definition universe : BoundBox := mkBox types (-15) (-15) (-15) 14 14 14.

(** A solid, not flagged void, that records identities. *)
Definition store_solid_with_record : heap :=
  <[0%nat := cell 1 false false false 0 (Some ((), Some [1])) ∅ "solid" 0]>
  (<[1%nat := cell 2 false false true 0 None ∅ "outer void" 0]> ∅).

Definition settings : Settings.t :=
  Settings.mk "" 1 1 true [] "full" false.

Definition options : Options.t := Options.mk false false.

(** One solid to convert. *)
Definition one_solid : CadToCsg :=
  mkCadToCsg settings options [0%nat] [] None None
    (<[0%nat := cell 1 false false false 0 None {[7]} "solid" 0]> ∅) [].

(** An enclosure loaded before a solid, and after two solids. *)
Definition enclosure_first : CadToCsg :=
  mkCadToCsg settings options [0; 1]%nat [0%nat] None None
    (<[0%nat := cell 1 false true false 1 None ∅ "enclosure" 0]>
    (<[1%nat := cell 2 false false false 0 None ∅ "solid" 0]> ∅)) [].

Definition enclosure_last : CadToCsg :=
  mkCadToCsg settings options [0; 1; 2]%nat [2%nat] None None
    (<[0%nat := cell 1 false false false 0 None ∅ "solid" 0]>
    (<[1%nat := cell 2 false false false 0 None ∅ "solid" 0]>
    (<[2%nat := cell 3 false true false 1 None ∅ "enclosure" 0]> ∅))) [].

(** Two files: a solid and an enclosure, then a solid read as spline
    ([Solids] is [None]). *)
Definition spline_store : heap :=
  <[0%nat := cell 1 false false false 0 None ∅ "solid" 0]>
  (<[1%nat := cell 2 false true false 1 None ∅ "enclosure" 0]>
  (<[2%nat := mkSolid types 1 None None ∅ "spline" false 0 false false None 0]> ∅)).

Definition spline_enclosure_store : heap :=
  <[0%nat := cell 1 false false false 0 None ∅ "solid" 0]>
  (<[1%nat := mkSolid types 1 None None ∅ "enclosure" true 1 false false None 0]> ∅).

End Toy.

(** ** More cases on the small instance *)

Module ToyCases.
#[local] Existing Instances Toy.types Toy.collaborators.

(** The small model with one more void cell, of the enclosure [7]
    that the solid list does not hold. *)
Definition store_lost_void : heap :=
  <[6%nat := Toy.cell 7 false false true 7 None ∅ "lost void" 0]> Toy.store.

(** The small model where the outer void cell records the identity
    [3] of the null solid. *)
Definition store_void_of_null : heap :=
  <[3%nat := Toy.cell 4 false false true 0 (Some ((), Some [3])) ∅ "outer void" 0]>
    Toy.store.

(** One solid, the box and the registry set. *)
Definition one_solid_ready : CadToCsg :=
  set_Surfaces () (set_geometry_bounding_box Toy.universe Toy.one_solid).

(** Enclosures to sort, without void generation. *)
Definition sorting_without_voids : CadToCsg :=
  mkCadToCsg (Settings.mk "" 1 1 false [] "" true) Toy.options
    [0; 1; 2]%nat [2%nat] None None (objects Toy.enclosure_last) [].

End ToyCases.

(** The calls of [from_json] on the small model: each call leaves its
    name in the instance. *)
Module ToyConfig.

Definition collaborators : ConfigCollaborators Z (list string) :=
  {| cls_init := [];
     set_tolerances_from := λ _ cad, Ok (cad ++ ["Tolerances"]);
     set_options_from := λ _ cad, Ok (cad ++ ["Options"]);
     set_numeric_format_from := λ _ cad, Ok (cad ++ ["NumericFormat"]);
     set_settings_from := λ _ cad, Ok (cad ++ ["Settings"]);
     call_load_step_file := λ _ cad, Ok (cad ++ ["load_step_file"]);
     call_start := λ cad, Ok (cad ++ ["start"]);
     call_export_csg := λ _ cad, Ok (cad ++ ["export_csg"]) |}.

End ToyConfig.

(** * Proofs

    ** Loading: renumbering by [join_meta_lists] *)

Section LoadProofs.
Context `{KT : KernelTypes} `{C : !Collaborators}.

Lemma deref_Some (h : heap) r m : h !! r = Some m → deref h r = Ok m.
Proof. unfold deref. by intros ->. Qed.

Lemma res_bind_Ok {A B} (f : A → res B) a : (Ok a ≫= f) = f a.
Proof. done. Qed.

(** *** [join_meta_lists] *)

Lemma join_meta_inner lastID (M : list ref) :
  ∀ (k : nat) (nl : list ref) (h : heap),
    NoDup M →
    (∀ r, r ∈ M → is_Some (h !! r)) →
    ∃ h' : heap,
      foldM (join_meta_step lastID) (nl, h) (zip (seq k (length M)) M) = Ok (nl ++ M, h')
      ∧ (∀ r, r ∉ M → h' !! r = h !! r)
      ∧ (∀ (j : nat) r, M !! j = Some r →
           ∃ m, h !! r = Some m
                ∧ h' !! r = Some (set_id (lastID + Z.of_nat (k + j)) m)).
Proof.
  induction M as [|x M IH]; intros k nl h Hnd Hal.
  - exists h. rewrite app_nil_r. split_and!; [done|done|]. intros j r Hj. done.
  - apply NoDup_cons in Hnd as [Hx Hnd].
    destruct (Hal x) as [mx Hmx]; [set_solver|].
    destruct (IH (S k) (nl ++ [x]) (<[x := set_id (lastID + Z.of_nat k) mx]> h) Hnd)
      as (h' & Hrun & Hout & Hin).
    { intros r Hr. rewrite lookup_insert_ne; [|set_solver]. apply Hal. set_solver. }
    exists h'. split_and!.
    + cbn [length seq zip zip_with foldM]. unfold join_meta_step at 2.
      rewrite (deref_Some _ _ _ Hmx). cbn [mbind res_bind].
      rewrite Hrun. by rewrite <- app_assoc.
    + intros r Hr. rewrite Hout; [|set_solver]. rewrite lookup_insert_ne; [done|set_solver].
    + intros [|j] r Hj; simplify_eq/=.
      * exists mx. split; [done|]. rewrite Hout; [|done].
        rewrite lookup_insert_eq; do 2 f_equal; lia.
      * destruct (Hin j r Hj) as (m & Hm & Hm').
        assert (r ≠ x) by (intros ->; apply Hx; by eapply list_elem_of_lookup_2).
        rewrite lookup_insert_ne in Hm; [|done].
        exists m. split; [done|]. rewrite Hm'; do 2 f_equal; lia.
Qed.

Lemma join_meta_outer (rest : list (list ref)) :
  ∀ (nl : list ref) (h : heap) l ml,
    NoDup (nl ++ concat rest) →
    (∀ r, r ∈ concat rest → is_Some (h !! r)) →
    last nl = Some l → h !! l = Some ml →
    ∃ h' : heap,
      foldM join_meta_chunk (nl, h) rest = Ok (nl ++ concat rest, h')
      ∧ (∀ r, r ∉ concat rest → h' !! r = h !! r)
      ∧ (∀ (k : nat) r, concat rest !! k = Some r →
           ∃ m, h !! r = Some m
                ∧ h' !! r = Some (set_id (__id__ ml + 1 + Z.of_nat k) m)).
Proof.
  induction rest as [|M rest IH]; intros nl h l ml Hnd Hal Hl Hml.
  - exists h. cbn. rewrite app_nil_r. split_and!; [done|done|]. intros k r Hk. done.
  - cbn [concat] in *.
    apply NoDup_app in Hnd as (Hnl & Hdisj & Hnd).
    apply NoDup_app in Hnd as (HM & HMrest & Hrest).
    destruct (join_meta_inner (__id__ ml + 1) M 0%nat nl h HM) as (h1 & Hrun1 & Hout1 & Hin1).
    { intros r Hr. apply Hal. set_solver. }
    assert (Hstep : join_meta_chunk (nl, h) M = Ok (nl ++ M, h1)).
    { unfold join_meta_chunk, py_last. rewrite Hl. cbn [mbind res_bind].
      rewrite (deref_Some _ _ _ Hml). cbn [mbind res_bind]. exact Hrun1. }
    destruct (decide (M = [])) as [->|HMne].
    + (* an empty chunk changes nothing *)
      rewrite app_nil_r in Hstep.
      destruct (IH nl h1 l ml) as (h' & Hrun & Hout & Hin).
      { apply NoDup_app. split_and!; [done| |done]. intros r Hr. specialize (Hdisj r Hr). set_solver. }
      { intros r Hr. rewrite Hout1; [|set_solver]. apply Hal. set_solver. }
      { done. }
      { rewrite Hout1; [done|set_solver]. }
      exists h'. split_and!.
      * cbn [foldM]. rewrite Hstep. cbn [mbind res_bind]. by rewrite Hrun.
      * intros r Hr. rewrite Hout; [|set_solver]. apply Hout1. set_solver.
      * intros k r Hk. cbn in Hk. destruct (Hin k r Hk) as (m & Hm & Hm').
        exists m. split; [|done]. rewrite <- Hm. symmetry. apply Hout1. set_solver.
    + (* the chunk's last entry becomes the last entry of the list *)
      destruct (last M) as [l'|] eqn:Hl'; [|by apply last_None in Hl'].
      assert (HlM : M !! (length M - 1)%nat = Some l').
      { rewrite last_lookup in Hl'. by replace (length M - 1)%nat with (pred (length M)) by lia. }
      destruct (Hin1 _ _ HlM) as (m' & Hm' & Hm1').
      destruct (IH (nl ++ M) h1 l' (set_id (__id__ ml + 1 + Z.of_nat (0 + (length M - 1))) m'))
        as (h' & Hrun & Hout & Hin).
      { rewrite <- app_assoc. apply NoDup_app. split_and!; [done| |].
        - intros r Hr. specialize (Hdisj r Hr). done.
        - apply NoDup_app. done. }
      { intros r Hr. rewrite Hout1.
        - apply Hal. set_solver.
        - intros HrM. by apply (HMrest r). }
      { rewrite last_app, Hl'. done. }
      { done. }
      exists h'. split_and!.
      * cbn [foldM]. rewrite Hstep. cbn [mbind res_bind]. rewrite Hrun. by rewrite <- app_assoc.
      * intros r Hr. rewrite Hout; [|set_solver]. apply Hout1. set_solver.
      * intros k r Hk. apply lookup_app_Some in Hk as [Hk|[Hge Hk]].
        -- destruct (Hin1 _ _ Hk) as (m & Hm & Hm1). exists m. split; [done|].
           rewrite Hout.
           ++ rewrite Hm1; do 2 f_equal; lia.
           ++ apply (HMrest r). by eapply list_elem_of_lookup_2.
        -- destruct (Hin _ _ Hk) as (m & Hm & Hm1).
           assert (r ∉ M).
           { intros HrM. apply (HMrest r HrM). by eapply list_elem_of_lookup_2. }
           rewrite Hout1 in Hm; [|done]. exists m. split; [done|].
           assert (length M ≠ 0%nat) by (by destruct M).
           rewrite Hm1; do 2 f_equal; cbn [__id__ set_id]; lia.
Qed.

End LoadProofs.

(** ** Deleting by position *)

Section ListProofs.
Context {A : Type}.
Implicit Types (l : list A) (skip D : list Z).

Lemma wp_from_cons k skip x l :
  wp_from k skip (x :: l) =
    (if decide (Z.of_nat k ∈ skip) then [] else [x]) ++ wp_from (S k) skip l.
Proof.
  unfold wp_from. cbn [length seq zip zip_with]. rewrite filter_cons. cbn [fst].
  destruct (decide (Z.of_nat k ∈ skip)) as [Hin|Hout].
  - rewrite decide_False; [done|]. by intros ?.
  - rewrite decide_True; done.
Qed.

Lemma wp_from_nil k skip : wp_from k skip (@nil A) = [].
Proof. done. Qed.

Lemma wp_from_all k skip l :
  (∀ d, d ∈ skip → d < Z.of_nat k) → wp_from k skip l = l.
Proof.
  revert k. induction l as [|x l IH]; intros k Hlt; [done|].
  rewrite wp_from_cons, decide_False.
  - cbn. f_equal. apply IH. intros d Hd. specialize (Hlt d Hd). lia.
  - intros Hk. specialize (Hlt _ Hk). lia.
Qed.

Lemma wp_from_delete D l : ∀ (k n : nat),
  (n < length l)%nat →
  (∀ d, d ∈ D → d < Z.of_nat (k + n)) →
  wp_from k D (delete n l) = wp_from k (Z.of_nat (k + n) :: D) l.
Proof.
  induction l as [|x l IH]; intros k n Hn Hlt; [cbn in Hn; lia|].
  destruct n as [|n].
  - change (delete 0%nat (x :: l)) with l. rewrite wp_from_cons, decide_True.
    + cbn. rewrite !wp_from_all; [done| |].
      * intros d [->|Hd]%elem_of_cons; [lia|]. specialize (Hlt d Hd). lia.
      * intros d Hd. specialize (Hlt d Hd). lia.
    + replace (k + 0)%nat with k by lia. set_solver.
  - change (delete (S n) (x :: l)) with (x :: delete n l). rewrite !wp_from_cons.
    rewrite (IH (S k) n); [| cbn in Hn; lia |].
    + replace (S k + n)%nat with (k + S n)%nat by lia.
      f_equal. destruct (decide (Z.of_nat k ∈ D)) as [Hin|Hout].
      * rewrite decide_True; [done|set_solver].
      * rewrite decide_False; [done|].
        intros [Heq|Hd]%elem_of_cons; [lia|done].
    + intros d Hd. specialize (Hlt d Hd). lia.
Qed.

Lemma without_positions_wp skip l : without_positions skip l = wp_from 0 skip l.
Proof. done. Qed.

(** Deleting at strictly decreasing positions leaves the entries at
    the other positions. *)
Lemma foldM_py_del_descending D : ∀ l,
  StronglySorted (λ x y, y < x) D →
  (∀ d, d ∈ D → 0 ≤ d < Z.of_nat (length l)) →
  foldM py_del l D = Ok (without_positions D l).
Proof.
  induction D as [|i D IH]; intros l Hs Hr.
  - cbn. rewrite without_positions_wp, wp_from_all; [done|]. intros d Hd. set_solver.
  - apply StronglySorted_inv in Hs as [Hs Hi].
    rewrite Forall_forall in Hi.
    destruct (Hr i) as [Hi0 Hi1]; [set_solver|].
    cbn [foldM]. unfold py_del at 2, py_index.
    rewrite decide_True by lia. cbn [mbind res_bind].
    rewrite IH; [|done|].
    + f_equal. rewrite !without_positions_wp.
      rewrite wp_from_delete; [|lia|].
      * cbn [Nat.add]. by rewrite Z2Nat.id by lia.
      * intros d Hd. specialize (Hi d Hd). cbn [Nat.add]. lia.
    + intros d Hd. specialize (Hi d Hd). rewrite length_delete.
      * destruct (Hr d); [set_solver|]. lia.
      * apply lookup_lt_is_Some. lia.
Qed.

Lemma without_positions_ext skip skip' l :
  (∀ d, d ∈ skip ↔ d ∈ skip') → without_positions skip l = without_positions skip' l.
Proof.
  intros Heq. unfold without_positions. f_equal.
  apply list_filter_iff. intros [i x]. cbn. by rewrite Heq.
Qed.

(** When the listed positions are those of the entries that fail [P],
    what is left is [filter P]. *)
Lemma wp_from_filter (P : A → Prop) `{∀ x, Decision (P x)} skip l : ∀ k,
  (∀ (j : nat) x, l !! j = Some x → (Z.of_nat (k + j) ∈ skip ↔ ¬ P x)) →
  wp_from k skip l = filter P l.
Proof.
  induction l as [|x l IH]; intros k Hk; [done|].
  rewrite wp_from_cons, filter_cons.
  rewrite (IH (S k)).
  - pose proof (Hk 0%nat x eq_refl) as H0. replace (k + 0)%nat with k in H0 by lia.
    destruct (decide (P x)) as [HP|HP].
    + rewrite decide_False; [done|]. intros ?%H0. done.
    + rewrite decide_True; [done|]. by apply H0.
  - intros j y Hj. replace (S k + j)%nat with (k + S j)%nat by lia. by apply Hk.
Qed.

End ListProofs.

Global Instance desc_trans : Transitive desc.
Proof. unfold desc. intros x y z ??. lia. Qed.
Global Instance desc_total : Total desc.
Proof. unfold desc. intros x y. lia. Qed.
Global Instance desc_antisymm : AntiSymm eq desc.
Proof. unfold desc. intros x y ??. lia. Qed.

Lemma sorted_reverse_perm l l' : l ≡ₚ l' → sorted_reverse l = sorted_reverse l'.
Proof.
  intros Hp. unfold sorted_reverse.
  apply (StronglySorted_unique desc).
  - apply StronglySorted_merge_sort; apply _.
  - apply StronglySorted_merge_sort; apply _.
  - by rewrite !merge_sort_Permutation.
Qed.

Lemma StronglySorted_desc_strict l :
  NoDup l → StronglySorted desc l → StronglySorted (λ x y, y < x) l.
Proof.
  induction 2 as [|x l Hs IH Hx]; [constructor|].
  apply NoDup_cons in H as [Hnotin Hnd].
  constructor; [by apply IH|].
  rewrite Forall_forall in Hx |- *. intros y Hy. specialize (Hx y Hy). unfold desc in Hx.
  assert (y ≠ x) by (intros ->; done). lia.
Qed.

Lemma delete_skipped_spec {A} (l : list A) (skip : list Z) :
  NoDup skip →
  (∀ i, i ∈ skip → 0 ≤ i < Z.of_nat (length l)) →
  foldM py_del l (sorted_reverse skip) = Ok (without_positions skip l).
Proof.
  intros Hnd Hr.
  assert (Hp : sorted_reverse skip ≡ₚ skip) by apply merge_sort_Permutation.
  rewrite foldM_py_del_descending.
  - f_equal. apply without_positions_ext. intros d. by rewrite Hp.
  - apply StronglySorted_desc_strict.
    + by rewrite Hp.
    + apply StronglySorted_merge_sort; apply _.
  - intros d Hd. apply Hr. by rewrite <- Hp.
Qed.

(** A negative index counts from the end of the list as it is when the
    deletion is made: for [[-1; -2]] the loop deletes the last entry,
    then the entry before the new last one. *)
Lemma skip_solids_negative_indices :
  delete_skipped [10; 11; 12]%nat [-1; -2] = Ok [11]%nat.
Proof. by vm_compute. Qed.

(** Two entries of a sorted list are related in the order of their
    positions. *)
Lemma StronglySorted_lookup_lt {A} (R : relation A) (l : list A) : ∀ (i j : nat) a b,
  StronglySorted R l → l !! i = Some a → l !! j = Some b → (i < j)%nat → R a b.
Proof.
  induction l as [|x l IH]; intros i j a b Hs Hi Hj Hij; [done|].
  apply StronglySorted_inv in Hs as [Hs Hx]. rewrite Forall_forall in Hx.
  destruct i as [|i], j as [|j]; simplify_eq/=; try lia.
  - apply Hx. by eapply list_elem_of_lookup_2.
  - apply (IH i j); [done..|lia].
Qed.

(** ** Spline solids and the bounding-box loop *)

Section SplineProofs.
Context `{KT : KernelTypes} `{C : !Collaborators}.

Lemma py_remove_middle (pre suf : list ref) (m : ref) :
  m ∉ pre → py_remove m (pre ++ m :: suf) = Ok (pre ++ suf).
Proof.
  induction pre as [|y pre IH]; intros Hm; cbn.
  - by rewrite decide_True.
  - rewrite decide_False by set_solver. rewrite IH by set_solver. done.
Qed.

Lemma remove_spline_solids_filter (h : heap) (pre : list ref) : ∀ suf,
  NoDup pre → allocated h pre →
  remove_spline_solids h (length pre) (pre ++ suf) = Ok (filter (has_solids h) pre ++ suf).
Proof.
  induction pre as [|m pre IH] using rev_ind; intros suf Hnd Hal; [done|].
  apply NoDup_app in Hnd as (Hnd & Hdisj & _).
  assert (Hm : m ∉ pre) by (intros Hin; apply (Hdisj m Hin); set_solver).
  destruct (Hal m) as [o Ho]; [set_solver|].
  rewrite length_app, Nat.add_1_r. cbn [remove_spline_solids].
  rewrite <- app_assoc. cbn [app].
  rewrite list_lookup_middle by done.
  rewrite (deref_Some _ _ _ Ho). cbn [mbind res_bind].
  rewrite filter_app, filter_cons, filter_nil.
  destruct (Solids o) as [s|] eqn:Hs.
  - cbn [mbind res_bind]. rewrite IH; [|done|intros r Hr; apply Hal; set_solver].
    rewrite decide_True.
    + by rewrite <- app_assoc.
    + exists o. rewrite Hs. eauto.
  - rewrite py_remove_middle by done. cbn [mbind res_bind].
    rewrite IH; [|done|intros r Hr; apply Hal; set_solver].
    rewrite decide_False.
    + by rewrite app_nil_r.
    + intros (o' & Ho' & Hs'). simplify_eq. rewrite Hs in Hs'. by destruct Hs'.
Qed.

Lemma check_solids_exit (h : heap) (l : list ref) :
  allocated h l →
  (∃ r o, r ∈ l ∧ h !! r = Some o ∧ Solids o = None) →
  foldM (λ (_ : ()) m, o ← deref h m;
           match Solids o with None => Raise SystemExit | Some _ => Ok () end) () l
  = Raise SystemExit.
Proof.
  induction l as [|x l IH]; intros Hal (r & o & Hr & Ho & Hs); [by apply elem_of_nil in Hr|].
  destruct (Hal x) as [ox Hox]; [set_solver|].
  cbn [foldM]. rewrite (deref_Some _ _ _ Hox). cbn [mbind res_bind].
  destruct (Solids ox) eqn:Hsx; [|done]. cbn [mbind res_bind].
  apply IH; [intros r' Hr'; apply Hal; set_solver|].
  apply elem_of_cons in Hr as [->|Hr]; [simplify_eq; congruence|]. eauto.
Qed.

Lemma check_solids_pass (h : heap) (l : list ref) :
  (∀ r, r ∈ l → has_solids h r) →
  foldM (λ (_ : ()) m, o ← deref h m;
           match Solids o with None => Raise SystemExit | Some _ => Ok () end) () l
  = Ok ().
Proof.
  induction l as [|x l IH]; intros Hall; [done|].
  destruct (Hall x) as (o & Ho & s & Hs); [set_solver|].
  cbn [foldM]. rewrite (deref_Some _ _ _ Ho). cbn [mbind res_bind]. rewrite Hs.
  cbn [mbind res_bind]. apply IH. intros r Hr. apply Hall. set_solver.
Qed.

Lemma check_enclosure_solids_exit (h : heap) (el : list ref) :
  allocated h el →
  (∃ r o, r ∈ el ∧ h !! r = Some o ∧ Solids o = None) →
  check_enclosure_solids h el = Raise SystemExit.
Proof.
  intros Hal (r & o & Hr & Ho). apply check_solids_exit.
  - intros r' Hr'. apply Hal. by apply elem_of_reverse.
  - exists r, o. split; [by apply elem_of_reverse|done].
Qed.

Lemma check_enclosure_solids_pass (h : heap) (el : list ref) :
  (∀ r, r ∈ el → has_solids h r) → check_enclosure_solids h el = Ok ().
Proof.
  intros Hall. apply check_solids_pass. intros r Hr. apply Hall. by apply elem_of_reverse.
Qed.

End SplineProofs.

Section BoxProofs.
Context `{KT : KernelTypes} `{C : !Collaborators} `{!CoordOrder}.

Lemma coord_le_refl a : coord_le a a.
Proof.
  unfold coord_le. destruct (coord_lt a a) eqn:E; [|done].
  by rewrite (coord_lt_asym _ _ E) in E.
Qed.

Lemma py_min_minimum (opt acc : coord) (seen : list coord) :
  minimum_of acc seen → minimum_of (py_min opt acc) (opt :: seen).
Proof.
  intros [Hin Hle]. unfold py_min. destruct (coord_lt acc opt) eqn:E.
  - split; [set_solver|]. intros y [->|Hy]%elem_of_cons; [|by apply Hle].
    by apply coord_lt_asym.
  - split; [set_solver|]. intros y [->|Hy]%elem_of_cons; [apply coord_le_refl|].
    apply (coord_le_trans _ acc); [done|by apply Hle].
Qed.

Lemma py_max_maximum (opt acc : coord) (seen : list coord) :
  maximum_of acc seen → maximum_of (py_max opt acc) (opt :: seen).
Proof.
  intros [Hin Hle]. unfold py_max. destruct (coord_lt opt acc) eqn:E.
  - split; [set_solver|]. intros y [->|Hy]%elem_of_cons; [|by apply Hle].
    by apply coord_lt_asym.
  - split; [set_solver|]. intros y [->|Hy]%elem_of_cons; [apply coord_le_refl|].
    apply (coord_le_trans _ acc); [by apply Hle|done].
Qed.

Lemma minimum_of_perm x xs ys : xs ≡ₚ ys → minimum_of x xs → minimum_of x ys.
Proof. intros Hp [Hin Hle]. split; [by rewrite <- Hp|]. intros y Hy. apply Hle. by rewrite Hp. Qed.

Lemma maximum_of_perm x xs ys : xs ≡ₚ ys → maximum_of x xs → maximum_of x ys.
Proof. intros Hp [Hin Hle]. split; [by rewrite <- Hp|]. intros y Hy. apply Hle. by rewrite Hp. Qed.

Lemma bounding_box_loop (h : heap) (rest : list ref) : ∀ (acc : BoundBox) (seen : list BoundBox),
  allocated h rest → extrema_of acc seen →
  ∃ acc', foldM (bounding_box_step h) acc rest = Ok acc'
          ∧ extrema_of acc' (seen ++ bounding_boxes h rest).
Proof.
  induction rest as [|m rest IH]; intros acc seen Hal Hext.
  - exists acc. split; [done|]. unfold bounding_boxes. cbn. by rewrite app_nil_r.
  - destruct (Hal m) as [o Ho]; [set_solver|].
    cbn [foldM]. unfold bounding_box_step at 2.
    rewrite (deref_Some _ _ _ Ho). cbn [mbind res_bind].
    set (acc1 := mkBox _ _ _ _ _ _ _).
    destruct (IH acc1 (seen ++ [optimalBoundingBox o])) as (acc' & Hrun & Hext').
    + intros r Hr. apply Hal. set_solver.
    + destruct Hext as (H1 & H2 & H3 & H4 & H5 & H6).
      unfold extrema_of. rewrite !fmap_app. cbn [fmap list_fmap].
      split_and!.
      * eapply minimum_of_perm; [|apply py_min_minimum, H1]. by rewrite <- Permutation_cons_append.
      * eapply minimum_of_perm; [|apply py_min_minimum, H2]. by rewrite <- Permutation_cons_append.
      * eapply minimum_of_perm; [|apply py_min_minimum, H3]. by rewrite <- Permutation_cons_append.
      * eapply maximum_of_perm; [|apply py_max_maximum, H4]. by rewrite <- Permutation_cons_append.
      * eapply maximum_of_perm; [|apply py_max_maximum, H5]. by rewrite <- Permutation_cons_append.
      * eapply maximum_of_perm; [|apply py_max_maximum, H6]. by rewrite <- Permutation_cons_append.
    + exists acc'. split; [done|].
      unfold bounding_boxes in *. cbn [omap list_omap]. rewrite Ho. cbn [fmap option_fmap option_map].
      by rewrite <- app_assoc in Hext'.
Qed.

End BoxProofs.

(** ** Numbering: the relabelled store *)

Lemma enumerate_snoc {A} (l : list A) (x : A) :
  enumerate (l ++ [x]) = enumerate l ++ [(length l, x)].
Proof.
  unfold enumerate. rewrite length_app, Nat.add_1_r, seq_S. cbn [Nat.add].
  rewrite zip_with_app by (by rewrite length_seq). done.
Qed.

Section NumberingBasics.
Context `{KT : KernelTypes} `{C : !Collaborators}.
Implicit Types (h : heap) (g : nat → GeounedSolid → GeounedSolid).

Lemma set_Comments_same (o : GeounedSolid) : set_Comments (Comments o) o = o.
Proof. by destruct o. Qed.

Lemma apply_cells_nil g h : apply_cells g [] h = h.
Proof. done. Qed.

Lemma apply_cells_snoc g cells r h :
  apply_cells g (cells ++ [r]) h = alter (g (length cells)) r (apply_cells g cells h).
Proof. unfold apply_cells. by rewrite enumerate_snoc, foldl_app. Qed.

Lemma record_labels_nil h c : record_labels h c [] = {[0 := 0]}.
Proof. done. Qed.

Lemma record_labels_snoc h c cells r o :
  h !! r = Some o →
  record_labels h c (cells ++ [r]) =
    <[__id__ o := c + 1 + Z.of_nat (length cells)]> (record_labels h c cells).
Proof. intros Ho. unfold record_labels. rewrite enumerate_snoc, foldl_app. cbn. by rewrite Ho. Qed.

Lemma apply_cells_notin g cells h r :
  r ∉ cells → apply_cells g cells h !! r = h !! r.
Proof.
  induction cells as [|x cells IH] using rev_ind; intros Hr; [done|].
  rewrite apply_cells_snoc, lookup_alter_ne by set_solver. apply IH. set_solver.
Qed.

Lemma apply_cells_lookup g cells h (k : nat) r :
  NoDup cells → cells !! k = Some r →
  apply_cells g cells h !! r = g k <$> h !! r.
Proof.
  induction cells as [|x cells IH] using rev_ind; intros Hnd Hk; [done|].
  apply NoDup_app in Hnd as (Hnd & Hdisj & _).
  rewrite apply_cells_snoc.
  apply lookup_snoc_Some in Hk as [[Hlt Hk]|[Hlen Heq]].
  - assert (r ≠ x).
    { intros ->. apply (Hdisj x); [by eapply list_elem_of_lookup_2|set_solver]. }
    rewrite lookup_alter_ne by done. by apply IH.
  - subst k x. rewrite lookup_alter_eq. rewrite apply_cells_notin; [done|].
    intros Hin. apply (Hdisj r Hin). set_solver.
Qed.

Lemma apply_cells_frozen g cells h r o :
  (∀ k m, frozen (g k m) = frozen m) →
  apply_cells g cells h !! r = Some o →
  ∃ m, h !! r = Some m ∧ frozen o = frozen m.
Proof.
  intros Hg. revert o.
  induction cells as [|x cells IH] using rev_ind; intros o Ho; [by exists o|].
  rewrite apply_cells_snoc in Ho.
  destruct (decide (x = r)) as [->|Hne].
  - rewrite lookup_alter_eq in Ho.
    destruct (apply_cells g cells h !! r) as [o1|] eqn:Ho1; simplify_eq/=.
    destruct (IH o1 eq_refl) as (m & Hm & Hf). exists m. split; [done|].
    by rewrite Hg.
  - rewrite lookup_alter_ne in Ho by done. by apply IH.
Qed.

Lemma apply_cells_is_Some g cells h r :
  is_Some (h !! r) → is_Some (apply_cells g cells h !! r).
Proof.
  intros Hs. induction cells as [|x cells IH] using rev_ind; [done|].
  rewrite apply_cells_snoc. destruct (decide (x = r)) as [->|Hne].
  - rewrite lookup_alter_eq. destruct IH as [o ->]. by eexists.
  - by rewrite lookup_alter_ne.
Qed.

(** [update_comment] on a cell whose new text is known. *)
Lemma py_getitem_Some `{Countable K} {V} (d : gmap K V) k v :
  d !! k = Some v → py_getitem d k = Ok v.
Proof. unfold py_getitem. by intros ->. Qed.

Lemma mapM_getitem (idLabel : gmap Z Z) ids ls :
  mapM (λ i, idLabel !! i) ids = Some ls → mapM (py_getitem idLabel) ids = Ok ls.
Proof.
  rewrite mapM_Some. induction 1 as [|i l ids ls Hi _ IH]; [done|].
  cbn. rewrite (py_getitem_Some _ _ _ Hi). cbn. by rewrite IH.
Qed.

Lemma update_comment_Some meta idLabel h o cm :
  h !! meta = Some o → new_comment idLabel o = Some cm →
  update_comment meta idLabel h = Ok (<[meta := set_Comments cm o]> h).
Proof.
  intros Ho Hcm. unfold update_comment, new_comment in *.
  rewrite (deref_Some _ _ _ Ho). cbn [mbind res_bind].
  destruct (__commentInfo__ o) as [[box [ids|]]|]; simplify_eq/=.
  - destruct (mapM (λ i, idLabel !! i) ids) as [ls|] eqn:Hls; simplify_eq/=.
    by rewrite (mapM_getitem _ _ _ Hls).
  - rewrite set_Comments_same, insert_id; done.
  - rewrite set_Comments_same, insert_id; done.
Qed.

Lemma frozen_set_label l o : frozen (set_label l o) = frozen o.
Proof. done. Qed.

Lemma frozen_set_Comments c o : frozen (set_Comments c o) = frozen o.
Proof. done. Qed.

Lemma new_comment_frozen idLabel o o' :
  frozen o = frozen o' →
  new_comment idLabel o = Some (Comments o) ∨
  new_comment idLabel o = new_comment idLabel o'.
Proof.
  intros Hf. unfold new_comment.
  assert (__commentInfo__ o = __commentInfo__ o') as <- by (unfold frozen in Hf; congruence).
  destruct (__commentInfo__ o) as [[box [ids|]]|]; auto.
Qed.

(** Flags read through a store that agrees with a relabelled one. *)
Lemma is_null_frozen h h' r o m :
  h !! r = Some o → h' !! r = Some m → frozen o = frozen m → is_null h' r = NullCell o.
Proof. intros Ho Hm Hf. unfold is_null. rewrite Hm. unfold frozen in Hf. congruence. Qed.

Lemma is_enclosure_frozen h h' r o m :
  h !! r = Some o → h' !! r = Some m → frozen o = frozen m → is_enclosure h' r = IsEnclosure o.
Proof. intros Ho Hm Hf. unfold is_enclosure. rewrite Hm. unfold frozen in Hf. congruence. Qed.

End NumberingBasics.

(** ** Numbering: the loops of the flat branch *)

Lemma StronglySorted_reverse {A} (R : relation A) (l : list A) :
  StronglySorted R l → StronglySorted (flip R) (reverse l).
Proof.
  induction 1 as [|x l Hs IH Hx]; [constructor|].
  rewrite reverse_cons. apply StronglySorted_app_2; [|done|repeat constructor].
  intros y z Hy ->%list_elem_of_singleton.
  rewrite Forall_forall in Hx. apply Hx. by apply elem_of_reverse.
Qed.

Section FlatProofs.
Context `{KT : KernelTypes} `{C : !Collaborators}.
Implicit Types (h : heap) (g : nat → GeounedSolid → GeounedSolid).

Lemma insert_as_alter h r (o : GeounedSolid) (f : GeounedSolid → GeounedSolid) :
  h !! r = Some o → <[r := f o]> h = alter f r h.
Proof.
  intros Ho. apply map_eq. intros r'. destruct (decide (r = r')) as [->|Hne].
  - by rewrite lookup_insert_eq, lookup_alter_eq, Ho.
  - by rewrite lookup_insert_ne, lookup_alter_ne.
Qed.

Lemma apply_cells_dom g cells h : dom (apply_cells g cells h) = dom h.
Proof.
  induction cells as [|x cells IH] using rev_ind; [done|].
  by rewrite apply_cells_snoc, dom_alter_L.
Qed.

Lemma flat_solids_snoc h pre x :
  flat_solids h (pre ++ [x]) =
    flat_solids h pre ++ (if decide (is_null h x || is_enclosure h x = false) then [x] else []).
Proof.
  unfold flat_solids. rewrite filter_app, filter_cons, filter_nil. by destruct (decide _).
Qed.

Lemma flat_solid_loop (h0 : heap) (c : Z) (l : list ref) : ∀ (pre : list ref) deleted,
  allocated h0 l →
  ∃ deleted',
    foldM flat_solid_step
      (apply_cells (labelled c) (flat_solids h0 pre) h0,
       c + Z.of_nat (length (flat_solids h0 pre)),
       record_labels h0 c (flat_solids h0 pre), deleted)
      (zip (seq (length pre) (length l)) l)
    = Ok (apply_cells (labelled c) (flat_solids h0 (pre ++ l)) h0,
          c + Z.of_nat (length (flat_solids h0 (pre ++ l))),
          record_labels h0 c (flat_solids h0 (pre ++ l)), deleted ++ deleted')
    ∧ StronglySorted lt deleted'
    ∧ (∀ d, d ∈ deleted' → (length pre ≤ d < length pre + length l)%nat)
    ∧ (∀ (j : nat) x, l !! j = Some x →
         ((length pre + j)%nat ∈ deleted' ↔ ¬ (is_null h0 x || is_enclosure h0 x = false))).
Proof.
  induction l as [|x l IH]; intros pre deleted Hal.
  - exists []. rewrite !app_nil_r. split_and!; [done|constructor| |done].
    intros d Hd. by apply elem_of_nil in Hd.
  - destruct (Hal x) as [m Hm]; [set_solver|].
    destruct (apply_cells_is_Some (labelled c) (flat_solids h0 pre) h0 x) as [o Ho]; [by eexists|].
    destruct (apply_cells_frozen _ _ _ _ _ (λ k m, frozen_set_label _ m) Ho) as (m' & Hm' & Hf).
    assert (m' = m) as -> by congruence.
    assert (Hnull : is_null h0 x = NullCell o) by (by eapply is_null_frozen).
    assert (Hencl : is_enclosure h0 x = IsEnclosure o) by (by eapply is_enclosure_frozen).
    cbn [length seq zip zip_with foldM]. unfold flat_solid_step at 2.
    rewrite (deref_Some _ _ _ Ho). cbn [mbind res_bind].
    assert (Hal' : allocated h0 l) by (intros r Hr; apply Hal; set_solver).
    destruct (NullCell o || IsEnclosure o) eqn:Hskip.
    + (* dropped: its position is recorded *)
      destruct (IH (pre ++ [x]) (deleted ++ [length pre]) Hal') as (deleted' & Hrun & Hs & Hge & Hmem).
      rewrite flat_solids_snoc, decide_False, app_nil_r in Hrun by (rewrite Hnull, Hencl, Hskip; done).
      rewrite length_app, Nat.add_1_r in Hrun, Hge, Hmem. rewrite <- !app_assoc in Hrun. cbn [app] in Hrun.
      exists (length pre :: deleted'). split_and!.
      * exact Hrun.
      * constructor; [done|]. rewrite Forall_forall. intros d Hd. specialize (Hge d Hd). lia.
      * intros d [->|Hd]%elem_of_cons; [cbn [length]; lia|]. specialize (Hge d Hd). cbn [length]. lia.
      * intros [|j] y Hj; simplify_eq/=.
        -- rewrite Nat.add_0_r. rewrite Hnull, Hencl, Hskip. split; [done|]. intros _. set_solver.
        -- rewrite <- (Hmem j y Hj). replace (length pre + S j)%nat with (S (length pre) + j)%nat by lia.
           rewrite elem_of_cons. split; [|by right]. intros [Heq|?]; [lia|done].
    + (* kept: labelled and recorded *)
      destruct (IH (pre ++ [x]) deleted Hal') as (deleted' & Hrun & Hs & Hge & Hmem).
      rewrite flat_solids_snoc, decide_True in Hrun by (rewrite Hnull, Hencl, Hskip; done).
      rewrite length_app, Nat.add_1_r in Hrun, Hge, Hmem. rewrite <- !app_assoc in Hrun. cbn [app] in Hrun.
      rewrite apply_cells_snoc, (record_labels_snoc _ _ _ _ _ Hm) in Hrun.
      rewrite length_app, Nat.add_1_r in Hrun.
      exists deleted'. split_and!.
      * rewrite <- Hrun. f_equal.
        assert (Hic : c + Z.of_nat (length (flat_solids h0 pre)) + 1
                      = c + 1 + Z.of_nat (length (flat_solids h0 pre))) by lia.
        rewrite (insert_as_alter _ _ _ (set_label _) Ho). unfold labelled.
        cbn [__id__ set_label]. rewrite Hic.
        replace (__id__ o) with (__id__ m) by (unfold frozen in Hf; congruence).
        replace (c + Z.of_nat (S (length (flat_solids h0 pre))))
          with (c + 1 + Z.of_nat (length (flat_solids h0 pre))) by lia.
        done.
      * done.
      * intros d Hd. specialize (Hge d Hd). cbn [length]. lia.
      * intros [|j] y Hj; simplify_eq/=.
        -- rewrite Nat.add_0_r. rewrite Hnull, Hencl, Hskip. split; [|done].
           intros Hd. specialize (Hge _ Hd). lia.
        -- rewrite <- (Hmem j y Hj). by replace (length pre + S j)%nat with (S (length pre) + j)%nat by lia.
Qed.

Lemma frozen_labelled c k o : frozen (labelled c k o) = frozen o.
Proof. done. Qed.

Lemma frozen_labelled_void idLabel c k o : frozen (labelled_void idLabel c k o) = frozen o.
Proof. done. Qed.

Lemma new_comment_is_Some_frozen idLabel o m :
  frozen o = frozen m → is_Some (new_comment idLabel m) → is_Some (new_comment idLabel o).
Proof.
  intros Hf. unfold new_comment.
  assert (__commentInfo__ o = __commentInfo__ m) as -> by (unfold frozen in Hf; congruence).
  destruct (__commentInfo__ m) as [[box [ids|]]|]; eauto.
Qed.

Lemma flat_voids_snoc h pre x :
  flat_voids h (pre ++ [x]) =
    flat_voids h pre ++ (if decide (is_null h x = false) then [x] else []).
Proof.
  unfold flat_voids. rewrite filter_app, filter_cons, filter_nil. by destruct (decide _).
Qed.

Lemma flat_void_loop (hs : heap) idLabel (c : Z) (l : list ref) : ∀ (pre : list ref) deleted,
  allocated hs l →
  (∀ r o, r ∈ flat_voids hs l → hs !! r = Some o → is_Some (new_comment idLabel o)) →
  ∃ deleted',
    foldM (flat_void_step idLabel)
      (apply_cells (labelled_void idLabel c) (flat_voids hs pre) hs,
       c + Z.of_nat (length (flat_voids hs pre)), deleted)
      (zip (seq (length pre) (length l)) l)
    = Ok (apply_cells (labelled_void idLabel c) (flat_voids hs (pre ++ l)) hs,
          c + Z.of_nat (length (flat_voids hs (pre ++ l))), deleted ++ deleted')
    ∧ StronglySorted lt deleted'
    ∧ (∀ d, d ∈ deleted' → (length pre ≤ d < length pre + length l)%nat)
    ∧ (∀ (j : nat) x, l !! j = Some x →
         ((length pre + j)%nat ∈ deleted' ↔ ¬ (is_null hs x = false))).
Proof.
  induction l as [|x l IH]; intros pre deleted Hal Hres.
  - exists []. rewrite !app_nil_r. split_and!; [done|constructor| |done].
    intros d Hd. by apply elem_of_nil in Hd.
  - destruct (Hal x) as [m Hm]; [set_solver|].
    destruct (apply_cells_is_Some (labelled_void idLabel c) (flat_voids hs pre) hs x)
      as [o Ho]; [by eexists|].
    destruct (apply_cells_frozen _ _ _ _ _ (frozen_labelled_void idLabel c) Ho)
      as (m' & Hm' & Hf).
    assert (m' = m) as -> by congruence.
    assert (Hnull : is_null hs x = NullCell o) by (by eapply is_null_frozen).
    cbn [length seq zip zip_with foldM]. unfold flat_void_step at 2.
    rewrite (deref_Some _ _ _ Ho). cbn [mbind res_bind].
    assert (Hal' : allocated hs l) by (intros r Hr; apply Hal; set_solver).
    assert (Hres' : ∀ r o, r ∈ flat_voids hs l → hs !! r = Some o →
                           is_Some (new_comment idLabel o)).
    { intros r o' Hr. apply Hres. unfold flat_voids in *. rewrite filter_cons.
      destruct (decide _); set_solver. }
    destruct (NullCell o) eqn:Hskip.
    + destruct (IH (pre ++ [x]) (deleted ++ [length pre]) Hal' Hres')
        as (deleted' & Hrun & Hs & Hge & Hmem).
      rewrite flat_voids_snoc, decide_False, app_nil_r in Hrun by (rewrite Hnull; done).
      rewrite length_app, Nat.add_1_r in Hrun, Hge, Hmem.
      rewrite <- !app_assoc in Hrun. cbn [app] in Hrun.
      exists (length pre :: deleted'). split_and!.
      * exact Hrun.
      * constructor; [done|]. rewrite Forall_forall. intros d Hd. specialize (Hge d Hd). lia.
      * intros d [->|Hd]%elem_of_cons; [cbn [length]; lia|].
        specialize (Hge d Hd). cbn [length]. lia.
      * intros [|j] y Hj; simplify_eq/=.
        -- rewrite Nat.add_0_r. rewrite Hnull. split; [done|]. intros _. set_solver.
        -- rewrite <- (Hmem j y Hj).
           replace (length pre + S j)%nat with (S (length pre) + j)%nat by lia.
           rewrite elem_of_cons. split; [|by right]. intros [Heq|?]; [lia|done].
    + destruct (IH (pre ++ [x]) deleted Hal' Hres') as (deleted' & Hrun & Hs & Hge & Hmem).
      rewrite flat_voids_snoc, decide_True in Hrun by (rewrite Hnull; done).
      rewrite length_app, Nat.add_1_r in Hrun, Hge, Hmem.
      rewrite <- !app_assoc in Hrun. cbn [app] in Hrun.
      rewrite apply_cells_snoc in Hrun. rewrite length_app, Nat.add_1_r in Hrun.
      set (n := length (flat_voids hs pre)) in *.
      assert (Hcm : is_Some (new_comment idLabel (labelled c n o))).
      { apply (new_comment_is_Some_frozen _ _ m); [by rewrite frozen_labelled|].
        apply (Hres x); [|done]. unfold flat_voids. rewrite filter_cons, decide_True; [set_solver|].
        by rewrite Hnull. }
      destruct Hcm as [cm Hcm].
      replace (c + Z.of_nat n + 1) with (c + 1 + Z.of_nat n) by lia.
      change (set_label (c + 1 + Z.of_nat n) o) with (labelled c n o).
      rewrite (update_comment_Some _ _ _ (labelled c n o) cm);
        [|by rewrite lookup_insert_eq|done].
      cbn [mbind res_bind]. rewrite insert_insert_eq.
      exists deleted'. split_and!.
      * rewrite <- Hrun. f_equal.
        rewrite (insert_as_alter _ _ _ (λ o, set_Comments cm (labelled c n o)) Ho).
        replace (c + Z.of_nat (S n)) with (c + 1 + Z.of_nat n) by lia.
        match goal with
        | |- (?a, _, _) = (?b, _, _) => assert (Heq : a = b); [|by rewrite Heq]
        end.
        apply map_eq. intros r. destruct (decide (x = r)) as [->|Hne].
        -- rewrite !lookup_alter_eq, Ho. cbn. unfold labelled_void. by rewrite Hcm.
        -- by rewrite !lookup_alter_ne.
      * done.
      * intros d Hd. specialize (Hge d Hd). cbn [length]. lia.
      * intros [|j] y Hj; simplify_eq/=.
        -- rewrite Nat.add_0_r. rewrite Hnull. split; [|done].
           intros Hd. specialize (Hge _ Hd). lia.
        -- rewrite <- (Hmem j y Hj).
           by replace (length pre + S j)%nat with (S (length pre) + j)%nat by lia.
Qed.

Lemma delete_reversed_filter {A} (P : A → Prop) `{∀ x, Decision (P x)}
    (l : list A) (deleted : list nat) :
  StronglySorted lt deleted →
  (∀ d, d ∈ deleted → (d < length l)%nat) →
  (∀ (j : nat) x, l !! j = Some x → (j ∈ deleted ↔ ¬ P x)) →
  delete_reversed l deleted = Ok (filter P l).
Proof.
  intros Hs Hr Hmem. unfold delete_reversed.
  rewrite foldM_py_del_descending.
  - f_equal. rewrite without_positions_wp. apply wp_from_filter.
    intros j x Hj. rewrite <- (Hmem j x Hj). cbn [Nat.add].
    rewrite list_elem_of_fmap. split.
    + intros (d & Hd & Hin). apply Nat2Z.inj in Hd as <-. by apply elem_of_reverse.
    + intros Hin. exists j. split; [done|]. by apply elem_of_reverse.
  - apply (StronglySorted_fmap _ (flip lt)).
    + intros x y. unfold flip. lia.
    + by apply StronglySorted_reverse.
  - intros d (n & -> & Hn)%list_elem_of_fmap. rewrite elem_of_reverse in Hn.
    specialize (Hr n Hn). lia.
Qed.

Lemma filter_ext_in {A} (P Q : A → Prop) `{∀ x, Decision (P x)} `{∀ x, Decision (Q x)}
    (l : list A) :
  (∀ x, x ∈ l → (P x ↔ Q x)) → filter P l = filter Q l.
Proof.
  induction l as [|x l IH]; intros Hpq; [done|].
  rewrite !filter_cons. rewrite IH by (intros y Hy; apply Hpq; set_solver).
  destruct (decide (P x)) as [HP|HP].
  - rewrite decide_True; [done|]. apply Hpq; [set_solver|done].
  - rewrite decide_False; [done|]. intros HQ. apply HP, Hpq; [set_solver|done].
Qed.

End FlatProofs.

(** ** Numbering: the flat branch as a whole *)

Section FlatSpec.
Context `{KT : KernelTypes} `{C : !Collaborators}.
Implicit Types (h : heap).

Lemma fresh_not_allocated h r : is_Some (h !! r) → r ≠ fresh (dom h).
Proof. intros Hs ->. apply (is_fresh (dom h)). by apply elem_of_dom. Qed.

(** The store the second loop of the flat branch starts from. *)
Lemma flat_start_frozen h0 c kept text r o :
  is_Some (h0 !! r) →
  <[fresh (dom h0) := comment_cell text]> (apply_cells (labelled c) kept h0) !! r = Some o →
  ∃ m, h0 !! r = Some m ∧ frozen o = frozen m.
Proof.
  intros Hs Ho. rewrite lookup_insert_ne in Ho by (symmetry; by apply fresh_not_allocated).
  by apply (apply_cells_frozen _ _ _ _ _ (frozen_labelled c)) in Ho.
Qed.

Lemma number_flat_run (ml mv : list ref) (c : Z) (h0 : heap) :
  let kept := flat_solids h0 ml in
  let keptv := flat_voids h0 mv in
  let idLabel := record_labels h0 c kept in
  let mc := fresh (dom h0) in
  allocated h0 (ml ++ mv) →
  (∀ r o, r ∈ keptv → h0 !! r = Some o → is_Some (new_comment idLabel o)) →
  number_flat ml mv c h0 =
    Ok (kept ++ [mc] ++ keptv,
        apply_cells (labelled_void idLabel (c + Z.of_nat (length kept))) keptv
          (<[mc := comment_cell void_cells_banner]> (apply_cells (labelled c) kept h0))).
Proof.
  intros kept keptv idLabel mc Hal Hres.
  assert (Hal1 : allocated h0 ml) by (intros r Hr; apply Hal; set_solver).
  assert (Hal2 : allocated h0 mv) by (intros r Hr; apply Hal; set_solver).
  unfold number_flat.
  (* first loop *)
  destruct (flat_solid_loop h0 c ml [] [] Hal1) as (deleted & Hrun & Hs & Hge & Hmem).
  change (flat_solids h0 []) with (@nil ref) in Hrun.
  rewrite apply_cells_nil, record_labels_nil in Hrun.
  cbn [length app] in Hrun, Hge, Hmem. rewrite Z.add_0_r in Hrun.
  unfold enumerate. rewrite Hrun. cbn [mbind res_bind].
  rewrite (delete_reversed_filter (λ r, is_null h0 r || is_enclosure h0 r = false));
    [|done|intros d Hd; specialize (Hge d Hd); lia|done].
  cbn [mbind res_bind]. fold (flat_solids h0 ml). fold kept.
  (* the comment cell *)
  unfold new_comment_cell. rewrite apply_cells_dom. fold mc. fold (comment_cell void_cells_banner).
  set (hs := <[mc := comment_cell void_cells_banner]> (apply_cells (labelled c) kept h0)).
  assert (Hfr : ∀ r o, is_Some (h0 !! r) → hs !! r = Some o →
                       ∃ m, h0 !! r = Some m ∧ frozen o = frozen m).
  { intros r o. apply flat_start_frozen. }
  assert (Hals : allocated hs mv).
  { intros r Hr. unfold hs. rewrite lookup_insert_ne
      by (symmetry; apply fresh_not_allocated, Hal2, Hr).
    apply apply_cells_is_Some, Hal2, Hr. }
  assert (Hvoids : flat_voids hs mv = keptv).
  { apply filter_ext_in. intros r Hr. destruct (Hals r Hr) as [o Ho].
    destruct (Hfr r o (Hal2 r Hr) Ho) as (m & Hm & Hf).
    rewrite (is_null_frozen _ _ _ _ _ Ho Ho eq_refl).
    by rewrite (is_null_frozen _ _ _ _ _ Ho Hm Hf). }
  (* second loop *)
  destruct (flat_void_loop hs idLabel (c + Z.of_nat (length kept)) mv [] [] Hals)
    as (deleted2 & Hrun2 & Hs2 & Hge2 & Hmem2).
  { intros r o Hr Ho. rewrite Hvoids in Hr.
    assert (Hrs : is_Some (h0 !! r)).
    { apply Hal2. unfold keptv, flat_voids in Hr. by apply list_elem_of_filter in Hr as [_ ?]. }
    destruct (Hfr r o Hrs Ho) as (m & Hm & Hf).
    eapply new_comment_is_Some_frozen; [done|]. by eapply Hres. }
  change (flat_voids hs []) with (@nil ref) in Hrun2.
  rewrite apply_cells_nil in Hrun2.
  cbn [length app] in Hrun2, Hge2, Hmem2. rewrite Z.add_0_r in Hrun2.
  fold idLabel. rewrite Hrun2. cbn [mbind res_bind].
  rewrite (delete_reversed_filter (λ r, is_null hs r = false));
    [|done|intros d Hd; specialize (Hge2 d Hd); lia|done].
  cbn [mbind res_bind]. fold (flat_voids hs mv). rewrite Hvoids.
  by rewrite <- app_assoc.
Qed.

End FlatSpec.

(** ** Numbering: the loops of [sort_enclosure] *)

Section SortProofs.
Context `{KT : KernelTypes} `{C : !Collaborators}.
Implicit Types (h : heap).

(** *** Grouping the void cells *)

Lemma void_group_cons h x l k :
  void_group h (x :: l) k =
    (if decide (EnclosureID <$> h !! x = Some k) then [x] else []) ++ void_group h l k.
Proof. unfold void_group. rewrite filter_cons. by destruct (decide _). Qed.

Lemma group_loop (h0 : heap) (mv : list ref) : ∀ (acc : gmap Z (list ref)),
  allocated h0 mv →
  ∃ G : gmap Z (list ref),
    foldM (group_step h0) acc mv = Ok G
    ∧ ∀ k, G !! k = if decide (void_group h0 mv k = []) then acc !! k
                    else Some (default [] (acc !! k) ++ void_group h0 mv k).
Proof.
  induction mv as [|x mv IH]; intros acc Hal.
  - exists acc. split; [done|]. intros k. by rewrite decide_True.
  - destruct (Hal x) as [o Ho]; [set_solver|].
    assert (Hal' : allocated h0 mv) by (intros r Hr; apply Hal; set_solver).
    cbn [foldM]. unfold group_step at 2. rewrite (deref_Some _ _ _ Ho). cbn [mbind res_bind].
    set (acc' := <[EnclosureID o := default [] (acc !! EnclosureID o) ++ [x]]> acc).
    assert (Hstep : match acc !! EnclosureID o with
                    | Some l => Ok (<[EnclosureID o:=l ++ [x]]> acc)
                    | None => Ok (<[EnclosureID o:=[x]]> acc)
                    end = Ok acc').
    { unfold acc'. by destruct (acc !! EnclosureID o). }
    rewrite Hstep. cbn [mbind res_bind].
    destruct (IH acc' Hal') as (G & Hrun & HG). exists G. split; [done|].
    intros k. rewrite HG, void_group_cons, Ho. cbn [fmap option_fmap option_map].
    unfold acc'. destruct (decide (EnclosureID o = k)) as [<-|Hne].
    + rewrite lookup_insert_eq.
      rewrite (decide_True (P := Some (EnclosureID o) = Some (EnclosureID o))) by done.
      cbn [default].
      rewrite (decide_False (P := [x] ++ void_group h0 mv (EnclosureID o) = [])) by done.
      destruct (decide (void_group h0 mv (EnclosureID o) = [])) as [->|_].
      * unfold id. by rewrite app_nil_r.
      * unfold id. by rewrite <- app_assoc.
    + rewrite lookup_insert_ne by done.
      rewrite (decide_False (P := Some (EnclosureID o) = Some k)) by congruence. done.
Qed.

Lemma group_loop_getitem (h0 : heap) (mv : list ref) (G : gmap Z (list ref)) k :
  (∀ k, G !! k = if decide (void_group h0 mv k = []) then (∅ : gmap Z (list ref)) !! k
                 else Some (default [] ((∅ : gmap Z (list ref)) !! k) ++ void_group h0 mv k)) →
  void_group h0 mv k ≠ [] →
  py_getitem G k = Ok (void_group h0 mv k).
Proof.
  intros HG Hne. unfold py_getitem. rewrite HG, decide_False by done.
  by rewrite lookup_empty.
Qed.

(** *** The labelling loops *)

Lemma numbering_inv_deref h0 c done h icount idLabel newMeta r m :
  numbering_inv h0 c done (h, icount, idLabel, newMeta) →
  h0 !! r = Some m →
  ∃ o, h !! r = Some o ∧ frozen o = frozen m.
Proof.
  intros (_ & _ & Hag & _) Hm.
  destruct (apply_cells_is_Some (labelled c) done h0 r) as [o Ho]; [by eexists|].
  exists o. split; [by rewrite Hag by (by eexists)|].
  destruct (apply_cells_frozen _ _ _ _ _ (frozen_labelled c) Ho) as (m' & Hm' & Hf).
  assert (m' = m) as -> by congruence. done.
Qed.

Lemma numbering_inv_label h0 c done h icount idLabel newMeta r m o :
  numbering_inv h0 c done (h, icount, idLabel, newMeta) →
  h0 !! r = Some m → h !! r = Some o →
  numbering_inv h0 c (done ++ [r])
    (<[r := set_label (icount + 1) o]> h, icount + 1,
     <[__id__ (set_label (icount + 1) o) := icount + 1]> idLabel, newMeta ++ [r]).
Proof.
  intros Hinv Hm Ho.
  destruct (numbering_inv_deref _ _ _ _ _ _ _ _ _ Hinv Hm) as (o' & Ho' & Hf).
  assert (o' = o) as -> by congruence.
  destruct Hinv as (-> & -> & Hag & Hcells & Hcom).
  split_and!.
  - rewrite length_app. cbn [length]. lia.
  - rewrite (record_labels_snoc _ _ _ _ _ Hm). cbn [__id__ set_label].
    f_equal; [unfold frozen in Hf; congruence|lia].
  - intros r' Hr'. rewrite apply_cells_snoc. destruct (decide (r = r')) as [<-|Hne].
    + rewrite lookup_insert_eq, lookup_alter_eq, <- Hag, Ho by done. cbn.
      unfold labelled. do 2 f_equal. lia.
    + rewrite lookup_insert_ne, lookup_alter_ne by done. by apply Hag.
  - rewrite filter_app, filter_cons, filter_nil, decide_True by (by eexists).
    by rewrite Hcells.
  - intros r' [Hr'|Hr']%elem_of_app Hnone.
    + assert (r ≠ r') by (intros ->; congruence).
      rewrite lookup_insert_ne by done. by apply Hcom.
    + apply list_elem_of_singleton in Hr' as ->. congruence.
Qed.

Lemma numbering_inv_alloc h0 c done h icount idLabel newMeta text :
  numbering_inv h0 c done (h, icount, idLabel, newMeta) →
  numbering_inv h0 c done
    (<[fresh (dom h) := comment_cell text]> h, icount, idLabel, newMeta ++ [fresh (dom h)]).
Proof.
  intros Hinv.
  assert (Hfresh : h0 !! fresh (dom h) = None).
  { destruct (h0 !! fresh (dom h)) as [m|] eqn:Hm; [|done].
    destruct (numbering_inv_deref _ _ _ _ _ _ _ _ _ Hinv Hm) as (o & Ho & _).
    exfalso. apply (is_fresh (dom h)). apply elem_of_dom. by eexists. }
  destruct Hinv as (-> & -> & Hag & Hcells & Hcom).
  split_and!; [done|done| | |].
  - intros r Hr. rewrite lookup_insert_ne; [by apply Hag|].
    intros <-. rewrite Hfresh in Hr. by destruct Hr.
  - rewrite filter_app, filter_cons, filter_nil, decide_False, app_nil_r; [done|].
    rewrite Hfresh. by intros [??].
  - intros r [Hr|Hr]%elem_of_app Hnone.
    + destruct (decide (fresh (dom h) = r)) as [<-|Hne].
      * rewrite lookup_insert_eq. by eexists.
      * rewrite lookup_insert_ne by done. by apply Hcom.
    + apply list_elem_of_singleton in Hr as ->. rewrite lookup_insert_eq. by eexists.
Qed.

Lemma label_void_loop h0 c (grp : list ref) : ∀ done (st : numbering),
  numbering_inv h0 c done st → allocated h0 grp →
  ∃ st', foldM label_void_step st grp = Ok st'
         ∧ numbering_inv h0 c (done ++ flat_voids h0 grp) st'.
Proof.
  induction grp as [|e grp IH]; intros done st Hinv Hal.
  - exists st. split; [done|]. by rewrite app_nil_r.
  - destruct st as [[[h icount] idLabel] newMeta].
    destruct (Hal e) as [m Hm]; [set_solver|].
    destruct (numbering_inv_deref _ _ _ _ _ _ _ _ _ Hinv Hm) as (o & Ho & Hf).
    assert (Hal' : allocated h0 grp) by (intros r Hr; apply Hal; set_solver).
    cbn [foldM]. unfold label_void_step at 2.
    rewrite (deref_Some _ _ _ Ho). cbn [mbind res_bind].
    unfold flat_voids. rewrite filter_cons. fold (flat_voids h0 grp).
    rewrite (is_null_frozen _ _ _ _ _ Ho Hm Hf).
    destruct (NullCell o) eqn:Hnull.
    + rewrite decide_False by done. cbn [mbind res_bind]. by apply IH.
    + rewrite decide_True by done. cbn [mbind res_bind].
      destruct (IH (done ++ [e]) _ (numbering_inv_label _ _ _ _ _ _ _ _ _ _ Hinv Hm Ho) Hal')
        as (st' & Hrun & Hinv').
      exists st'. split; [done|]. by rewrite <- app_assoc in Hinv'.
Qed.

Lemma void_group_allocated h0 mv k : allocated h0 mv → allocated h0 (void_group h0 mv k).
Proof. intros Hal r Hr. apply Hal. unfold void_group in Hr. by apply list_elem_of_filter in Hr as [_ ?]. Qed.

Lemma sort_main_loop h0 c mv (G : gmap Z (list ref)) (ml : list ref) :
  ∀ done (st : numbering),
  (∀ k, void_group h0 mv k ≠ [] → py_getitem G k = Ok (void_group h0 mv k)) →
  numbering_inv h0 c done st → allocated h0 ml → allocated h0 mv →
  (∀ m o, m ∈ ml → h0 !! m = Some o → NullCell o = false → IsEnclosure o = true →
          void_group h0 mv (EnclosureID o) ≠ []) →
  ∃ st', foldM (sort_enclosure_step G) st ml = Ok st'
         ∧ numbering_inv h0 c (done ++ (ml ≫= emitted_for h0 mv)) st'.
Proof.
  induction ml as [|m ml IH]; intros done st HG Hinv Hal Halv Hgrp.
  - exists st. split; [done|]. by rewrite app_nil_r.
  - destruct st as [[[h icount] idLabel] newMeta].
    destruct (Hal m) as [m0 Hm0]; [set_solver|].
    destruct (numbering_inv_deref _ _ _ _ _ _ _ _ _ Hinv Hm0) as (o & Ho & Hf).
    assert (Hal' : allocated h0 ml) by (intros r Hr; apply Hal; set_solver).
    assert (Hgrp' : ∀ m o, m ∈ ml → h0 !! m = Some o → NullCell o = false →
                           IsEnclosure o = true → void_group h0 mv (EnclosureID o) ≠ []).
    { intros m' o' Hm'. apply Hgrp. set_solver. }
    assert (HN : NullCell o = NullCell m0) by (unfold frozen in Hf; congruence).
    assert (HE : IsEnclosure o = IsEnclosure m0) by (unfold frozen in Hf; congruence).
    assert (HI : EnclosureID o = EnclosureID m0) by (unfold frozen in Hf; congruence).
    cbn [foldM]. unfold sort_enclosure_step at 2.
    rewrite (deref_Some _ _ _ Ho). cbn [mbind res_bind].
    rewrite bind_cons. unfold emitted_for at 1. rewrite Hm0, <- HN, <- HE, <- HI.
    destruct (NullCell o) eqn:Hnull.
    + cbn [mbind res_bind app]. by apply IH.
    + destruct (IsEnclosure o) eqn:Hencl.
      * (* an enclosure: banner, its void cells, closing banner *)
        unfold new_comment_cell at 1. fold (comment_cell (enclosure_banner (EnclosureID o))).
        pose proof (numbering_inv_alloc _ _ _ _ _ _ _ (enclosure_banner (EnclosureID o)) Hinv)
          as Hinv1.
        rewrite (HG (EnclosureID o)) by (rewrite HI; apply (Hgrp m m0); [set_solver|done|congruence..]).
        cbn [mbind res_bind].
        destruct (label_void_loop h0 c (void_group h0 mv (EnclosureID o)) _ _ Hinv1)
          as (st1 & Hrun1 & Hinv2); [by apply void_group_allocated|].
        rewrite Hrun1. cbn [mbind res_bind].
        destruct st1 as [[[h1 icount1] idLabel1] newMeta1].
        unfold new_comment_cell. fold (comment_cell (end_enclosure_banner (EnclosureID o))).
        pose proof (numbering_inv_alloc _ _ _ _ _ _ _ (end_enclosure_banner (EnclosureID o)) Hinv2)
          as Hinv3.
        destruct (IH _ _ HG Hinv3 Hal' Halv Hgrp') as (st' & Hrun & Hinv').
        exists st'. split; [done|]. by rewrite <- app_assoc in Hinv'.
      * (* a solid cell *)
        pose proof (numbering_inv_label _ _ _ _ _ _ _ _ _ _ Hinv Hm0 Ho) as Hinv1.
        destruct (IH _ _ HG Hinv1 Hal' Halv Hgrp') as (st' & Hrun & Hinv').
        exists st'. split; [done|]. by rewrite <- app_assoc in Hinv'.
Qed.

(** *** The last loop: comments *)

Lemma sorted_comment_idem idLabel o cm :
  sorted_comment idLabel o = Some cm →
  sorted_comment idLabel (set_Comments cm o) = Some cm.
Proof.
  unfold sorted_comment, new_comment. cbn [Void IsEnclosure __commentInfo__ Comments set_Comments].
  destruct (Void o && negb (IsEnclosure o)); [|by intros _].
  destruct (__commentInfo__ o) as [[box [ids|]]|]; [done|by intros _..].
Qed.

Lemma update_comments_step_Some idLabel h r o cm :
  h !! r = Some o → sorted_comment idLabel o = Some cm →
  update_comments_step idLabel h r = Ok (<[r := set_Comments cm o]> h).
Proof.
  intros Ho Hcm. unfold update_comments_step, sorted_comment in *.
  rewrite (deref_Some _ _ _ Ho). cbn [mbind res_bind].
  destruct (Void o); cbn [negb andb] in *.
  - destruct (IsEnclosure o); cbn [negb] in *.
    + simplify_eq. by rewrite set_Comments_same, insert_id.
    + by apply update_comment_Some.
  - simplify_eq. by rewrite set_Comments_same, insert_id.
Qed.

Lemma update_comments_loop idLabel (L : list ref) : ∀ h,
  (∀ r, r ∈ L → ∃ o, h !! r = Some o ∧ is_Some (sorted_comment idLabel o)) →
  ∃ h2 : heap,
    foldM (update_comments_step idLabel) h L = Ok h2
    ∧ ∀ r, h2 !! r = if decide (r ∈ L) then h !! r ≫= commented idLabel else h !! r.
Proof.
  induction L as [|x L IH]; intros h Hall.
  - exists h. split; [done|]. intros r. rewrite decide_False; [done|]. apply not_elem_of_nil.
  - destruct (Hall x) as (o & Ho & cm & Hcm); [set_solver|].
    cbn [foldM]. rewrite (update_comments_step_Some _ _ _ _ _ Ho Hcm). cbn [mbind res_bind].
    destruct (IH (<[x := set_Comments cm o]> h)) as (h2 & Hrun & Hh2).
    { intros r Hr. destruct (decide (x = r)) as [<-|Hne].
      - rewrite lookup_insert_eq. eexists. split; [done|].
        rewrite (sorted_comment_idem _ _ _ Hcm). by eexists.
      - rewrite lookup_insert_ne by done. apply Hall. set_solver. }
    exists h2. split; [done|]. intros r. rewrite Hh2.
    destruct (decide (x = r)) as [<-|Hne].
    + rewrite lookup_insert_eq, Ho. cbn. unfold commented.
      rewrite (sorted_comment_idem _ _ _ Hcm), Hcm. cbn.
      rewrite (decide_True (P := x ∈ x :: L)) by set_solver.
      by destruct (decide (x ∈ L)).
    + rewrite lookup_insert_ne by done.
      destruct (decide (r ∈ L)) as [Hin|Hout].
      * rewrite decide_True by set_solver. done.
      * rewrite decide_False; [done|]. set_solver.
Qed.

End SortProofs.

(** ** Numbering: [sort_enclosure] as a whole *)

Section SortSpec.
Context `{KT : KernelTypes} `{C : !Collaborators}.
Implicit Types (h : heap).

Lemma sorted_comment_is_Some_frozen idLabel o m :
  frozen o = frozen m → is_Some (sorted_comment idLabel m) → is_Some (sorted_comment idLabel o).
Proof.
  intros Hf. unfold sorted_comment.
  assert (Void o = Void m) as -> by (unfold frozen in Hf; congruence).
  assert (IsEnclosure o = IsEnclosure m) as -> by (unfold frozen in Hf; congruence).
  destruct (Void m && negb (IsEnclosure m)); [|eauto].
  by apply new_comment_is_Some_frozen.
Qed.

Lemma numbering_inv_init h0 c : numbering_inv h0 c [] (h0, c, {[0 := 0]}, []).
Proof.
  split_and!; [cbn; lia|done|done|done|].
  intros r Hr. by apply elem_of_nil in Hr.
Qed.

Lemma sort_enclosure_run (ml mv : list ref) (c : Z) (h0 : heap) :
  let cells := sorted_cells h0 ml mv in
  let idLabel := record_labels h0 c cells in
  allocated h0 (ml ++ mv) →
  (∀ m o, m ∈ ml → h0 !! m = Some o → NullCell o = false → IsEnclosure o = true →
          void_group h0 mv (EnclosureID o) ≠ []) →
  void_group h0 mv 0 ≠ [] →
  Void (GeounedSolid_init None) = false →
  (∀ r o, r ∈ cells → h0 !! r = Some o → is_Some (sorted_comment idLabel o)) →
  ∃ out (h' : heap),
    sort_enclosure ml mv c h0 = Ok (out, h')
    ∧ filter (λ r, is_Some (h0 !! r)) out = cells
    ∧ (∀ r, r ∈ out → h0 !! r = None → ∃ text, h' !! r = Some (comment_cell text))
    ∧ (∀ r, is_Some (h0 !! r) →
         h' !! r = if decide (r ∈ cells)
                   then apply_cells (labelled c) cells h0 !! r ≫= commented idLabel
                   else h0 !! r).
Proof.
  intros cells idLabel Hal Hgrp Hgrp0 Hblank Hres.
  assert (Hal1 : allocated h0 ml) by (intros r Hr; apply Hal; set_solver).
  assert (Hal2 : allocated h0 mv) by (intros r Hr; apply Hal; set_solver).
  unfold sort_enclosure.
  destruct (group_loop h0 mv ∅ Hal2) as (G & HrunG & HG).
  rewrite HrunG. cbn [mbind res_bind].
  assert (HG' : ∀ k, void_group h0 mv k ≠ [] → py_getitem G k = Ok (void_group h0 mv k)).
  { intros k. by apply group_loop_getitem. }
  destruct (sort_main_loop h0 c mv G ml [] _ HG' (numbering_inv_init h0 c) Hal1 Hal2 Hgrp)
    as (st1 & Hrun1 & Hinv1).
  rewrite Hrun1. cbn [mbind res_bind app] in *.
  destruct st1 as [[[h1 icount1] idLabel1] newMeta1].
  unfold new_comment_cell. fold (comment_cell void_cells_banner_sorted).
  pose proof (numbering_inv_alloc _ _ _ _ _ _ _ void_cells_banner_sorted Hinv1) as Hinv2.
  rewrite (HG' 0 Hgrp0). cbn [mbind res_bind].
  destruct (label_void_loop h0 c (void_group h0 mv 0) _ _ Hinv2) as (st3 & Hrun3 & Hinv3);
    [by apply void_group_allocated|].
  rewrite Hrun3. cbn [mbind res_bind].
  destruct st3 as [[[h3 icount3] idLabel3] newMeta3].
  fold (sorted_cells h0 ml mv) in Hinv3. fold cells in Hinv3.
  destruct Hinv3 as (Hic & -> & Hag & Hcells & Hcom). fold idLabel.
  destruct (update_comments_loop idLabel newMeta3 h3) as (h4 & Hrun4 & Hh4).
  { intros r Hr. destruct (h0 !! r) as [m|] eqn:Hm.
    - destruct (apply_cells_is_Some (labelled c) cells h0 r) as [o Ho]; [by eexists|].
      exists o. split; [by rewrite Hag by (by eexists)|].
      destruct (apply_cells_frozen _ _ _ _ _ (frozen_labelled c) Ho) as (m' & Hm' & Hf).
      assert (m' = m) as -> by congruence.
      apply (sorted_comment_is_Some_frozen _ _ m Hf). apply (Hres r); [|done].
      rewrite <- Hcells. apply list_elem_of_filter. split; [by eexists|done].
    - destruct (Hcom r Hr Hm) as [text Ht]. exists (comment_cell text). split; [done|].
      unfold sorted_comment, comment_cell. cbn [Void set_Comments]. rewrite Hblank. by eexists. }
  rewrite Hrun4. cbn [mbind res_bind].
  exists newMeta3, h4. split_and!; [done|done| |].
  - intros r Hr Hnone. destruct (Hcom r Hr Hnone) as [text Ht]. exists text.
    rewrite Hh4, decide_True, Ht by done. cbn. unfold commented, sorted_comment, comment_cell.
    cbn [Void set_Comments]. rewrite Hblank. done.
  - intros r Hr. rewrite Hh4, (Hag r Hr).
    destruct (decide (r ∈ cells)) as [Hin|Hout].
    + rewrite decide_True; [done|]. rewrite <- Hcells in Hin.
      by apply list_elem_of_filter in Hin as [_ ?].
    + rewrite decide_False.
      * by apply apply_cells_notin.
      * intros Hin. apply Hout. rewrite <- Hcells. by apply list_elem_of_filter.
Qed.

End SortSpec.

(** ** Numbering: what each cell holds in the end *)

Section NumberingTheorems.
Context `{KT : KernelTypes} `{C : !Collaborators}.
Implicit Types (h : heap).

Lemma labels_consecutive h (c : Z) (cells : list ref) :
  (∀ (k : nat) r, cells !! k = Some r → h !! r ≫= label = Some (c + 1 + Z.of_nat k)) →
  labels_of h cells = Some <$> seqZ (c + 1) (Z.of_nat (length cells)).
Proof.
  intros Hk. apply list_eq. intros k. unfold labels_of. rewrite !list_lookup_fmap.
  destruct (cells !! k) as [r|] eqn:Hr.
  - rewrite lookup_seqZ_lt by (apply lookup_lt_Some in Hr; lia). cbn.
    by rewrite (Hk k r Hr).
  - rewrite lookup_seqZ_ge; [done|]. apply lookup_ge_None in Hr. lia.
Qed.

Lemma is_null_sorted_cells h ml mv r :
  r ∈ sorted_cells h ml mv → is_null h r = false.
Proof.
  unfold sorted_cells. intros [Hr|Hr]%elem_of_app.
  - apply list_elem_of_bind in Hr as (m & Hr & Hm). unfold emitted_for in Hr.
    destruct (h !! m) as [o|] eqn:Ho; [|by apply elem_of_nil in Hr].
    destruct (NullCell o) eqn:Hn; [by apply elem_of_nil in Hr|].
    destruct (IsEnclosure o).
    + unfold flat_voids in Hr. by apply list_elem_of_filter in Hr as [? _].
    + apply list_elem_of_singleton in Hr as ->. unfold is_null. by rewrite Ho.
  - unfold flat_voids in Hr. by apply list_elem_of_filter in Hr as [? _].
Qed.

(** What the flat branch leaves in the store. *)
Lemma number_flat_pointwise (ml mv : list ref) (c : Z) (h0 : heap) :
  let kept := flat_solids h0 ml in
  let keptv := flat_voids h0 mv in
  let idLabel := record_labels h0 c kept in
  flat_ready h0 ml mv c →
  ∃ h' : heap,
    number_flat ml mv c h0 = Ok (kept ++ [fresh (dom h0)] ++ keptv, h')
    ∧ (∀ (k : nat) r m, kept !! k = Some r → h0 !! r = Some m →
         h' !! r = Some (labelled c k m))
    ∧ (∀ (k : nat) r m, keptv !! k = Some r → h0 !! r = Some m →
         h' !! r = Some (labelled_void idLabel (c + Z.of_nat (length kept)) k m))
    ∧ (∀ r, is_Some (h0 !! r) → r ∉ kept ++ keptv → h' !! r = h0 !! r).
Proof.
  intros kept keptv idLabel (Hal & Hnd & Hres).
  eexists. split; [by apply number_flat_run|].
  apply NoDup_app in Hnd as (Hnd1 & Hdisj & Hnd2).
  split_and!.
  - intros k r m Hk Hm.
    assert (Hrk : r ∈ kept) by (by eapply list_elem_of_lookup_2).
    rewrite apply_cells_notin by (by apply Hdisj).
    rewrite lookup_insert_ne by (symmetry; apply fresh_not_allocated; by eexists).
    by rewrite (apply_cells_lookup _ _ _ k), Hm.
  - intros k r m Hk Hm.
    assert (Hrk : r ∈ keptv) by (by eapply list_elem_of_lookup_2).
    rewrite (apply_cells_lookup _ _ _ k) by done.
    rewrite lookup_insert_ne by (symmetry; apply fresh_not_allocated; by eexists).
    rewrite apply_cells_notin, Hm; [done|]. intros Hin. by apply (Hdisj r).
  - intros r Hr Hnot.
    rewrite apply_cells_notin by set_solver.
    rewrite lookup_insert_ne by (symmetry; by apply fresh_not_allocated).
    apply apply_cells_notin. set_solver.
Qed.

(** What [sort_enclosure] leaves in the store. *)
Lemma sort_enclosure_pointwise (ml mv : list ref) (c : Z) (h0 : heap) :
  let cells := sorted_cells h0 ml mv in
  let idLabel := record_labels h0 c cells in
  sort_ready h0 ml mv c →
  ∃ out (h' : heap),
    sort_enclosure ml mv c h0 = Ok (out, h')
    ∧ filter (λ r, is_Some (h0 !! r)) out = cells
    ∧ (∀ r, r ∈ out → h0 !! r = None → ∃ text, h' !! r = Some (comment_cell text))
    ∧ (∀ (k : nat) r m cm, cells !! k = Some r → h0 !! r = Some m →
         sorted_comment idLabel m = Some cm →
         h' !! r = Some (set_Comments cm (labelled c k m)))
    ∧ (∀ r, is_Some (h0 !! r) → r ∉ cells → h' !! r = h0 !! r).
Proof.
  intros cells idLabel (Hal & Hnd & Hgrp & Hgrp0 & Hblank & Hres).
  destruct (sort_enclosure_run ml mv c h0 Hal Hgrp Hgrp0 Hblank Hres)
    as (out & h' & Hrun & Hout & Hcom & Hh').
  exists out, h'. split_and!; [done|done|done| |].
  - intros k r m cm Hk Hm Hcm.
    rewrite Hh' by (by eexists). fold cells. rewrite decide_True by (by eapply list_elem_of_lookup_2).
    rewrite (apply_cells_lookup _ _ _ k), Hm by done. cbn.
    unfold commented. change (sorted_comment (record_labels h0 c cells) (labelled c k m))
      with (sorted_comment idLabel m). by rewrite Hcm.
  - intros r Hr Hnot. rewrite Hh' by done. by rewrite decide_False.
Qed.

End NumberingTheorems.

(** ** Numbering: the identity-to-label map *)

Section NumberingClaims.
Context `{KT : KernelTypes} `{C : !Collaborators}.
Implicit Types (h : heap).

Lemma flat_solids_elem h ml r : r ∈ flat_solids h ml → r ∈ ml ∧ is_null h r = false.
Proof.
  unfold flat_solids. intros [Hf ?]%list_elem_of_filter. split; [done|].
  by apply orb_false_iff in Hf as [? _].
Qed.

Lemma flat_voids_elem h mv r : r ∈ flat_voids h mv → r ∈ mv ∧ is_null h r = false.
Proof. unfold flat_voids. by intros [? ?]%list_elem_of_filter. Qed.

Lemma sorted_cells_elem h ml mv r : r ∈ sorted_cells h ml mv → r ∈ ml ++ mv.
Proof.
  unfold sorted_cells. intros [Hr|Hr]%elem_of_app.
  - apply list_elem_of_bind in Hr as (m & Hr & Hm). unfold emitted_for in Hr.
    destruct (h !! m) as [o|]; [|by apply elem_of_nil in Hr].
    destruct (NullCell o); [by apply elem_of_nil in Hr|].
    destruct (IsEnclosure o).
    + apply flat_voids_elem in Hr as [Hr _]. unfold void_group in Hr.
      apply list_elem_of_filter in Hr as [_ Hr]. set_solver.
    + apply list_elem_of_singleton in Hr as ->. set_solver.
  - apply flat_voids_elem in Hr as [Hr _]. unfold void_group in Hr.
    apply list_elem_of_filter in Hr as [_ Hr]. set_solver.
Qed.

Lemma record_labels_snoc_None h c cells r :
  h !! r = None → record_labels h c (cells ++ [r]) = record_labels h c cells.
Proof. intros Ho. unfold record_labels. rewrite enumerate_snoc, foldl_app. cbn. by rewrite Ho. Qed.

(** [idLabel] sends the identity of a labelled cell to its label when
    no other labelled cell has this identity. *)
Lemma record_labels_lookup h c (cells : list ref) (k : nat) r m :
  NoDup cells → allocated h cells →
  cells !! k = Some r → h !! r = Some m →
  (∀ r' m', r' ∈ cells → h !! r' = Some m' → __id__ m' = __id__ m → r' = r) →
  record_labels h c cells !! __id__ m = Some (c + 1 + Z.of_nat k).
Proof.
  revert k. induction cells as [|x cells IH] using rev_ind; intros k Hnd Hal Hk Hm Huniq; [done|].
  apply NoDup_app in Hnd as (Hnd & Hdisj & _).
  destruct (Hal x) as [mx Hmx]; [set_solver|].
  rewrite (record_labels_snoc _ _ _ _ _ Hmx).
  apply lookup_snoc_Some in Hk as [[Hlt Hk]|[Hlen Heq]].
  - assert (Hrc : r ∈ cells) by (by eapply list_elem_of_lookup_2).
    assert (x ≠ r) by (intros ->; apply (Hdisj r Hrc); set_solver).
    rewrite lookup_insert_ne.
    + apply IH; [done|intros r' Hr'; apply Hal; set_solver|done|done|].
      intros r' m' Hr'. apply Huniq. set_solver.
    + intros Hid. apply H. apply (Huniq x mx); [set_solver|done|done].
  - subst k x. assert (mx = m) as -> by congruence. by rewrite lookup_insert_eq.
Qed.

End NumberingClaims.

(** ** Cone planes: the loop of [process_cones] *)

Section ConeProofs.
Context `{KT : KernelTypes} `{C : !Collaborators}.
Implicit Types (h : heap) (coneInfo : gmap Z (gset Z)).

(** The inner loop never raises; [cones] collects the opposites of the
    records of the identities that have one. *)
Lemma void_cones_loop coneInfo (ids : list Z) : ∀ (acc : gset Z),
  ∃ cones : gset Z,
    foldM (void_cones_step coneInfo) acc ids = Ok cones
    ∧ ∀ x, x ∈ cones ↔
           x ∈ acc ∨ ∃ Id s y, Id ∈ ids ∧ coneInfo !! Id = Some s ∧ y ∈ s ∧ x = - y.
Proof.
  induction ids as [|Id ids IH]; intros acc.
  - exists acc. split; [done|]. intros x. split; [by left|].
    intros [?|(Id & s & y & HId & _)]; [done|]. by apply elem_of_nil in HId.
  - cbn [foldM]. unfold void_cones_step at 2.
    destruct (coneInfo !! Id) as [s|] eqn:Hs.
    + rewrite bool_decide_eq_true_2 by (apply elem_of_dom; by eexists).
      rewrite (py_getitem_Some _ _ _ Hs). cbn [mbind res_bind].
      destruct (IH (acc ∪ set_map Z.opp s)) as (cones & Hrun & Hcones).
      exists cones. split; [done|]. intros x. rewrite Hcones, elem_of_union, elem_of_map.
      split.
      * intros [[?|(y & -> & Hy)]|(Id' & s' & y & HId' & Hs' & Hy & ->)].
        -- by left.
        -- right. exists Id, s, y. split_and!; [set_solver|done..].
        -- right. exists Id', s', y. split_and!; [set_solver|done..].
      * intros [?|(Id' & s' & y & [->|HId']%elem_of_cons & Hs' & Hy & ->)].
        -- by left; left.
        -- left; right. exists y. split; [done|]. congruence.
        -- right. by exists Id', s', y.
    + rewrite bool_decide_eq_false_2 by (by apply not_elem_of_dom).
      cbn [mbind res_bind].
      destruct (IH acc) as (cones & Hrun & Hcones).
      exists cones. split; [done|]. intros x. rewrite Hcones. split.
      * intros [?|(Id' & s' & y & HId' & Hs' & Hy & ->)]; [by left|].
        right. exists Id', s', y. split_and!; [set_solver|done..].
      * intros [?|(Id' & s' & y & [->|HId']%elem_of_cons & Hs' & Hy & ->)]; [by left| |].
        -- congruence.
        -- right. by exists Id', s', y.
Qed.

Lemma void_cones_spec coneInfo (ids : list Z) :
  ∃ cones : gset Z,
    void_cones coneInfo ids = Ok cones
    ∧ ∀ x, x ∈ cones ↔ ∃ Id s y, Id ∈ ids ∧ coneInfo !! Id = Some s ∧ y ∈ s ∧ x = - y.
Proof.
  destruct (void_cones_loop coneInfo ids ∅) as (cones & Hrun & Hcones).
  exists cones. split; [done|]. intros x. rewrite Hcones. set_solver.
Qed.

(** One step never raises on an allocated cell, and writes at most the
    definition of that cell. *)
Lemma process_cones_step_total coneInfo box h (Sf : SurfacesDict) m o :
  h !! m = Some o →
  ∃ d Sf', process_cones_step coneInfo box (h, Sf) m
           = Ok (<[m := set_Definition d o]> h, Sf').
Proof.
  intros Ho. unfold process_cones_step. rewrite (deref_Some _ _ _ Ho). cbn [mbind res_bind].
  assert (Hsame : ∃ d Sf', Ok (h, Sf) = Ok (<[m := set_Definition d o]> h, Sf')).
  { exists (Definition_ o), Sf. rewrite insert_id; [done|]. rewrite Ho. by destruct o. }
  destruct (bool_decide (__id__ o ∉ dom coneInfo)) eqn:Hid; destruct (Void o) eqn:Hv;
    cbn [andb negb]; try done.
  - destruct (__commentInfo__ o) as [[b [ids|]]|]; [|done..].
    destruct (void_cones_spec coneInfo ids) as (cones & -> & _). cbn [mbind res_bind].
    destruct (add_cone_plane _ _ _ _) as [d Sf']. by exists d, Sf'.
  - destruct (__commentInfo__ o) as [[b [ids|]]|]; [|done..].
    destruct (void_cones_spec coneInfo ids) as (cones & -> & _). cbn [mbind res_bind].
    destruct (add_cone_plane _ _ _ _) as [d Sf']. by exists d, Sf'.
  - apply bool_decide_eq_false in Hid. apply dec_stable in Hid.
    apply elem_of_dom in Hid as [s Hs]. rewrite (py_getitem_Some _ _ _ Hs).
    cbn [mbind res_bind]. destruct (add_cone_plane _ _ _ _) as [d Sf']. by exists d, Sf'.
Qed.

(** The loop runs to its end; every cell keeps all but its definition,
    and a cell that no step rewrites is untouched. *)
Lemma process_cones_loop coneInfo box (l : list ref) : ∀ h (Sf : SurfacesDict),
  allocated h l →
  ∃ (h' : heap) Sf',
    foldM (process_cones_step coneInfo box) (h, Sf) l = Ok (h', Sf')
    ∧ (∀ r o, h !! r = Some o → ∃ d, h' !! r = Some (set_Definition d o))
    ∧ (∀ r, r ∉ l → h' !! r = h !! r).
Proof.
  induction l as [|m l IH]; intros h Sf Hal.
  - exists h, Sf. split_and!; [done| |done].
    intros r o Ho. exists (Definition_ o). rewrite Ho. by destruct o.
  - destruct (Hal m) as [o Ho]; [set_solver|].
    destruct (process_cones_step_total coneInfo box h Sf m o Ho) as (d & Sf1 & Hstep).
    cbn [foldM]. rewrite Hstep. cbn [mbind res_bind].
    destruct (IH (<[m := set_Definition d o]> h) Sf1) as (h' & Sf' & Hrun & Hkeep & Hout).
    { intros r Hr. destruct (decide (m = r)) as [<-|Hne].
      - rewrite lookup_insert_eq. by eexists.
      - rewrite lookup_insert_ne by done. apply Hal. set_solver. }
    exists h', Sf'. split_and!; [done| |].
    + intros r o' Ho'. destruct (decide (m = r)) as [<-|Hne].
      * assert (o' = o) as -> by congruence.
        destruct (Hkeep m (set_Definition d o)) as [d' Hd']; [by rewrite lookup_insert_eq|].
        exists d'. by rewrite Hd'.
      * apply Hkeep. by rewrite lookup_insert_ne.
    + intros r Hr. rewrite Hout by set_solver. rewrite lookup_insert_ne; [done|set_solver].
Qed.

End ConeProofs.

(** ** The trace of a run *)

Lemma bind_Ok_inv {A B} (m : res A) (f : A → res B) b :
  m ≫= f = Ok b → ∃ a, m = Ok a ∧ f a = Ok b.
Proof. destruct m as [a|e]; [|done]. intros H. by exists a. Qed.

Lemma foldM_app {A S} (f : S → A → res S) (s : S) (l1 l2 : list A) :
  foldM f s (l1 ++ l2) = foldM f s l1 ≫= λ s', foldM f s' l2.
Proof.
  revert s. induction l1 as [|x l1 IH]; intros s; [done|].
  cbn [app foldM]. destruct (f s x) as [s'|e]; [|done]. cbn [mbind res_bind]. apply IH.
Qed.

Section TraceProofs.
Context `{KT : KernelTypes} `{C : !Collaborators}.

Lemma appends_refl lo hi self self' :
  trace self' = trace self → appends lo hi self self'.
Proof. intros Ht. exists []. rewrite app_nil_r. split_and!; [done|constructor|constructor]. Qed.

Lemma appends_log k e self self' :
  trace self' = trace self → stage e = k → appends k k self (log e self').
Proof.
  intros Ht Hk. exists [e]. cbn [trace log]. rewrite Ht.
  split_and!; [done|repeat constructor|]. repeat constructor; lia.
Qed.

Lemma appends_trans a b c self1 self2 self3 :
  (a ≤ b)%nat → (b ≤ c)%nat →
  appends a b self1 self2 → appends b c self2 self3 → appends a c self1 self3.
Proof.
  intros Hab Hbc (evs1 & Ht1 & Hs1 & Hf1) (evs2 & Ht2 & Hs2 & Hf2).
  exists (evs1 ++ evs2). rewrite Forall_forall in Hf1, Hf2. split_and!.
  - by rewrite Ht2, Ht1, app_assoc.
  - apply StronglySorted_app_2; [|done|done].
    intros e1 e2 He1 He2. specialize (Hf1 e1 He1). specialize (Hf2 e2 He2).
    unfold stage_le. lia.
  - rewrite Forall_forall. intros e [He|He]%elem_of_app.
    + specialize (Hf1 e He). lia.
    + specialize (Hf2 e He). lia.
Qed.

Lemma appends_weaken lo hi lo' hi' self self' :
  (lo' ≤ lo)%nat → (hi ≤ hi')%nat → appends lo hi self self' → appends lo' hi' self self'.
Proof.
  intros ?? (evs & Ht & Hs & Hf). exists evs. split_and!; [done|done|].
  eapply Forall_impl; [done|]. intros e ?. cbn in *. lia.
Qed.

(** A loop whose body appends events of one stage appends events of
    that stage. *)
Lemma foldM_appends {A S} (π : S → CadToCsg) (k : nat) (f : S → A → res S) (l : list A) :
  (∀ s a s', f s a = Ok s' → appends k k (π s) (π s')) →
  ∀ s s', foldM f s l = Ok s' → appends k k (π s) (π s').
Proof.
  intros Hf. induction l as [|x l IH]; intros s s' Hrun.
  - injection Hrun as <-. by apply appends_refl.
  - cbn [foldM] in Hrun. apply bind_Ok_inv in Hrun as (s1 & Hstep & Hrun).
    eapply appends_trans; [| |by eapply Hf|by eapply IH]; lia.
Qed.

Lemma _export_solids_appends self self' :
  _export_solids self = Ok self' → appends 0 0 self self'.
Proof.
  unfold _export_solids. case_bool_decide; [done|].
  intros (x & _ & Hx)%bind_Ok_inv. injection Hx as <-. by apply appends_log.
Qed.

Lemma decompose_step_appends meta st im st' :
  decompose_step meta st im = Ok st' → appends 1 1 st.1 st'.1.
Proof.
  destruct st as [self w], im as [i r]. unfold decompose_step.
  intros (m & _ & Hm)%bind_Ok_inv.
  destruct (meta && IsEnclosure m).
  - injection Hm as <-. by apply appends_refl.
  - apply bind_Ok_inv in Hm as (solids & _ & Hm).
    apply bind_Ok_inv in Hm as (box & _ & Hm).
    apply bind_Ok_inv in Hm as (Sf & _ & Hm).
    destruct (SplitSolid solids box) as [comsolid err].
    injection Hm as <-. by apply appends_log.
Qed.

Lemma _decompose_solids_appends meta self st' :
  _decompose_solids meta self = Ok st' → appends 1 1 self st'.1.
Proof.
  unfold _decompose_solids. intros Hrun.
  by apply (foldM_appends fst 1 _ _ (decompose_step_appends meta)) in Hrun.
Qed.

Lemma decompose_enclosures_appends self self' :
  decompose_enclosures self = Ok self' → appends 1 1 self self'.
Proof.
  unfold decompose_enclosures.
  destruct (Settings.voidGen (settings self) && bool_decide (enclosure_list self ≠ [])).
  - intros ([s w] & Hd & Hs)%bind_Ok_inv. injection Hs as <-.
    by apply _decompose_solids_appends in Hd.
  - intros [= <-]. by apply appends_refl.
Qed.

Lemma build_cell_appends st r st' :
  build_cell st r = Ok st' → appends 1 1 st.1 st'.1.
Proof.
  destruct st as [self coneInfo]. unfold build_cell.
  intros (m & _ & Hm)%bind_Ok_inv.
  apply bind_Ok_inv in Hm as (box & _ & Hm).
  apply bind_Ok_inv in Hm as (Sf & _ & Hm).
  destruct (cellDef m Sf box) as [[m' Sf'] cones].
  injection Hm as <-. by apply appends_log.
Qed.

Lemma build_solid_step_appends st r st' :
  build_solid_step st r = Ok st' → appends 1 1 st.1 st'.1.
Proof.
  unfold build_solid_step. intros (m & _ & Hm)%bind_Ok_inv.
  destruct (IsEnclosure m).
  - injection Hm as <-. by apply appends_refl.
  - by apply build_cell_appends in Hm.
Qed.

Lemma void_phase_appends self st' :
  void_phase self = Ok st' → appends 2 2 self st'.1.
Proof.
  unfold void_phase. destruct (Settings.voidGen (settings self)).
  - intros (meta_reduced & _ & Hm)%bind_Ok_inv.
    apply bind_Ok_inv in Hm as (init & _ & Hm).
    apply bind_Ok_inv in Hm as (box & _ & Hm).
    apply bind_Ok_inv in Hm as (Sf & _ & Hm).
    destruct (void_generation _ _ _ _ _ _) as [[meta_void h] Sf'].
    injection Hm as <-. by apply appends_log.
  - intros [= <-]. by apply appends_refl.
Qed.

Lemma simplify_step_appends self c self' :
  simplify_step self c = Ok self' → appends 3 3 self self'.
Proof.
  unfold simplify_step. intros (o & _ & Ho)%bind_Ok_inv.
  destruct (bool_decide (level (Definition_ o) = 0) || IsEnclosure o).
  - injection Ho as <-. by apply appends_refl.
  - apply bind_Ok_inv in Ho as (Surfs & _ & Ho). injection Ho as <-. by apply appends_log.
Qed.

End TraceProofs.

(** * The claims

    ** Numbering and ordering *)

Section Finalization.
Context `{KT : KernelTypes} `{C : !Collaborators}.
Implicit Types (h : heap).

(** C1.  Finalization, in the flat branch of [start] and in
    [sort_enclosure]: a cell marked [NullCell] is not in the output
    list and its object is left as it was, so it gets no label; the
    cells of the output list (all are non-null, and the flat branch
    keeps no enclosure entry) carry the labels [c + 1], [c + 2], ...
    in the order of the list, where [c] is the cell offset; the other
    entries of the list are new comment records. *)
Theorem finalization_drops_null_cells_and_numbers_in_order
    (meta_list meta_void : list ref) (c : Z) (h0 : heap) :
  (flat_ready h0 meta_list meta_void c →
     let cells := flat_solids h0 meta_list ++ flat_voids h0 meta_void in
     ∃ out (h' : heap),
       number_flat meta_list meta_void c h0 = Ok (out, h')
       ∧ out = flat_solids h0 meta_list ++ [fresh (dom h0)] ++ flat_voids h0 meta_void
       ∧ h0 !! (fresh (dom h0)) = None
       ∧ labels_of h' cells = (Some <$> seqZ (c + 1) (Z.of_nat (length cells)))
       ∧ (∀ r, r ∈ cells → is_null h0 r = false)
       ∧ (∀ r, r ∈ flat_solids h0 meta_list → is_enclosure h0 r = false)
       ∧ (∀ r, r ∈ meta_list ++ meta_void → is_null h0 r = true →
               (r ∉ out) ∧ h' !! r = h0 !! r))
  ∧ (sort_ready h0 meta_list meta_void c →
     let cells := sorted_cells h0 meta_list meta_void in
     ∃ out (h' : heap),
       sort_enclosure meta_list meta_void c h0 = Ok (out, h')
       ∧ filter (λ r, is_Some (h0 !! r)) out = cells
       ∧ (∀ r, r ∈ out → h0 !! r = None → ∃ text, h' !! r = Some (comment_cell text))
       ∧ labels_of h' cells = (Some <$> seqZ (c + 1) (Z.of_nat (length cells)))
       ∧ (∀ r, r ∈ cells → is_null h0 r = false)
       ∧ (∀ r, r ∈ meta_list ++ meta_void → is_null h0 r = true →
               (r ∉ out) ∧ h' !! r = h0 !! r)).
Proof.
  split.
  - intros Hready cells.
    destruct (number_flat_pointwise meta_list meta_void c h0 Hready)
      as (h' & Hrun & Hkept & Hkeptv & Hother).
    destruct Hready as (Hal & Hnd & Hres).
    assert (Hfresh : h0 !! (fresh (dom h0)) = None).
    { apply not_elem_of_dom. apply is_fresh. }
    assert (Hnn : ∀ r, r ∈ cells → is_null h0 r = false).
    { intros r [Hr|Hr]%elem_of_app.
      - by apply flat_solids_elem in Hr as [_ ?].
      - by apply flat_voids_elem in Hr as [_ ?]. }
    eexists _, h'. split_and!; [exact Hrun|done|done| |done| |].
    + apply labels_consecutive. intros k r Hk.
      apply lookup_app_Some in Hk as [Hk|[Hge Hk]].
      * destruct (Hal r) as [m Hm].
        { apply list_elem_of_lookup_2, flat_solids_elem in Hk as [? _]. set_solver. }
        by rewrite (Hkept k r m Hk Hm).
      * destruct (Hal r) as [m Hm].
        { apply list_elem_of_lookup_2, flat_voids_elem in Hk as [? _]. set_solver. }
        rewrite (Hkeptv _ r m Hk Hm). cbn. f_equal. lia.
    + intros r Hr. unfold flat_solids in Hr. apply list_elem_of_filter in Hr as [Hf _].
      by apply orb_false_iff in Hf as [_ ?].
    + intros r Hr Hnull. split.
      * intros [Hin|[Hin|Hin]%elem_of_app]%elem_of_app.
        -- apply flat_solids_elem in Hin as [_ ?]. congruence.
        -- apply list_elem_of_singleton in Hin as ->. destruct (Hal _ Hr). congruence.
        -- apply flat_voids_elem in Hin as [_ ?]. congruence.
      * apply Hother; [by apply Hal|]. intros Hin. specialize (Hnn r Hin). congruence.
  - intros Hready cells.
    destruct (sort_enclosure_pointwise meta_list meta_void c h0 Hready)
      as (out & h' & Hrun & Hout & Hcom & Hcells & Hother).
    destruct Hready as (Hal & Hnd & Hgrp & Hgrp0 & Hblank & Hres).
    assert (Hnn : ∀ r, r ∈ cells → is_null h0 r = false).
    { intros r. apply is_null_sorted_cells. }
    exists out, h'. split_and!; [done|done|done| |done|].
    + apply labels_consecutive. intros k r Hk.
      assert (Hr : r ∈ cells) by (by eapply list_elem_of_lookup_2).
      destruct (Hal r) as [m Hm]; [by apply sorted_cells_elem in Hr|].
      destruct (Hres r m Hr Hm) as [cm Hcm].
      by rewrite (Hcells k r m cm Hk Hm Hcm).
    + intros r Hr Hnull.
      assert (Hnot : r ∉ cells) by (intros Hin; specialize (Hnn r Hin); congruence).
      split; [|by apply Hother; [apply Hal|]].
      intros Hin. apply Hnot. fold cells in Hout. rewrite <- Hout.
      apply list_elem_of_filter. split; [by apply Hal|done].
Qed.

End Finalization.

Section Comments.
Context `{KT : KernelTypes} `{C : !Collaborators}.
Implicit Types (h : heap).

Lemma new_comment_recorded idLabel (m : GeounedSolid) b ids cm :
  __commentInfo__ m = Some (b, Some ids) → new_comment idLabel m = Some cm →
  ∃ labels, Forall2 (λ i l, idLabel !! i = Some l) ids labels
            ∧ cm = void_comment_line b labels.
Proof.
  intros Hc. unfold new_comment. rewrite Hc.
  destruct (mapM _ ids) as [labels|] eqn:Hl; [|done]. intros [= <-].
  exists labels. split; [by apply mapM_Some|done].
Qed.

(** C4, as the code has it.  Once the labels are assigned, every
    emitted void cell that records a set of identities has its comment
    rewritten to [void_comment_line] of the labels [idLabel] holds for
    these identities: in the flat branch every non-null cell of the
    void list, in [sort_enclosure] every emitted cell flagged [Void]
    and not flagged [IsEnclosure].  The other emitted cells keep their
    comment.  [idLabel] is the map built by the numbering pass: it
    sends the identity of a labelled cell to its label when no other
    labelled cell has this identity. *)
Theorem emitted_void_cells_get_their_comment_rewritten
    (meta_list meta_void : list ref) (c : Z) (h0 : heap) :
  (flat_ready h0 meta_list meta_void c →
     let idLabel := record_labels h0 c (flat_solids h0 meta_list) in
     ∃ out (h' : heap),
       number_flat meta_list meta_void c h0 = Ok (out, h')
       ∧ (∀ r m b ids, r ∈ flat_voids h0 meta_void → h0 !! r = Some m →
            __commentInfo__ m = Some (b, Some ids) →
            ∃ labels, Forall2 (λ i l, idLabel !! i = Some l) ids labels
                      ∧ Comments <$> h' !! r = Some (void_comment_line b labels))
       ∧ (∀ r m, r ∈ flat_solids h0 meta_list → h0 !! r = Some m →
            Comments <$> h' !! r = Some (Comments m))
       ∧ (∀ r m, r ∈ flat_solids h0 meta_list → h0 !! r = Some m →
            (∀ r' m', r' ∈ flat_solids h0 meta_list → h0 !! r' = Some m' →
                      __id__ m' = __id__ m → r' = r) →
            idLabel !! __id__ m = h' !! r ≫= label))
  ∧ (sort_ready h0 meta_list meta_void c →
     let cells := sorted_cells h0 meta_list meta_void in
     let idLabel := record_labels h0 c cells in
     ∃ out (h' : heap),
       sort_enclosure meta_list meta_void c h0 = Ok (out, h')
       ∧ (∀ r m b ids, r ∈ cells → h0 !! r = Some m →
            Void m = true → IsEnclosure m = false →
            __commentInfo__ m = Some (b, Some ids) →
            ∃ labels, Forall2 (λ i l, idLabel !! i = Some l) ids labels
                      ∧ Comments <$> h' !! r = Some (void_comment_line b labels))
       ∧ (∀ r m, r ∈ cells → h0 !! r = Some m →
            Void m = false ∨ IsEnclosure m = true →
            Comments <$> h' !! r = Some (Comments m))
       ∧ (∀ r m, r ∈ cells → h0 !! r = Some m →
            (∀ r' m', r' ∈ cells → h0 !! r' = Some m' → __id__ m' = __id__ m → r' = r) →
            idLabel !! __id__ m = h' !! r ≫= label)).
Proof.
  split.
  - intros Hready idLabel.
    destruct (number_flat_pointwise meta_list meta_void c h0 Hready)
      as (h' & Hrun & Hkept & Hkeptv & Hother).
    destruct Hready as (Hal & Hnd & Hres).
    apply NoDup_app in Hnd as (Hnd1 & _ & _).
    eexists _, h'. split_and!; [exact Hrun| | |].
    + intros r m b ids Hr Hm Hc.
      destruct (Hres r m Hr Hm) as [cm Hcm].
      destruct (new_comment_recorded _ _ _ _ _ Hc Hcm) as (labels & Hl & ->).
      exists labels. split; [done|].
      apply list_elem_of_lookup in Hr as [k Hk].
      rewrite (Hkeptv k r m Hk Hm). cbn. unfold labelled_void.
      change (new_comment (record_labels h0 c (flat_solids h0 meta_list))
                (labelled (c + Z.of_nat (length (flat_solids h0 meta_list))) k m))
        with (new_comment (record_labels h0 c (flat_solids h0 meta_list)) m).
      by rewrite Hcm.
    + intros r m Hr Hm. apply list_elem_of_lookup in Hr as [k Hk].
      by rewrite (Hkept k r m Hk Hm).
    + intros r m Hr Hm Huniq. apply list_elem_of_lookup in Hr as [k Hk].
      rewrite (Hkept k r m Hk Hm). cbn.
      apply record_labels_lookup with (r := r); [done| |done..].
      intros r' Hr'. apply Hal. apply flat_solids_elem in Hr' as [? _]. set_solver.
  - intros Hready cells idLabel.
    destruct (sort_enclosure_pointwise meta_list meta_void c h0 Hready)
      as (out & h' & Hrun & Hout & Hcom & Hcells & Hother).
    destruct Hready as (Hal & Hnd & Hgrp & Hgrp0 & Hblank & Hres).
    exists out, h'. split_and!; [done| | |].
    + intros r m b ids Hr Hm Hv He Hc.
      destruct (Hres r m Hr Hm) as [cm Hcm].
      apply list_elem_of_lookup in Hr as [k Hk].
      rewrite (Hcells k r m cm Hk Hm Hcm). cbn.
      unfold sorted_comment in Hcm. rewrite Hv, He in Hcm. cbn [andb negb] in Hcm.
      destruct (new_comment_recorded _ _ _ _ _ Hc Hcm) as (labels & Hl & ->).
      by exists labels.
    + intros r m Hr Hm Hguard.
      destruct (Hres r m Hr Hm) as [cm Hcm].
      apply list_elem_of_lookup in Hr as [k Hk].
      rewrite (Hcells k r m cm Hk Hm Hcm). cbn.
      unfold sorted_comment in Hcm.
      destruct Hguard as [Hg|Hg]; rewrite Hg in Hcm; cbn [andb negb] in Hcm.
      * congruence.
      * rewrite andb_false_r in Hcm. congruence.
    + intros r m Hr Hm Huniq.
      destruct (Hres r m Hr Hm) as [cm Hcm].
      apply list_elem_of_lookup in Hr as [k Hk].
      rewrite (Hcells k r m cm Hk Hm Hcm). cbn.
      apply record_labels_lookup with (r := r); [done| |done..].
      intros r' Hr'. apply Hal. by apply sorted_cells_elem in Hr'.
Qed.

End Comments.

(** ** Cone-plane post-processing *)

Section ConePlanes.
Context `{KT : KernelTypes} `{C : !Collaborators}.
Implicit Types (h : heap) (coneInfo : gmap Z (gset Z)).

Lemma process_cones_step_void coneInfo box h (Sf : SurfacesDict) r o b ids cones :
  h !! r = Some o → Void o = true → __commentInfo__ o = Some (b, Some ids) →
  void_cones coneInfo ids = Ok cones →
  process_cones_step coneInfo box (h, Sf) r =
    Ok (<[r := set_Definition (add_cone_plane (Definition_ o) cones Sf box).1 o]> h,
        (add_cone_plane (Definition_ o) cones Sf box).2).
Proof.
  intros Ho Hv Hc Hcones. unfold process_cones_step.
  rewrite (deref_Some _ _ _ Ho). cbn [mbind res_bind].
  rewrite Hv, andb_false_r, Hc, Hcones. cbn [mbind res_bind].
  by destruct (add_cone_plane _ _ _ _).
Qed.

Lemma process_cones_step_unpatched coneInfo box h (Sf : SurfacesDict) r o :
  h !! r = Some o → Void o = true →
  (∀ b ids, __commentInfo__ o ≠ Some (b, Some ids)) →
  process_cones_step coneInfo box (h, Sf) r = Ok (h, Sf).
Proof.
  intros Ho Hv Hc. unfold process_cones_step.
  rewrite (deref_Some _ _ _ Ho). cbn [mbind res_bind].
  rewrite Hv, andb_false_r.
  destruct (__commentInfo__ o) as [[b [ids|]]|]; [|done..]. by destruct (Hc b ids).
Qed.

Lemma process_cones_loop_unpatched coneInfo box r o (l : list ref) : ∀ h (Sf : SurfacesDict),
  allocated h l → h !! r = Some o → Void o = true →
  (∀ b ids, __commentInfo__ o ≠ Some (b, Some ids)) →
  ∃ (h' : heap) Sf',
    foldM (process_cones_step coneInfo box) (h, Sf) l = Ok (h', Sf') ∧ h' !! r = Some o.
Proof.
  induction l as [|m l IH]; intros h Sf Hal Ho Hv Hc.
  - by exists h, Sf.
  - cbn [foldM]. destruct (decide (m = r)) as [->|Hne].
    + rewrite (process_cones_step_unpatched _ _ _ _ _ _ Ho Hv Hc). cbn [mbind res_bind].
      apply IH; [|done..]. intros r' Hr'. apply Hal. set_solver.
    + destruct (Hal m) as [om Hom]; [set_solver|].
      destruct (process_cones_step_total coneInfo box h Sf m om Hom) as (d & Sf1 & ->).
      cbn [mbind res_bind]. apply IH; [|by rewrite lookup_insert_ne|done..].
      intros r' Hr'. destruct (decide (m = r')) as [<-|Hne'].
      * rewrite lookup_insert_eq. by eexists.
      * rewrite lookup_insert_ne by done. apply Hal. set_solver.
Qed.

(** C2.  Cone post-processing of a void cell that records the
    adjacency list [ids]: the set [cones] handed to
    [Conv.add_cone_plane] for this cell holds [-x] for every [x] of the
    record of every identity of [ids] that has a record, and nothing
    else; the definition of the cell becomes what [add_cone_plane]
    returns for it. *)
Theorem void_cell_gets_inverted_cones_of_adjacent_solids
    coneInfo (box : BoundBox) (MetaList : list ref) h (Sf : SurfacesDict) r o b ids :
  allocated h MetaList → NoDup MetaList → r ∈ MetaList →
  h !! r = Some o → Void o = true → __commentInfo__ o = Some (b, Some ids) →
  ∃ (cones : gset Z) (h' : heap) (Sf' Sk : SurfacesDict),
    void_cones coneInfo ids = Ok cones
    ∧ (∀ x, x ∈ cones ↔ ∃ Id s y, Id ∈ ids ∧ coneInfo !! Id = Some s ∧ y ∈ s ∧ x = - y)
    ∧ process_cones MetaList coneInfo Sf box h = Ok (h', Sf')
    ∧ h' !! r = Some (set_Definition (add_cone_plane (Definition_ o) cones Sk box).1 o).
Proof.
  intros Hal Hnd Hr Ho Hv Hc.
  destruct (void_cones_spec coneInfo ids) as (cones & Hcones & Hchar).
  apply list_elem_of_split in Hr as (l1 & l2 & ->).
  apply NoDup_app in Hnd as (_ & Hdisj & [Hr2 _]%NoDup_cons).
  assert (Hr1 : r ∉ l1) by (intros Hin; apply (Hdisj r Hin); set_solver).
  destruct (process_cones_loop coneInfo box l1 h Sf) as (h1 & Sf1 & Hrun1 & Hkeep1 & Hout1).
  { intros r' Hr'. apply Hal. set_solver. }
  assert (Ho1 : h1 !! r = Some o) by (by rewrite Hout1).
  pose proof (process_cones_step_void _ box _ Sf1 _ _ _ _ _ Ho1 Hv Hc Hcones) as Hstep.
  set (o' := set_Definition (add_cone_plane (Definition_ o) cones Sf1 box).1 o) in *.
  destruct (process_cones_loop coneInfo box l2 (<[r := o']> h1)
              (add_cone_plane (Definition_ o) cones Sf1 box).2)
    as (h2 & Sf2 & Hrun2 & Hkeep2 & Hout2).
  { intros r' Hr'. destruct (decide (r = r')) as [<-|Hne].
    - rewrite lookup_insert_eq. by eexists.
    - rewrite lookup_insert_ne by done.
      destruct (Hal r') as [o1 Ho1']; [set_solver|].
      destruct (Hkeep1 r' o1 Ho1') as [d ->]. by eexists. }
  exists cones, h2, Sf2, Sf1. split_and!; [done|done| |].
  - unfold process_cones. rewrite foldM_app, Hrun1. cbn [mbind res_bind foldM].
    rewrite Hstep. cbn [mbind res_bind]. exact Hrun2.
  - rewrite Hout2 by done. by rewrite lookup_insert_eq.
Qed.

(** C5.  Cone post-processing never raises.  A void cell without an
    adjacency list keeps its definition, as the whole object is left
    as it was, and the loop goes on to the next cell; an identity of an
    adjacency list that has no cone record adds nothing to the set of
    the cell: the set is the one the list without this identity
    gives. *)
Theorem cone_patching_tolerates_missing_adjacency
    coneInfo (box : BoundBox) (MetaList : list ref) h (Sf : SurfacesDict) :
  allocated h MetaList →
  ∃ (h' : heap) (Sf' : SurfacesDict),
    process_cones MetaList coneInfo Sf box h = Ok (h', Sf')
    ∧ (∀ r o, h !! r = Some o → Void o = true →
              (∀ b ids, __commentInfo__ o ≠ Some (b, Some ids)) →
              h' !! r = Some o
              ∧ ∀ h1 (Sf1 : SurfacesDict), h1 !! r = Some o →
                  process_cones_step coneInfo box (h1, Sf1) r = Ok (h1, Sf1))
    ∧ (∀ ids, is_Ok (void_cones coneInfo ids))
    ∧ (∀ ids1 Id ids2, coneInfo !! Id = None →
         void_cones coneInfo (ids1 ++ Id :: ids2) = void_cones coneInfo (ids1 ++ ids2)).
Proof.
  intros Hal.
  destruct (process_cones_loop coneInfo box MetaList h Sf Hal) as (h' & Sf' & Hrun & _ & _).
  exists h', Sf'. split_and!; [done| | |].
  - intros r o Ho Hv Hc. split.
    + destruct (process_cones_loop_unpatched coneInfo box r o MetaList h Sf Hal Ho Hv Hc)
        as (h'' & Sf'' & Hrun' & Hr).
      rewrite Hrun in Hrun'. by simplify_eq.
    + intros h1 Sf1 Ho1. by eapply process_cones_step_unpatched.
  - intros ids. destruct (void_cones_spec coneInfo ids) as (cones & Hc & _). by exists cones.
  - intros ids1 Id ids2 HId. unfold void_cones. rewrite !foldM_app.
    destruct (foldM (void_cones_step coneInfo) ∅ ids1) as [acc|e]; [|done].
    cbn [mbind res_bind foldM]. unfold void_cones_step at 2.
    by rewrite bool_decide_eq_false_2 by (by apply not_elem_of_dom).
Qed.

End ConePlanes.

(** ** The order of the stages *)

Section StageOrder.
Context `{KT : KernelTypes} `{C : !Collaborators}.

Lemma build_phase_appends self coneInfo st' :
  (if negb (Options.Facets (options self)) then
     '(self, _) ← _decompose_solids true self;
     self ← decompose_enclosures self;
     '(self, coneInfo) ← foldM build_solid_step (self, coneInfo) (meta_list self);
     if Options.forceNoOverlap (options self) then
       Sf ← the (Surfaces self);
       let '(h, Sf) := no_overlapping_cell (meta_list self) (objects self) Sf in
       Ok (log EvNoOverlap (set_objects h (set_Surfaces Sf self)), coneInfo)
     else Ok (self, coneInfo)
   else
     Sf ← the (Surfaces self);
     box ← the (geometry_bounding_box self);
     let '(h, Sf) := translate (meta_list self) (objects self) Sf box in
     let self := log EvTranslate (set_objects h (set_Surfaces Sf self)) in
     self ← decompose_enclosures self;
     Ok (self, coneInfo)) = Ok st' →
  appends 1 1 self st'.1.
Proof.
  destruct (negb (Options.Facets (options self))).
  - intros ([self1 w] & H1 & H)%bind_Ok_inv.
    apply _decompose_solids_appends in H1.
    apply bind_Ok_inv in H as (self2 & H2 & H).
    apply decompose_enclosures_appends in H2.
    apply bind_Ok_inv in H as ([self3 coneInfo3] & H3 & H).
    apply (foldM_appends fst 1 _ _ build_solid_step_appends) in H3. cbn [fst] in *.
    assert (H13 : appends 1 1 self self3).
    { eapply appends_trans; [| |exact H1|]; [lia..|].
      eapply appends_trans; [| |exact H2|exact H3]; lia. }
    destruct (Options.forceNoOverlap (options self3)).
    + apply bind_Ok_inv in H as (Sf & _ & H).
      destruct (no_overlapping_cell _ _ _) as [h Sf'].
      injection H as <-. cbn [fst].
      eapply appends_trans; [| |exact H13|]; [lia..|]. by apply appends_log.
    + by injection H as <-.
  - intros (Sf & _ & H)%bind_Ok_inv.
    apply bind_Ok_inv in H as (box & _ & H).
    destruct (translate _ _ _ _) as [h Sf'].
    apply bind_Ok_inv in H as (self2 & H2 & H).
    apply decompose_enclosures_appends in H2. injection H as <-. cbn [fst].
    eapply appends_trans; [| | |exact H2]; [lia..|]. by apply appends_log.
Qed.

(** C3, as the code has it.  In one run of [start] the calls to the
    stages come in this order: export of the solids; decomposition,
    registry population and cell definitions; void generation; full
    simplification of the solid cells; numbering; cone planes.  So
    cell building is over before any cell is simplified and before void
    generation, void generation is over before numbering and cone
    planes, and the full simplification comes after void generation,
    not before it: of two calls the run makes to different stages, the
    call to the earlier stage of this list is made first. *)
Theorem start_runs_stages_in_order (self self' : CadToCsg) :
  start self = Ok self' →
  ∃ evs, trace self' = trace self ++ evs
         ∧ StronglySorted stage_le evs
         ∧ ∀ (i j : nat) e1 e2, evs !! i = Some e1 → evs !! j = Some e2 →
             (stage e1 < stage e2)%nat → (i < j)%nat.
Proof.
  intros H. cut (appends 0 5 self self').
  { intros (evs & ? & Hs & _). exists evs. split_and!; [done..|].
    intros i j e1 e2 Hi Hj Hlt.
    destruct (decide (i < j)%nat) as [|Hge]; [done|exfalso].
    destruct (decide (i = j)) as [->|Hne]; [simplify_eq; lia|].
    pose proof (StronglySorted_lookup_lt _ _ j i e2 e1 Hs Hj Hi ltac:(lia)) as Hle.
    unfold stage_le in Hle. lia. }
  unfold start in H. case_bool_decide; [done|].
  apply bind_Ok_inv in H as (self1 & H1 & H).
  assert (A1 : appends 0 0 self self1).
  { destruct (bool_decide (Settings.exportSolids (settings self) ≠ "")).
    - by apply _export_solids_appends.
    - injection H1 as <-. by apply appends_refl. }
  apply bind_Ok_inv in H as (box & _ & H).
  set (self2 := set_Surfaces _ (set_geometry_bounding_box box self1)) in H.
  apply bind_Ok_inv in H as ([self3 coneInfo3] & H3 & H).
  apply build_phase_appends in H3. cbn [fst] in H3.
  apply bind_Ok_inv in H as ([self4 coneInfo4] & H4 & H).
  assert (A4 : appends 1 1 self3 self4).
  { destruct (Settings.voidGen (settings self3) && bool_decide (enclosure_list self3 ≠ [])).
    - by apply (foldM_appends fst 1 _ _ build_cell_appends) in H4.
    - injection H4 as <- <-. by apply appends_refl. }
  apply bind_Ok_inv in H as ([self5 meta_void] & H5 & H).
  apply void_phase_appends in H5. cbn [fst] in H5.
  apply bind_Ok_inv in H as (self6 & H6 & H).
  assert (A6 : appends 3 3 self5 self6).
  { destruct (bool_decide (Settings.simplify (settings self5) = "full")).
    - by apply (foldM_appends id 3 _ _ simplify_step_appends) in H6.
    - injection H6 as <-. by apply appends_refl. }
  apply bind_Ok_inv in H as ([numbered h] & _ & H).
  apply bind_Ok_inv in H as (Sf & _ & H).
  apply bind_Ok_inv in H as (box' & _ & H).
  apply bind_Ok_inv in H as ([h' Sf'] & _ & H).
  injection H as <-.
  assert (A7 : appends 4 5 self6 (set_objects h' (set_Surfaces Sf'
                 (log EvProcessCones (set_objects h (set_meta_list numbered
                    (log EvNumbering self6))))))).
  { exists [EvNumbering; EvProcessCones]. split_and!.
    - cbn [trace set_objects set_Surfaces set_meta_list log]. by rewrite <- app_assoc.
    - repeat constructor; unfold stage_le; cbn; lia.
    - repeat constructor; cbn; lia. }
  eapply appends_trans; [| |apply (appends_weaken 0 0 0 1); [lia..|exact A1]|]; [lia..|].
  eapply appends_trans; [| |apply (appends_weaken 1 1 1 1 self1 self3); [lia..|exact H3]|]; [lia..|].
  eapply appends_trans; [| |apply (appends_weaken 1 1 1 2); [lia..|exact A4]|]; [lia..|].
  eapply appends_trans; [| |apply (appends_weaken 2 2 2 3); [lia..|exact H5]|]; [lia..|].
  eapply appends_trans; [| |apply (appends_weaken 3 3 3 4); [lia..|exact A6]|]; [lia..|].
  apply (appends_weaken 4 5); [lia..|exact A7].
Qed.

End StageOrder.

(** ** The seed of the void identities *)

Section VoidSeed.
Context `{KT : KernelTypes} `{C : !Collaborators}.
Implicit Types (h : heap).

(** Along a list with strictly increasing identities, an identity is
    below those that follow by at least the distance. *)
Lemma increasing_ids_gap h (l : list ref) : ∀ (i j : nat) a b,
  StronglySorted (λ r1 r2, id_at h r1 < id_at h r2) l →
  l !! i = Some a → l !! j = Some b → (i ≤ j)%nat →
  id_at h a + Z.of_nat (j - i) ≤ id_at h b.
Proof.
  induction l as [|x l IH]; intros i j a b Hs Hi Hj Hij; [done|].
  apply StronglySorted_inv in Hs as [Hs Hx]. rewrite Forall_forall in Hx.
  destruct i as [|i], j as [|j]; simplify_eq/=; try lia.
  - destruct l as [|y l]; [done|].
    assert (Hy : id_at h a < id_at h y) by (apply Hx; set_solver).
    pose proof (IH 0%nat j y b Hs eq_refl Hj ltac:(lia)) as Hgap. lia.
  - apply (IH i j); [done..|lia].
Qed.

(** C8, as the code has it.  The seed is the identity of the last
    entry of the solid list minus the number of enclosure entries, and
    [0] for an empty list.  When the identities increase strictly along
    the list, every cell that is followed by at least as many entries
    as there are enclosure entries has an identity below [seed + 1]: so
    the void identities are clear of the solid cells when the enclosure
    entries are the last entries of the list. *)
Theorem void_seed_clears_cells_before_the_enclosures
    (self : CadToCsg) (solids rest : list ref) :
  meta_list self = solids ++ rest →
  (length (enclosure_list self) ≤ length rest)%nat →
  allocated (objects self) (meta_list self) →
  StronglySorted (λ r1 r2, id_at (objects self) r1 < id_at (objects self) r2)
                 (meta_list self) →
  ∃ init,
    void_init self = Ok init
    ∧ init = match last (meta_list self) with
             | Some l => id_at (objects self) l - Z.of_nat (length (enclosure_list self))
             | None => 0
             end
    ∧ ∀ r (k : nat), r ∈ solids → id_at (objects self) r < init + 1 + Z.of_nat k.
Proof.
  intros Hml Hlen Hal Hs. unfold void_init.
  destruct (last (meta_list self)) as [l|] eqn:Hl.
  - assert (Hne : meta_list self ≠ []) by (intros Hnil; by rewrite Hnil in Hl).
    rewrite bool_decide_eq_true_2 by done.
    unfold py_last. rewrite Hl. cbn [mbind res_bind].
    destruct (Hal l) as [o Ho]; [by apply last_Some_elem_of|].
    rewrite (deref_Some _ _ _ Ho). cbn [mbind res_bind].
    eexists. split; [done|]. split; [unfold id_at; by rewrite Ho|].
    intros r k Hr.
    apply list_elem_of_lookup in Hr as [i Hi].
    assert (Hil : meta_list self !! i = Some r) by (rewrite Hml; by apply lookup_app_l_Some).
    rewrite last_lookup in Hl.
    assert (Hlt : (i < length solids)%nat) by (by eapply lookup_lt_Some).
    assert (Hn : length (meta_list self) = (length solids + length rest)%nat)
      by (by rewrite Hml, length_app).
    pose proof (increasing_ids_gap _ _ i (pred (length (meta_list self))) r l Hs Hil Hl
                  ltac:(lia)) as Hgap.
    unfold id_at at 2 in Hgap. rewrite Ho in Hgap. lia.
  - apply last_None in Hl. rewrite bool_decide_eq_false_2 by (by intros ?).
    exists 0. split; [done|]. split; [done|]. intros r k Hr.
    rewrite Hl in Hml. symmetry in Hml. apply app_eq_nil in Hml as [-> _].
    by apply elem_of_nil in Hr.
Qed.

End VoidSeed.

(** ** Loading and the bounding box *)

Lemma without_positions_elem {A} (skip : list Z) (l : list A) x :
  x ∈ without_positions skip l → x ∈ l.
Proof.
  unfold without_positions. intros ([i y] & -> & Hin)%list_elem_of_fmap.
  apply list_elem_of_filter in Hin as [_ Hin]. unfold enumerate in Hin.
  by apply elem_of_zip_r in Hin.
Qed.

Section LoadClaims.
Context `{KT : KernelTypes} `{C : !Collaborators}.
Implicit Types (h : heap).

Lemma remove_spline_solids_none h (n : nat) : ∀ (l : list ref),
  (∀ r, r ∈ l → has_solids h r) → remove_spline_solids h n l = Ok l.
Proof.
  induction n as [|n IH]; intros l Hall; [done|].
  cbn [remove_spline_solids]. destruct (l !! n) as [m|] eqn:Hm; [|done].
  destruct (Hall m) as (o & Ho & s & Hs); [by eapply list_elem_of_lookup_2|].
  rewrite (deref_Some _ _ _ Ho). cbn [mbind res_bind]. rewrite Hs. cbn [mbind res_bind].
  by apply IH.
Qed.

(** C9.  [join_meta_lists] on the lists of several files.  When the
    list of the first file is empty the result is the empty list and
    no object is touched, whatever the later files hold.  When it is
    not, the result is the first list followed by the entries of the
    later files in order; the entries of the first list keep their
    identity and the later entries get the identities that follow the
    identity of the last entry of the first list, one by one. *)
Theorem join_meta_lists_depends_on_the_first_list
    (first : list ref) (rest : list (list ref)) (h : heap) :
  (first = [] → join_meta_lists (first :: rest) h = Ok ([], h))
  ∧ (first ≠ [] → NoDup (first ++ concat rest) → allocated h (first ++ concat rest) →
     ∃ (h' : heap) l ml,
       last first = Some l ∧ h !! l = Some ml
       ∧ join_meta_lists (first :: rest) h = Ok (first ++ concat rest, h')
       ∧ (∀ r, r ∉ concat rest → h' !! r = h !! r)
       ∧ (∀ (k : nat) r, concat rest !! k = Some r →
            ∃ m, h !! r = Some m
                 ∧ h' !! r = Some (set_id (__id__ ml + 1 + Z.of_nat k) m))).
Proof.
  split.
  - intros ->. done.
  - intros Hne Hnd Hal. unfold join_meta_lists. rewrite bool_decide_eq_true_2 by done.
    destruct (last first) as [l|] eqn:Hl; [|by apply last_None in Hl].
    destruct (Hal l) as [ml Hml]; [apply elem_of_app; left; by apply last_Some_elem_of|].
    destruct (join_meta_outer rest first h l ml Hnd) as (h' & Hrun & Hout & Hin); [|done..|].
    { intros r Hr. apply Hal. set_solver. }
    by exists h', l, ml.
Qed.

(** C10.  For distinct positions of the loaded list, the loop over
    [sorted(skip_solids, reverse=True)] leaves the entries of the list
    at the other positions, in their order, and listing the positions
    in another order gives the same result; [load_step_file] returns
    this list when no solid has spline surfaces. *)
Theorem skip_solids_removes_the_listed_positions
    (meta_list : list ref) (skip_solids : list Z) :
  NoDup skip_solids →
  (∀ i, i ∈ skip_solids → 0 ≤ i < Z.of_nat (length meta_list)) →
  delete_skipped meta_list skip_solids = Ok (without_positions skip_solids meta_list)
  ∧ (∀ skip', skip' ≡ₚ skip_solids →
       delete_skipped meta_list skip' = delete_skipped meta_list skip_solids)
  ∧ (∀ loaded (h h1 h2 : heap) el,
       join_meta_lists loaded.*1 h = Ok (meta_list, h1) →
       join_meta_lists loaded.*2 h1 = Ok (el, h2) →
       (∀ r, r ∈ meta_list ++ el → has_solids h2 r) →
       load_step_file loaded skip_solids h
       = Ok (without_positions skip_solids meta_list, el, h2)).
Proof.
  intros Hnd Hr. split_and!.
  - by apply delete_skipped_spec.
  - intros skip' Hp. unfold delete_skipped. by rewrite (sorted_reverse_perm _ _ Hp).
  - intros loaded h h1 h2 el Hj1 Hj2 Hall. unfold load_step_file.
    rewrite Hj1. cbn [mbind res_bind]. rewrite Hj2. cbn [mbind res_bind].
    unfold delete_skipped. rewrite delete_skipped_spec by done. cbn [mbind res_bind].
    rewrite check_enclosure_solids_pass by (intros r Hr'; apply Hall; set_solver).
    cbn [mbind res_bind]. rewrite remove_spline_solids_none; [done|].
    intros r Hr'. apply Hall. apply without_positions_elem in Hr'. set_solver.
Qed.

(** C6.  After the lists are joined and the skipped solids deleted:
    when an enclosure solid has [Solids] equal to [None],
    [load_step_file] ends in [exit()] and returns nothing, so the run
    stops before [start]; when no enclosure solid has, it returns, and
    the solid list it returns is the list without the solids whose
    [Solids] is [None]. *)
Theorem spline_enclosure_stops_and_spline_solid_is_removed
    (loaded : list (list ref * list ref)) (skip_solids : list Z)
    (h h1 h2 : heap) (meta_list enclosure_list kept : list ref) :
  join_meta_lists loaded.*1 h = Ok (meta_list, h1) →
  join_meta_lists loaded.*2 h1 = Ok (enclosure_list, h2) →
  delete_skipped meta_list skip_solids = Ok kept →
  allocated h2 (kept ++ enclosure_list) → NoDup kept →
  ((∃ r o, r ∈ enclosure_list ∧ h2 !! r = Some o ∧ Solids o = None) →
     load_step_file loaded skip_solids h = Raise SystemExit)
  ∧ ((∀ r, r ∈ enclosure_list → has_solids h2 r) →
     load_step_file loaded skip_solids h
     = Ok (filter (has_solids h2) kept, enclosure_list, h2)).
Proof.
  intros Hj1 Hj2 Hdel Hal Hnd.
  assert (Hal1 : allocated h2 kept) by (intros r Hr; apply Hal; set_solver).
  assert (Hal2 : allocated h2 enclosure_list) by (intros r Hr; apply Hal; set_solver).
  unfold load_step_file. rewrite Hj1. cbn [mbind res_bind]. rewrite Hj2. cbn [mbind res_bind].
  rewrite Hdel. cbn [mbind res_bind]. split.
  - intros Hex. by rewrite check_enclosure_solids_exit.
  - intros Hall. rewrite check_enclosure_solids_pass by done. cbn [mbind res_bind].
    pose proof (remove_spline_solids_filter h2 kept [] Hnd Hal1) as Hrm.
    rewrite !app_nil_r in Hrm. by rewrite Hrm.
Qed.

End LoadClaims.

Section BoxClaim.
Context `{KT : KernelTypes} `{C : !Collaborators} `{!CoordOrder}.
Implicit Types (h : heap).

Lemma minimum_of_singleton (x : coord) : minimum_of x [x].
Proof. split; [set_solver|]. intros y ->%list_elem_of_singleton. apply coord_le_refl. Qed.

Lemma maximum_of_singleton (x : coord) : maximum_of x [x].
Proof. split; [set_solver|]. intros y ->%list_elem_of_singleton. apply coord_le_refl. Qed.

(** C7.  For a non-empty solid list the geometry bounding box is the
    box of the six extrema of the optimal bounding boxes of all cells
    of the list, enclosure entries included, the minima lowered and the
    maxima raised by the padding; so it holds the box of every cell
    of the list with the padding as margin on each side. *)
Theorem geometry_bounding_box_is_padded_extrema
    (padding : coord) (meta_list : list ref) (h : heap) :
  meta_list ≠ [] → allocated h meta_list →
  ∃ box ext,
    _get_geometry_bounding_box padding meta_list h = Ok box
    ∧ extrema_of ext (bounding_boxes h meta_list)
    ∧ box = mkBox _ (coord_sub (XMin ext) padding) (coord_sub (YMin ext) padding)
                    (coord_sub (ZMin ext) padding) (coord_add (XMax ext) padding)
                    (coord_add (YMax ext) padding) (coord_add (ZMax ext) padding)
    ∧ (∀ r o, r ∈ meta_list → h !! r = Some o →
         let b := optimalBoundingBox o in
         coord_le (XMin box) (coord_sub (XMin b) padding)
         ∧ coord_le (YMin box) (coord_sub (YMin b) padding)
         ∧ coord_le (ZMin box) (coord_sub (ZMin b) padding)
         ∧ coord_le (coord_add (XMax b) padding) (XMax box)
         ∧ coord_le (coord_add (YMax b) padding) (YMax box)
         ∧ coord_le (coord_add (ZMax b) padding) (ZMax box)).
Proof.
  intros Hne Hal. destruct meta_list as [|m0 rest]; [done|].
  destruct (Hal m0) as [o0 Ho0]; [set_solver|].
  destruct (bounding_box_loop h rest (optimalBoundingBox o0) [optimalBoundingBox o0])
    as (ext & Hrun & Hext).
  { intros r Hr. apply Hal. set_solver. }
  { unfold extrema_of. cbn [fmap list_fmap].
    split_and!; (apply minimum_of_singleton || apply maximum_of_singleton). }
  assert (Hbs : bounding_boxes h (m0 :: rest) = [optimalBoundingBox o0] ++ bounding_boxes h rest).
  { unfold bounding_boxes. cbn [omap list_omap]. by rewrite Ho0. }
  rewrite <- Hbs in Hext.
  eexists _, ext. split_and!; [|exact Hext|reflexivity|].
  - unfold _get_geometry_bounding_box. rewrite (deref_Some _ _ _ Ho0). cbn [mbind res_bind].
    rewrite Hrun. done.
  - intros r o Hr Ho b.
    assert (Hb : b ∈ bounding_boxes h (m0 :: rest)).
    { unfold bounding_boxes. apply list_elem_of_omap. exists r. split; [done|]. by rewrite Ho. }
    destruct Hext as ((_ & H1) & (_ & H2) & (_ & H3) & (_ & H4) & (_ & H5) & (_ & H6)).
    cbn [XMin YMin ZMin XMax YMax ZMax].
    split_and!.
    + apply coord_sub_mono, H1. by apply list_elem_of_fmap_2.
    + apply coord_sub_mono, H2. by apply list_elem_of_fmap_2.
    + apply coord_sub_mono, H3. by apply list_elem_of_fmap_2.
    + apply coord_add_mono, H4. by apply list_elem_of_fmap_2.
    + apply coord_add_mono, H5. by apply list_elem_of_fmap_2.
    + apply coord_add_mono, H6. by apply list_elem_of_fmap_2.
Qed.

End BoxClaim.

(** * The claims on the small instance *)

(** Case split on membership in a list given by its entries. *)
Ltac members :=
  repeat match goal with
    | H : _ ∈ _ :: _ |- _ => apply elem_of_cons in H as [->|H]
    | H : _ ∈ [] |- _ => by apply elem_of_nil in H
    end.

Section ToyFacts.
#[local] Existing Instances Toy.types Toy.collaborators.

Lemma toy_allocated : allocated Toy.store (Toy.solids ++ Toy.voids).
Proof. intros r Hr. unfold Toy.solids, Toy.voids in Hr. cbn [app] in Hr. members; by eexists. Qed.

Lemma toy_flat_ready : flat_ready Toy.store Toy.solids Toy.voids 0.
Proof.
  split_and!.
  - apply toy_allocated.
  - by apply (bool_decide_unpack _); vm_compute.
  - intros r o Hr Ho.
    assert (flat_voids Toy.store Toy.voids = [3; 4]%nat) as Hv by (by vm_compute).
    rewrite Hv in Hr. members; vm_compute in Ho; injection Ho as <-; by eexists.
Qed.

Lemma toy_sort_ready : sort_ready Toy.store Toy.solids Toy.voids 0.
Proof.
  assert (sorted_cells Toy.store Toy.solids Toy.voids = [0; 4; 3]%nat) as Hc by (by vm_compute).
  split_and!.
  - apply toy_allocated.
  - rewrite Hc. by apply (bool_decide_unpack _); vm_compute.
  - intros m o Hm Ho Hn He. unfold Toy.solids in Hm.
    members; vm_compute in Ho; injection Ho as <-; try done; by vm_compute.
  - by vm_compute.
  - done.
  - intros r o Hr Ho. rewrite Hc in Hr |- *.
    members; vm_compute in Ho; injection Ho as <-; by eexists.
Qed.

Global Instance toy_coord_order : CoordOrder.
Proof.
  split; unfold coord_le; cbn [coord_lt coord_add coord_sub Toy.collaborators].
  - intros a b. rewrite Z.ltb_lt, Z.ltb_ge. lia.
  - intros a b c. rewrite !Z.ltb_ge. lia.
  - intros a b p. rewrite !Z.ltb_ge. lia.
  - intros a b p. rewrite !Z.ltb_ge. lia.
Qed.

End ToyFacts.

Section Witnesses.
#[local] Existing Instances Toy.types Toy.collaborators.

(** The numbering of the small model, flat and grouped by enclosure:
    the null solid at [2] and the null void at [5] are dropped. *)
Lemma finalization_witness :
  flat_ready Toy.store Toy.solids Toy.voids 0
  ∧ sort_ready Toy.store Toy.solids Toy.voids 0
  ∧ (∃ h' : heap,
       number_flat Toy.solids Toy.voids 0 Toy.store = Ok ([0; 6; 3; 4]%nat, h')
       ∧ labels_of h' [0; 3; 4]%nat = [Some 1; Some 2; Some 3]
       ∧ h' !! 2%nat = Toy.store !! 2%nat)
  ∧ (∃ out (h' : heap),
       sort_enclosure Toy.solids Toy.voids 0 Toy.store = Ok (out, h')
       ∧ filter (λ r, is_Some (Toy.store !! r)) out = [0; 4; 3]%nat
       ∧ labels_of h' [0; 4; 3]%nat = [Some 1; Some 2; Some 3]
       ∧ h' !! 5%nat = Toy.store !! 5%nat).
Proof.
  pose proof toy_flat_ready as Hf. pose proof toy_sort_ready as Hs.
  destruct (finalization_drops_null_cells_and_numbers_in_order
              Toy.solids Toy.voids 0 Toy.store) as [Tf Ts].
  split; [exact Hf|]. split; [exact Hs|]. split.
  - destruct (Tf Hf) as (out & h' & Hrun & -> & _ & Hlab & _ & _ & Hnull).
    exists h'. split; [exact Hrun|]. split; [exact Hlab|].
    apply Hnull; [|reflexivity]. vm_compute. repeat constructor.
  - destruct (Ts Hs) as (out & h' & Hrun & Hout & _ & Hlab & _ & Hnull).
    exists out, h'. split; [exact Hrun|]. split; [exact Hout|]. split; [exact Hlab|].
    apply Hnull; [|reflexivity]. vm_compute. repeat constructor.
Defined.

(** The void at [3] is adjacent to identity [1], whose record is
    [{7}]. *)
Lemma void_cell_cones_witness :
  ∃ (cones : gset Z) (h' : heap) (Sf' Sk : SurfacesDict),
    void_cones Toy.cone_records [1] = Ok cones
    ∧ (∀ x, x ∈ cones ↔
         ∃ Id s y, Id ∈ [1] ∧ Toy.cone_records !! Id = Some s ∧ y ∈ s ∧ x = - y)
    ∧ process_cones [0; 3]%nat Toy.cone_records () Toy.universe Toy.store = Ok (h', Sf')
    ∧ h' !! 3%nat =
        Some (set_Definition
                (add_cone_plane (∅ : gset Z) cones Sk Toy.universe).1
                (Toy.cell 4 false false true 0 (Some ((), Some [1])) ∅ "outer void" 0)).
Proof.
  apply (void_cell_gets_inverted_cones_of_adjacent_solids
           Toy.cone_records Toy.universe [0; 3]%nat Toy.store () 3%nat
           (Toy.cell 4 false false true 0 (Some ((), Some [1])) ∅ "outer void" 0) () [1]).
  - intros r Hr. members; by eexists.
  - apply (bool_decide_unpack _). by vm_compute.
  - repeat constructor.
  - reflexivity.
  - reflexivity.
  - reflexivity.
Defined.

(** The void at [5] has no adjacency list; identity [9] has no cone
    record. *)
Lemma cone_patching_witness :
  ∃ (h' : heap) (Sf' : SurfacesDict),
    process_cones [0; 5; 3]%nat Toy.cone_records () Toy.universe Toy.store = Ok (h', Sf')
    ∧ h' !! 5%nat = Toy.store !! 5%nat
    ∧ void_cones Toy.cone_records [9; 1] = void_cones Toy.cone_records [1].
Proof.
  destruct (cone_patching_tolerates_missing_adjacency
              Toy.cone_records Toy.universe [0; 5; 3]%nat Toy.store ())
    as (h' & Sf' & Hrun & Hkeep & _ & Hdrop).
  - intros r Hr. members; by eexists.
  - exists h', Sf'. split; [exact Hrun|]. split.
    + apply (Hkeep 5%nat
               (Toy.cell 6 true false true 0 (Some ((), None)) ∅ "null void" 0));
        [reflexivity|reflexivity|]. intros b ids. discriminate.
    + apply (Hdrop [] 9 [1]). reflexivity.
Defined.

(** One run of [start] on a model of one solid. *)
Lemma start_stage_order_witness :
  ∃ self', start Toy.one_solid = Ok self'
           ∧ ∃ evs, trace self' = trace Toy.one_solid ++ evs
                    ∧ StronglySorted stage_le evs
                    ∧ ∀ (i j : nat) e1 e2, evs !! i = Some e1 → evs !! j = Some e2 →
                        (stage e1 < stage e2)%nat → (i < j)%nat.
Proof.
  eexists. split; [vm_compute; reflexivity|].
  apply start_runs_stages_in_order. vm_compute. reflexivity.
Defined.

(** The same run, its trace written out: the solid is simplified
    after the call to void generation. *)
Lemma simplification_follows_void_generation :
  ∃ self', start Toy.one_solid = Ok self'
           ∧ trace self' = [EvSplitSolid 0; EvCellDef 0; EvVoidGeneration 1;
                            EvSimplify 0; EvNumbering; EvProcessCones]%nat
           ∧ ¬ simplification_before_void_generation (trace self').
Proof.
  eexists. split; [vm_compute; reflexivity|]. split; [reflexivity|].
  intros H. specialize (H 2%nat 3%nat 1 0%nat eq_refl eq_refl). lia.
Qed.

(** The void at [4] records the identities [1] and [0]; the solid at
    [0] got the label [1]. *)
Lemma comment_rewriting_witness :
  (∃ (h' : heap),
     number_flat Toy.solids Toy.voids 0 Toy.store = Ok ([0; 6; 3; 4]%nat, h')
     ∧ Comments <$> h' !! 4%nat = Some "Enclosed cells : 1, 0"%string
     ∧ Comments <$> h' !! 0%nat = Some "solid"%string)
  ∧ (∃ out (h' : heap),
       sort_enclosure Toy.solids Toy.voids 0 Toy.store = Ok (out, h')
       ∧ Comments <$> h' !! 4%nat = Some "Enclosed cells : 1, 0"%string
       ∧ Comments <$> h' !! 0%nat = Some "solid"%string).
Proof.
  pose proof toy_flat_ready as Hf. pose proof toy_sort_ready as Hs.
  destruct (emitted_void_cells_get_their_comment_rewritten
              Toy.solids Toy.voids 0 Toy.store) as [Tf Ts].
  split.
  - destruct (Tf Hf) as (out & h' & Hrun & Hvoid & Hsolid & _).
    assert (out = [0; 6; 3; 4]%nat) as ->.
    { vm_compute in Hrun. by injection Hrun as <- _. }
    exists h'. split; [exact Hrun|]. split.
    + destruct (Hvoid 4%nat
                  (Toy.cell 5 false false true 1 (Some ((), Some [1; 0])) ∅ "inner void" 0)
                  () [1; 0]) as (labels & Hl & Hc); [by vm_compute; repeat constructor|done..|].
      rewrite Hc. f_equal.
      apply Forall2_cons_inv_l in Hl as (l1 & ls & H1 & Hl & ->).
      apply Forall2_cons_inv_l in Hl as (l2 & ls' & H2 & Hl & ->).
      apply Forall2_nil_inv_l in Hl as ->.
      vm_compute in H1, H2. by simplify_eq.
    + apply (Hsolid 0%nat (Toy.cell 1 false false false 0 None {[7]} "solid" 0));
        [by vm_compute; repeat constructor|done].
  - destruct (Ts Hs) as (out & h' & Hrun & Hvoid & Hsolid & _).
    exists out, h'. split; [exact Hrun|]. split.
    + destruct (Hvoid 4%nat
                  (Toy.cell 5 false false true 1 (Some ((), Some [1; 0])) ∅ "inner void" 0)
                  () [1; 0]) as (labels & Hl & Hc); [by vm_compute; repeat constructor|done..|].
      rewrite Hc. f_equal.
      apply Forall2_cons_inv_l in Hl as (l1 & ls & H1 & Hl & ->).
      apply Forall2_cons_inv_l in Hl as (l2 & ls' & H2 & Hl & ->).
      apply Forall2_nil_inv_l in Hl as ->.
      vm_compute in H1, H2. by simplify_eq.
    + apply (Hsolid 0%nat (Toy.cell 1 false false false 0 None {[7]} "solid" 0));
        [by vm_compute; repeat constructor|done|by left].
Defined.

(** A cell of the solid list that records identities is emitted by
    [sort_enclosure] with the comment it had. *)
Lemma solid_cross_reference_is_not_rewritten :
  ∃ out (h' : heap),
    sort_enclosure [0%nat] [1%nat] 0 Toy.store_solid_with_record = Ok (out, h')
    ∧ ¬ every_cross_reference_rewritten
          (record_labels Toy.store_solid_with_record 0
             (sorted_cells Toy.store_solid_with_record [0%nat] [1%nat]))
          Toy.store_solid_with_record h' out.
Proof.
  eexists _, _. split; [vm_compute; reflexivity|].
  intros H.
  destruct (H 0%nat (Toy.cell 1 false false false 0 (Some ((), Some [1])) ∅ "solid" 0) () [1])
    as (labels & _ & Hc); [repeat constructor|reflexivity|reflexivity|].
  vm_compute in Hc. discriminate Hc.
Qed.

(** An enclosure without solids stops the loading; the solid without
    solids at [2], from the second file, is dropped. *)
Lemma spline_solids_witness :
  load_step_file [([0%nat], [1%nat])] [] Toy.spline_enclosure_store = Raise SystemExit
  ∧ ∃ h2 : heap,
      load_step_file [([0; 1], [1]); ([2], [])]%nat [] Toy.spline_store
      = Ok ([0; 1]%nat, [1%nat], h2).
Proof.
  split.
  - edestruct (spline_enclosure_stops_and_spline_solid_is_removed
                 [([0%nat], [1%nat])] [] Toy.spline_enclosure_store) as [Hexit _].
    + vm_compute. reflexivity.
    + vm_compute. reflexivity.
    + vm_compute. reflexivity.
    + intros r Hr. cbn [app] in Hr. members; by eexists.
    + apply (bool_decide_unpack _). by vm_compute.
    + apply Hexit. exists 1%nat. eexists. split; [repeat constructor|]. split; reflexivity.
  - edestruct (spline_enclosure_stops_and_spline_solid_is_removed
                 [([0; 1], [1]); ([2], [])]%nat [] Toy.spline_store) as [_ Hkeep].
    + vm_compute. reflexivity.
    + vm_compute. reflexivity.
    + vm_compute. reflexivity.
    + intros r Hr. cbn [app] in Hr. members; by eexists.
    + apply (bool_decide_unpack _). by vm_compute.
    + eexists. etrans.
      * apply Hkeep. intros r Hr. members. eexists. split; [reflexivity|]. by eexists.
      * reflexivity.
Defined.

(** The box of the small model, for the default padding. *)
Lemma geometry_bounding_box_witness :
  _get_geometry_bounding_box default_padding Toy.solids Toy.store = Ok Toy.universe
  ∧ ∃ box ext,
      _get_geometry_bounding_box default_padding Toy.solids Toy.store = Ok box
      ∧ extrema_of ext (bounding_boxes Toy.store Toy.solids)
      ∧ box = mkBox Toy.types
                (coord_sub (XMin ext) default_padding) (coord_sub (YMin ext) default_padding)
                (coord_sub (ZMin ext) default_padding) (coord_add (XMax ext) default_padding)
                (coord_add (YMax ext) default_padding) (coord_add (ZMax ext) default_padding)
      ∧ (∀ r o, r ∈ Toy.solids → Toy.store !! r = Some o →
           let b := optimalBoundingBox o in
           coord_le (XMin box) (coord_sub (XMin b) default_padding)
           ∧ coord_le (YMin box) (coord_sub (YMin b) default_padding)
           ∧ coord_le (ZMin box) (coord_sub (ZMin b) default_padding)
           ∧ coord_le (coord_add (XMax b) default_padding) (XMax box)
           ∧ coord_le (coord_add (YMax b) default_padding) (YMax box)
           ∧ coord_le (coord_add (ZMax b) default_padding) (ZMax box)).
Proof.
  split; [vm_compute; reflexivity|].
  apply (geometry_bounding_box_is_padded_extrema default_padding Toy.solids Toy.store).
  - discriminate.
  - intros r Hr. unfold Toy.solids in Hr. members; by eexists.
Defined.

(** Two solids followed by the one enclosure entry. *)
Lemma void_seed_witness :
  ∃ init,
    void_init Toy.enclosure_last = Ok init
    ∧ init = match last (meta_list Toy.enclosure_last) with
             | Some l => id_at (objects Toy.enclosure_last) l
                         - Z.of_nat (length (enclosure_list Toy.enclosure_last))
             | None => 0
             end
    ∧ ∀ r (k : nat), r ∈ [0; 1]%nat →
        id_at (objects Toy.enclosure_last) r < init + 1 + Z.of_nat k.
Proof.
  apply (void_seed_clears_cells_before_the_enclosures Toy.enclosure_last [0; 1]%nat [2%nat]).
  - reflexivity.
  - cbn. lia.
  - intros r Hr. cbn [meta_list Toy.enclosure_last] in Hr. members; by eexists.
  - repeat constructor; vm_compute; reflexivity.
Defined.

(** The enclosure entry, identity [1], before a solid, identity [2]:
    the seed is [1] and the first void identity is the solid's. *)
Lemma enclosure_before_solid_collides :
  void_init Toy.enclosure_first = Ok 1
  ∧ ¬ void_ids_clear_of_solids Toy.enclosure_first 1.
Proof.
  split; [vm_compute; reflexivity|]. intros H.
  apply (H 1%nat (Toy.cell 2 false false false 0 None ∅ "solid" 0) 0%nat);
    [repeat constructor|reflexivity..].
Qed.

(** An empty first list discards the three entries of the second; a
    first list of two takes the entry of the second. *)
Lemma join_meta_lists_witness :
  join_meta_lists [[]; [0; 1; 2]%nat] Toy.spline_store = Ok ([], Toy.spline_store)
  ∧ ∃ (h' : heap) l ml,
      last [0; 1]%nat = Some l ∧ Toy.spline_store !! l = Some ml
      ∧ join_meta_lists [[0; 1]; [2]; []]%nat Toy.spline_store = Ok ([0; 1; 2]%nat, h')
      ∧ (∀ r, r ∉ [2%nat] → h' !! r = Toy.spline_store !! r)
      ∧ (∀ (k : nat) r, [2%nat] !! k = Some r →
           ∃ m, Toy.spline_store !! r = Some m
                ∧ h' !! r = Some (set_id (__id__ ml + 1 + Z.of_nat k) m)).
Proof.
  split.
  - by apply (join_meta_lists_depends_on_the_first_list [] [[0; 1; 2]%nat] Toy.spline_store).
  - apply (join_meta_lists_depends_on_the_first_list [0; 1]%nat [[2]; []]%nat Toy.spline_store).
    + discriminate.
    + apply (bool_decide_unpack _). by vm_compute.
    + intros r Hr. cbn [app concat] in Hr. members; by eexists.
Defined.

(** Positions [2] and [0] of a list of four, listed in both orders. *)
Lemma skip_solids_witness :
  delete_skipped [10; 11; 12; 13]%nat [2; 0] = Ok [11; 13]%nat
  ∧ delete_skipped [10; 11; 12; 13]%nat [0; 2] = delete_skipped [10; 11; 12; 13]%nat [2; 0].
Proof.
  destruct (skip_solids_removes_the_listed_positions [10; 11; 12; 13]%nat [2; 0])
    as (Hdel & Hperm & _).
  - apply (bool_decide_unpack _). by vm_compute.
  - intros i Hi. members; cbn; lia.
  - split; [exact Hdel|]. apply Hperm. apply Permutation_swap.
Defined.

End Witnesses.

(** * Further properties of the code

    ** Skipping solids *)

Section SkipProofs.
Context {A : Type}.
Implicit Types (l : list A) (ds : list Z).

Lemma py_del_Raise l i e : py_del l i = Raise e → e = IndexError.
Proof.
  unfold py_del, py_index. repeat case_decide; cbn; congruence.
Qed.

Lemma py_del_Ok l i l' :
  py_del l i = Ok l' →
  - Z.of_nat (length l) ≤ i < Z.of_nat (length l)
  ∧ sublist l' l ∧ length l = S (length l').
Proof.
  unfold py_del, py_index. repeat case_decide; cbn; intros [= <-]; (split; [lia|]).
  - split; [apply sublist_delete|]. rewrite length_delete; [lia|].
    apply lookup_lt_is_Some. lia.
  - split; [apply sublist_delete|]. rewrite length_delete; [lia|].
    apply lookup_lt_is_Some. lia.
Qed.

Lemma foldM_py_del_out_of_range ds : ∀ l d,
  d ∈ ds → Z.of_nat (length l) ≤ d ∨ d < - Z.of_nat (length l) →
  foldM py_del l ds = Raise IndexError.
Proof.
  induction ds as [|a ds IH]; intros l d Hd Hr; [by apply elem_of_nil in Hd|].
  cbn [foldM]. destruct (py_del l a) as [l'|e] eqn:Hdel; cbn [mbind res_bind].
  - apply py_del_Ok in Hdel as (Ha & _ & Hlen).
    apply elem_of_cons in Hd as [->|Hd]; [lia|].
    apply (IH l' d Hd). lia.
  - by rewrite (py_del_Raise _ _ _ Hdel).
Qed.

Lemma foldM_py_del_sublist ds : ∀ l l',
  foldM py_del l ds = Ok l' → sublist l' l ∧ length l = (length l' + length ds)%nat.
Proof.
  induction ds as [|a ds IH]; intros l l' Hrun; cbn [foldM] in Hrun.
  - injection Hrun as <-. split; [done|]. cbn. lia.
  - destruct (py_del l a) as [l1|e] eqn:Hdel; cbn [mbind res_bind] in Hrun; [|done].
    apply py_del_Ok in Hdel as (_ & Hsub & Hlen).
    apply IH in Hrun as [Hsub' Hlen']. split; [by etrans|]. cbn [length]. lia.
Qed.

End SkipProofs.

Lemma StronglySorted_impl_elem {A} (R R' : relation A) (l : list A) :
  StronglySorted R l → (∀ x y, x ∈ l → y ∈ l → R x y → R' x y) → StronglySorted R' l.
Proof.
  induction 1 as [|x xs Hs IH Hx]; intros Himp; [constructor|].
  constructor.
  - apply IH. intros a b Ha Hb. apply Himp; set_solver.
  - rewrite Forall_forall in Hx |- *. intros y Hy. apply Himp; [set_solver..|by apply Hx].
Qed.

Section SkipTheorems.
Context `{KT : KernelTypes} `{C : !Collaborators}.
Implicit Types (h : heap).

(** X1.  An index of [skip_solids] at or beyond the length of the
    loaded list, or below minus the length, makes the deletion loop,
    and with it [load_step_file], raise [IndexError], whatever the
    other indices are. *)
Theorem skip_solids_out_of_range_raises
    (meta_list : list ref) (skip_solids : list Z) (i : Z) :
  i ∈ skip_solids →
  Z.of_nat (length meta_list) ≤ i ∨ i < - Z.of_nat (length meta_list) →
  delete_skipped meta_list skip_solids = Raise IndexError
  ∧ ∀ loaded h h1 h2 el,
      join_meta_lists loaded.*1 h = Ok (meta_list, h1) →
      join_meta_lists loaded.*2 h1 = Ok (el, h2) →
      load_step_file loaded skip_solids h = Raise IndexError.
Proof.
  intros Hi Hr.
  assert (Hdel : delete_skipped meta_list skip_solids = Raise IndexError).
  { unfold delete_skipped. apply (foldM_py_del_out_of_range _ _ i); [|done].
    unfold sorted_reverse. by rewrite merge_sort_Permutation. }
  split; [done|]. intros loaded h h1 h2 el Hj1 Hj2.
  unfold load_step_file. rewrite Hj1. cbn [mbind res_bind]. rewrite Hj2. cbn [mbind res_bind].
  by rewrite Hdel.
Qed.

(** X2.  When the deletion loop succeeds, for any indices (negative
    and repeated ones too), what is left is the loaded list with
    entries taken out, the others in their order, and one entry is
    gone for each index of [skip_solids]. *)
Theorem skip_solids_removes_one_entry_per_index
    (meta_list kept : list ref) (skip_solids : list Z) :
  delete_skipped meta_list skip_solids = Ok kept →
  sublist kept meta_list
  ∧ length meta_list = (length kept + length skip_solids)%nat.
Proof.
  intros Hrun. unfold delete_skipped in Hrun.
  apply foldM_py_del_sublist in Hrun as [Hsub Hlen]. split; [done|].
  rewrite Hlen. f_equal. unfold sorted_reverse.
  apply Permutation_length, merge_sort_Permutation.
Qed.

(** ** Joining the lists of several files *)

(** X3.  [join_meta_lists] keeps the identities increasing: when the
    identities increase strictly along the list of the first file, they
    do along the joined list, so no two of its cells share an
    identity. *)
Theorem join_meta_lists_keeps_identities_increasing
    (first : list ref) (rest : list (list ref)) (h : heap) :
  first ≠ [] → NoDup (first ++ concat rest) → allocated h (first ++ concat rest) →
  StronglySorted (λ r1 r2, id_at h r1 < id_at h r2) first →
  ∃ h' : heap,
    join_meta_lists (first :: rest) h = Ok (first ++ concat rest, h')
    ∧ StronglySorted (λ r1 r2, id_at h' r1 < id_at h' r2) (first ++ concat rest).
Proof.
  intros Hne Hnd Hal Hs. unfold join_meta_lists. rewrite bool_decide_eq_true_2 by done.
  destruct (last first) as [l|] eqn:Hl; [|by apply last_None in Hl].
  destruct (Hal l) as [ml Hml]; [apply elem_of_app; left; by apply last_Some_elem_of|].
  destruct (join_meta_outer rest first h l ml Hnd) as (h' & Hrun & Hout & Hin); [|done..|].
  { intros r Hr. apply Hal. set_solver. }
  exists h'. split; [done|].
  apply NoDup_app in Hnd as (Hnd1 & Hdisj & Hnd2).
  assert (Hfirst : ∀ r, r ∈ first → id_at h' r = id_at h r).
  { intros r Hr. unfold id_at. rewrite Hout; [done|]. by apply Hdisj. }
  assert (Hrest : ∀ (k : nat) r, concat rest !! k = Some r →
            id_at h' r = __id__ ml + 1 + Z.of_nat k).
  { intros k r Hk. destruct (Hin k r Hk) as (m & _ & Hm). unfold id_at. by rewrite Hm. }
  assert (Hle : ∀ r, r ∈ first → id_at h r ≤ __id__ ml).
  { intros r [i Hi]%list_elem_of_lookup. rewrite last_lookup in Hl.
    pose proof (increasing_ids_gap h first i (pred (length first)) r l Hs Hi Hl) as Hgap.
    unfold id_at at 2 in Hgap. rewrite Hml in Hgap.
    apply lookup_lt_Some in Hi. specialize (Hgap ltac:(lia)). lia. }
  apply StronglySorted_app_2.
  - intros r1 r2 Hr1 [k Hk]%list_elem_of_lookup.
    rewrite (Hfirst r1 Hr1), (Hrest k r2 Hk). specialize (Hle r1 Hr1). lia.
  - eapply StronglySorted_impl_elem; [exact Hs|]. intros x y Hx Hy. cbn beta.
    by rewrite !Hfirst.
  - clear Hin Hnd2 Hdisj Hal Hrun Hout. revert Hrest. generalize (__id__ ml + 1) as base.
    induction (concat rest) as [|x xs IH]; intros base Hrest; [constructor|].
    constructor.
    + apply (IH (base + 1)). intros k r Hk.
      rewrite (Hrest (S k) r Hk). lia.
    + apply Forall_forall. intros y [k Hk]%list_elem_of_lookup.
      rewrite (Hrest 0%nat x eq_refl), (Hrest (S k) y Hk). lia.
Qed.

End SkipTheorems.

(** ** Cells excluded from void generation *)

Lemma py_in_str_substring (label comments : string) :
  py_in_str label comments = true
  ↔ ∃ n : nat, String.substring n (String.length label) comments = label.
Proof.
  unfold py_in_str. rewrite bool_decide_eq_true. split.
  - intros [n Hn]. exists n. by apply (String.index_correct1 0).
  - intros [n Hn]. destruct label as [|a label].
    + destruct comments; by eexists.
    + destruct (String.index 0 (String a label) comments) as [k|] eqn:Hk; [by eexists|].
      exfalso. eapply (String.index_correct3 0 n); [exact Hk|done|lia|exact Hn].
Qed.

Section ExcludeProofs.
Context `{KT : KernelTypes} `{C : !Collaborators}.
Implicit Types (h : heap).

Lemma exclude_cells_loop h labelList (l : list ref) : ∀ acc,
  allocated h l →
  foldM (λ voidMeta m,
           o ← deref h m;
           if IsEnclosure o then Ok voidMeta
           else if existsb (λ label, py_in_str label (Comments o)) labelList
                then Ok voidMeta
                else Ok (voidMeta ++ [m]))
        acc l
  = Ok (acc ++ filter (λ r, cell_excluded h labelList r = false) l).
Proof.
  induction l as [|m l IH]; intros acc Hal; cbn [foldM].
  - by rewrite app_nil_r.
  - destruct (Hal m) as [o Ho]; [set_solver|].
    rewrite (deref_Some _ _ _ Ho). cbn [mbind res_bind].
    assert (Hal' : allocated h l) by (intros r Hr; apply Hal; set_solver).
    assert (Hex : cell_excluded h labelList m
                  = IsEnclosure o
                    || existsb (λ label, py_in_str label (Comments o)) labelList).
    { unfold cell_excluded. by rewrite Ho. }
    rewrite filter_cons.
    destruct (IsEnclosure o); cbn [orb] in Hex.
    + rewrite decide_False by (by rewrite Hex). cbn [mbind res_bind]. by apply IH.
    + destruct (existsb _ labelList).
      * rewrite decide_False by (by rewrite Hex). cbn [mbind res_bind]. by apply IH.
      * rewrite decide_True by done. cbn [mbind res_bind]. rewrite IH by done.
        by rewrite <- app_assoc.
Qed.

(** X4.  [exclude_cells] returns, in their order, the cells of the list
    that are no enclosure entry and whose comment contains none of the
    labels as a substring; it raises nothing. *)
Theorem exclude_cells_keeps_the_cells_without_label
    (h : heap) (MetaList : list ref) (labelList : list string) :
  allocated h MetaList →
  exclude_cells h MetaList labelList
  = Ok (filter (λ r, cell_excluded h labelList r = false) MetaList)
  ∧ ∀ r o, h !! r = Some o →
      (cell_excluded h labelList r = true
       ↔ IsEnclosure o = true
         ∨ ∃ label (n : nat),
             label ∈ labelList
             ∧ String.substring n (String.length label) (Comments o) = label).
Proof.
  intros Hal. split.
  - unfold exclude_cells. by rewrite exclude_cells_loop.
  - intros r o Ho. unfold cell_excluded. rewrite Ho, orb_true_iff, existsb_exists.
    split.
    + intros [He|(label & Hin & Hl)]; [by left|right].
      apply py_in_str_substring in Hl as [n Hn]. exists label, n.
      by rewrite list_elem_of_In.
    + intros [He|(label & n & Hin & Hn)]; [by left|right].
      exists label. rewrite <- list_elem_of_In. split; [done|].
      apply py_in_str_substring. by exists n.
Qed.

Lemma void_init_allocated (self : CadToCsg) :
  allocated (objects self) (meta_list self) → is_Ok (void_init self).
Proof.
  intros Hal. unfold void_init. case_bool_decide as Hne; [|by eexists].
  destruct (last (meta_list self)) as [l|] eqn:Hl; [|by apply last_None in Hl].
  unfold py_last. rewrite Hl. cbn [mbind res_bind].
  destruct (Hal l) as [o Ho]; [by apply last_Some_elem_of|].
  rewrite (deref_Some _ _ _ Ho). by eexists.
Qed.

(** X5.  The list void generation receives.  With an empty
    [voidExclude] it is the whole solid list, enclosure entries
    included; with any label in [voidExclude] it is the solid list
    without the enclosure entries and without the cells whose comment
    contains a label. *)
Theorem void_generation_receives_the_reduced_list
    (self : CadToCsg) (box : BoundBox) (Sf : SurfacesDict) :
  Settings.voidGen (settings self) = true →
  allocated (objects self) (meta_list self) →
  geometry_bounding_box self = Some box → Surfaces self = Some Sf →
  ∃ init,
    void_init self = Ok init
    ∧ let meta_reduced :=
        if decide (Settings.voidExclude (settings self) = []) then meta_list self
        else filter (λ r, cell_excluded (objects self)
                            (Settings.voidExclude (settings self)) r = false)
                    (meta_list self) in
      let out := void_generation meta_reduced (enclosure_list self) Sf box init
                   (objects self) in
      void_phase self
      = Ok (log (EvVoidGeneration init) (set_objects out.1.2 (set_Surfaces out.2 self)),
            out.1.1).
Proof.
  intros Hv Hal Hbox HSf. destruct (void_init_allocated self Hal) as [init Hinit].
  exists init. split; [done|]. cbn zeta. unfold void_phase. rewrite Hv.
  destruct (decide (Settings.voidExclude (settings self) = [])) as [He|He].
  - rewrite bool_decide_eq_true_2 by done. cbn [mbind res_bind].
    rewrite Hinit, Hbox, HSf. cbn [mbind res_bind the].
    by destruct (void_generation _ _ _ _ _ _) as [[mv h'] Sf'].
  - rewrite bool_decide_eq_false_2 by done.
    unfold exclude_cells. rewrite exclude_cells_loop by done. cbn [mbind res_bind app].
    rewrite Hinit, Hbox, HSf. cbn [mbind res_bind the].
    by destruct (void_generation _ _ _ _ _ _) as [[mv h'] Sf'].
Qed.

End ExcludeProofs.

(** ** The universe box *)

Section BoxMore.
Context `{KT : KernelTypes} `{C : !Collaborators} `{!CoordOrder}.
Implicit Types (h : heap).

Lemma geometry_bounding_box_run (padding : coord) (l : list ref) h :
  l ≠ [] → allocated h l →
  ∃ ext,
    extrema_of ext (bounding_boxes h l)
    ∧ _get_geometry_bounding_box padding l h
      = Ok (mkBox _ (coord_sub (XMin ext) padding) (coord_sub (YMin ext) padding)
                    (coord_sub (ZMin ext) padding) (coord_add (XMax ext) padding)
                    (coord_add (YMax ext) padding) (coord_add (ZMax ext) padding)).
Proof.
  intros Hne Hal. destruct l as [|m0 rest]; [done|].
  destruct (Hal m0) as [o0 Ho0]; [set_solver|].
  destruct (bounding_box_loop h rest (optimalBoundingBox o0) [optimalBoundingBox o0])
    as (ext & Hrun & Hext).
  { intros r Hr. apply Hal. set_solver. }
  { unfold extrema_of. cbn [fmap list_fmap].
    split_and!; split; try set_solver;
      intros y ->%list_elem_of_singleton; apply coord_le_refl. }
  exists ext. split.
  - unfold bounding_boxes in *. cbn [omap list_omap]. by rewrite Ho0.
  - unfold _get_geometry_bounding_box. rewrite (deref_Some _ _ _ Ho0). cbn [mbind res_bind].
    by rewrite Hrun.
Qed.

Lemma bounding_boxes_subseteq h (l1 l2 : list ref) :
  l1 ⊆ l2 → bounding_boxes h l1 ⊆ bounding_boxes h l2.
Proof.
  intros Hsub b. unfold bounding_boxes. rewrite !list_elem_of_omap.
  intros (r & Hr & Hb). exists r. split; [by apply Hsub|done].
Qed.

(** X6.  The universe box grows with the solid list: when every cell
    of a list is a cell of a second list, the box of the second holds
    the box of the first.  So the box does not depend on the order of
    the list, and loading more solids never shrinks it. *)
Theorem geometry_bounding_box_grows_with_the_list
    (padding : coord) (l1 l2 : list ref) (h : heap) :
  l1 ≠ [] → l1 ⊆ l2 → allocated h l2 →
  ∃ b1 b2,
    _get_geometry_bounding_box padding l1 h = Ok b1
    ∧ _get_geometry_bounding_box padding l2 h = Ok b2
    ∧ box_holds b2 b1.
Proof.
  intros Hne Hsub Hal.
  assert (Hne2 : l2 ≠ []).
  { intros ->. destruct l1 as [|x l1]; [done|]. specialize (Hsub x). set_solver. }
  destruct (geometry_bounding_box_run padding l1 h Hne) as (e1 & He1 & Hr1).
  { intros r Hr. apply Hal. by apply Hsub. }
  destruct (geometry_bounding_box_run padding l2 h Hne2 Hal) as (e2 & He2 & Hr2).
  eexists _, _. split; [exact Hr1|]. split; [exact Hr2|].
  pose proof (bounding_boxes_subseteq h l1 l2 Hsub) as Hbs.
  destruct He1 as ((I1 & _) & (I2 & _) & (I3 & _) & (I4 & _) & (I5 & _) & (I6 & _)).
  destruct He2 as ((_ & M1) & (_ & M2) & (_ & M3) & (_ & M4) & (_ & M5) & (_ & M6)).
  assert (Hin : ∀ (f : BoundBox → coord) x,
            x ∈ f <$> bounding_boxes h l1 → x ∈ f <$> bounding_boxes h l2).
  { intros f x (b & -> & Hb)%list_elem_of_fmap. apply list_elem_of_fmap_2. by apply Hbs. }
  unfold box_holds. cbn [XMin YMin ZMin XMax YMax ZMax]. split_and!.
  - apply coord_sub_mono, M1, Hin, I1.
  - apply coord_sub_mono, M2, Hin, I2.
  - apply coord_sub_mono, M3, Hin, I3.
  - apply coord_add_mono, M4, Hin, I4.
  - apply coord_add_mono, M5, Hin, I5.
  - apply coord_add_mono, M6, Hin, I6.
Qed.

End BoxMore.

(** ** Cone planes of the solid cells *)

Section ConeMore.
Context `{KT : KernelTypes} `{C : !Collaborators}.
Implicit Types (h : heap) (coneInfo : gmap Z (gset Z)).

Lemma process_cones_step_solid coneInfo box h (Sf : SurfacesDict) r o :
  h !! r = Some o → Void o = false →
  process_cones_step coneInfo box (h, Sf) r =
    match coneInfo !! __id__ o with
    | Some cones =>
        Ok (<[r := set_Definition (add_cone_plane (Definition_ o) cones Sf box).1 o]> h,
            (add_cone_plane (Definition_ o) cones Sf box).2)
    | None => Ok (h, Sf)
    end.
Proof.
  intros Ho Hv. unfold process_cones_step.
  rewrite (deref_Some _ _ _ Ho). cbn [mbind res_bind]. rewrite Hv. cbn [negb].
  destruct (coneInfo !! __id__ o) as [cones|] eqn:Hc.
  - rewrite bool_decide_eq_false_2.
    2:{ intros Hn. apply Hn, elem_of_dom. by eexists. }
    cbn [andb]. unfold py_getitem. rewrite Hc. cbn [mbind res_bind].
    by destruct (add_cone_plane _ _ _ _).
  - rewrite bool_decide_eq_true_2; [done|]. by apply not_elem_of_dom.
Qed.

(** X7.  Cone post-processing of a cell that is no void cell: when its
    identity has a cone record, its definition becomes what
    [Conv.add_cone_plane] returns for this record, taken as it is (no
    sign is changed); when it has none, the cell is left as it was. *)
Theorem solid_cell_gets_the_cones_of_its_own_record
    coneInfo (box : BoundBox) (MetaList : list ref) h (Sf : SurfacesDict) r o :
  allocated h MetaList → NoDup MetaList → r ∈ MetaList →
  h !! r = Some o → Void o = false →
  ∃ (h' : heap) (Sf' : SurfacesDict),
    process_cones MetaList coneInfo Sf box h = Ok (h', Sf')
    ∧ match coneInfo !! __id__ o with
      | Some cones =>
          ∃ Sk : SurfacesDict,
            h' !! r = Some (set_Definition (add_cone_plane (Definition_ o) cones Sk box).1 o)
      | None => h' !! r = Some o
      end.
Proof.
  intros Hal Hnd Hr Ho Hv.
  apply list_elem_of_split in Hr as (l1 & l2 & ->).
  apply NoDup_app in Hnd as (_ & Hdisj & [Hr2 _]%NoDup_cons).
  assert (Hr1 : r ∉ l1) by (intros Hin; apply (Hdisj r Hin); set_solver).
  destruct (process_cones_loop coneInfo box l1 h Sf) as (h1 & Sf1 & Hrun1 & Hkeep1 & Hout1).
  { intros r' Hr'. apply Hal. set_solver. }
  assert (Ho1 : h1 !! r = Some o) by (by rewrite Hout1).
  pose proof (process_cones_step_solid coneInfo box h1 Sf1 r o Ho1 Hv) as Hstep.
  unfold process_cones. rewrite foldM_app, Hrun1. cbn [mbind res_bind foldM].
  rewrite Hstep. clear Hstep.
  destruct (coneInfo !! __id__ o) as [cones|]; cbn [mbind res_bind].
  - set (o' := set_Definition (add_cone_plane (Definition_ o) cones Sf1 box).1 o).
    destruct (process_cones_loop coneInfo box l2 (<[r := o']> h1)
                (add_cone_plane (Definition_ o) cones Sf1 box).2)
      as (h2 & Sf2 & Hrun2 & Hkeep2 & Hout2).
    { intros r' Hr'. destruct (decide (r = r')) as [<-|Hne].
      - rewrite lookup_insert_eq. by eexists.
      - rewrite lookup_insert_ne by done.
        destruct (Hal r') as [o1 Ho1']; [set_solver|].
        destruct (Hkeep1 r' o1 Ho1') as [d ->]. by eexists. }
    exists h2, Sf2. split; [done|]. exists Sf1.
    rewrite Hout2 by done. by rewrite lookup_insert_eq.
  - destruct (process_cones_loop coneInfo box l2 h1 Sf1)
      as (h2 & Sf2 & Hrun2 & Hkeep2 & Hout2).
    { intros r' Hr'. destruct (Hal r') as [o1 Ho1']; [set_solver|].
      destruct (Hkeep1 r' o1 Ho1') as [d ->]. by eexists. }
    exists h2, Sf2. split; [done|]. by rewrite Hout2.
Qed.

(** X8.  Cone post-processing writes definitions only: after it every
    object is the object it was with, at most, another definition
    (labels, comments, identities and flags are kept), an object
    outside the list is untouched, and no object is created. *)
Theorem cone_patching_changes_definitions_only
    coneInfo (box : BoundBox) (MetaList : list ref) h (Sf : SurfacesDict) :
  allocated h MetaList →
  ∃ (h' : heap) (Sf' : SurfacesDict),
    process_cones MetaList coneInfo Sf box h = Ok (h', Sf')
    ∧ (∀ r o, h !! r = Some o → ∃ d, h' !! r = Some (set_Definition d o))
    ∧ (∀ r, r ∉ MetaList → h' !! r = h !! r)
    ∧ dom h' = dom h.
Proof.
  intros Hal.
  destruct (process_cones_loop coneInfo box MetaList h Sf Hal) as (h' & Sf' & Hrun & Hk & Ho).
  exists h', Sf'. split_and!; [done..|].
  apply set_eq. intros r. rewrite !elem_of_dom. split.
  - intros Hs. destruct (decide (r ∈ MetaList)) as [Hin|Hin]; [by apply Hal|].
    by rewrite <- Ho.
  - intros [o Hr]. destruct (Hk r o Hr) as [d ->]. by eexists.
Qed.

End ConeMore.

(** ** Numbering: the runs that raise *)

Section NumberingErrors.
Context `{KT : KernelTypes} `{C : !Collaborators}.
Implicit Types (h : heap).

Lemma frozen_inv (o o' : GeounedSolid) :
  frozen o' = frozen o →
  NullCell o' = NullCell o ∧ IsEnclosure o' = IsEnclosure o
  ∧ EnclosureID o' = EnclosureID o ∧ __commentInfo__ o' = __commentInfo__ o.
Proof. unfold frozen. intros [= ? ? ? ? ? ?]. done. Qed.

Lemma same_frozen_refl h : same_frozen h h.
Proof. intros r o Ho. by exists o. Qed.

Lemma same_frozen_insert h0 h r o o' :
  same_frozen h0 h → h !! r = Some o → frozen o' = frozen o →
  same_frozen h0 (<[r := o']> h).
Proof.
  intros Hsf Ho Hfr r' m Hm. destruct (Hsf r' m Hm) as (o2 & Ho2 & Hf2).
  destruct (decide (r = r')) as [<-|Hne].
  - rewrite lookup_insert_eq. exists o'. split; [done|]. congruence.
  - rewrite lookup_insert_ne by done. by exists o2.
Qed.

Lemma same_frozen_fresh h0 h (x : GeounedSolid) :
  same_frozen h0 h → same_frozen h0 (<[fresh (dom h) := x]> h).
Proof.
  intros Hsf r m Hm. destruct (Hsf r m Hm) as (o & Ho & Hf).
  rewrite lookup_insert_ne; [by exists o|].
  symmetry. apply fresh_not_allocated. by eexists.
Qed.

Lemma label_void_step_eq h icount idLabel (newMeta : list ref) e o :
  h !! e = Some o →
  label_void_step (h, icount, idLabel, newMeta) e
  = if NullCell o then Ok (h, icount, idLabel, newMeta)
    else Ok (<[e := set_label (icount + 1) o]> h, icount + 1,
             <[__id__ o := icount + 1]> idLabel, newMeta ++ [e]).
Proof. intros Ho. unfold label_void_step. by rewrite (deref_Some _ _ _ Ho). Qed.

Lemma sort_enclosure_step_eq (G : gmap Z (list ref)) h icount idLabel
    (newMeta : list ref) m o :
  h !! m = Some o →
  sort_enclosure_step G (h, icount, idLabel, newMeta) m
  = if NullCell o then Ok (h, icount, idLabel, newMeta)
    else if IsEnclosure o then
      match G !! EnclosureID o with
      | None => Raise KeyError
      | Some grp =>
          st ← foldM label_void_step
                 (<[fresh (dom h) := comment_cell (enclosure_banner (EnclosureID o))]> h,
                  icount, idLabel, newMeta ++ [fresh (dom h)]) grp;
          Ok (<[fresh (dom st.1.1.1)
                := comment_cell (end_enclosure_banner (EnclosureID o))]> st.1.1.1,
              st.1.1.2, st.1.2, st.2 ++ [fresh (dom st.1.1.1)])
      end
    else Ok (<[m := set_label (icount + 1) o]> h, icount + 1,
             <[__id__ o := icount + 1]> idLabel, newMeta ++ [m]).
Proof.
  intros Ho. unfold sort_enclosure_step. rewrite (deref_Some _ _ _ Ho). cbn [mbind res_bind].
  destruct (NullCell o); [done|]. destruct (IsEnclosure o); [|done].
  unfold new_comment_cell at 1. cbn iota beta. unfold py_getitem.
  destruct (G !! EnclosureID o) as [grp|]; [|done]. cbn [mbind res_bind].
  destruct (foldM label_void_step _ grp) as [[[[h1 ic] il] nm]|e]; [|done].
  done.
Qed.

Lemma flat_void_step_eq idLabel h icount (deleted : list nat) i m o :
  h !! m = Some o →
  flat_void_step idLabel (h, icount, deleted) (i, m)
  = if NullCell o then Ok (h, icount, deleted ++ [i])
    else h' ← update_comment m idLabel (<[m := set_label (icount + 1) o]> h);
         Ok (h', icount + 1, deleted).
Proof. intros Ho. unfold flat_void_step. by rewrite (deref_Some _ _ _ Ho). Qed.

Lemma label_void_loop_same h0 (grp : list ref) : ∀ h icount idLabel newMeta,
  same_frozen h0 h → allocated h0 grp →
  ∃ h' icount' idLabel' newMeta',
    foldM label_void_step (h, icount, idLabel, newMeta) grp
    = Ok (h', icount', idLabel', newMeta')
    ∧ same_frozen h0 h'.
Proof.
  induction grp as [|e grp IH]; intros h icount idLabel newMeta Hsf Hal.
  - by exists h, icount, idLabel, newMeta.
  - destruct (Hal e) as [o0 Ho0]; [set_solver|].
    destruct (Hsf e o0 Ho0) as (o & Ho & Hfr).
    assert (Hal' : allocated h0 grp) by (intros r Hr; apply Hal; set_solver).
    cbn [foldM]. rewrite (label_void_step_eq _ _ _ _ _ _ Ho).
    destruct (NullCell o); cbn [mbind res_bind].
    + by apply IH.
    + apply IH; [|done]. eapply same_frozen_insert; [done..|apply frozen_set_label].
Qed.

Lemma sort_main_loop_outcome h0 (G : gmap Z (list ref)) (ml : list ref) :
  ∀ h icount idLabel newMeta,
  same_frozen h0 h → allocated h0 ml →
  (∀ k grp, G !! k = Some grp → allocated h0 grp) →
  foldM (sort_enclosure_step G) (h, icount, idLabel, newMeta) ml = Raise KeyError
  ∨ ((∃ h' icount' idLabel' newMeta',
        foldM (sort_enclosure_step G) (h, icount, idLabel, newMeta) ml
        = Ok (h', icount', idLabel', newMeta'))
     ∧ ∀ m o, m ∈ ml → h0 !! m = Some o → NullCell o = false → IsEnclosure o = true →
              is_Some (G !! EnclosureID o)).
Proof.
  induction ml as [|m ml IH]; intros h icount idLabel newMeta Hsf Hal HG.
  - right. split; [by exists h, icount, idLabel, newMeta|].
    intros m o Hm. by apply elem_of_nil in Hm.
  - destruct (Hal m) as [o0 Ho0]; [set_solver|].
    destruct (Hsf m o0 Ho0) as (o & Ho & Hfr).
    apply frozen_inv in Hfr as Hfi. destruct Hfi as (Hn & He & Hid & _).
    assert (Hal' : allocated h0 ml) by (intros r Hr; apply Hal; set_solver).
    cbn [foldM]. rewrite (sort_enclosure_step_eq _ _ _ _ _ _ _ Ho).
    destruct (NullCell o) eqn:Hnull; cbn [mbind res_bind].
    { destruct (IH h icount idLabel newMeta Hsf Hal' HG) as [Hr|[Hok Hall]]; [by left|right].
      split; [done|]. intros m' o' [->|Hm']%elem_of_cons Ho' Hn' He'.
      - congruence.
      - by eapply Hall. }
    destruct (IsEnclosure o) eqn:Hencl.
    + destruct (G !! EnclosureID o) as [grp|] eqn:Hgrp; cbn [mbind res_bind]; [|by left].
      destruct (label_void_loop_same h0 grp
                  (<[fresh (dom h) := comment_cell (enclosure_banner (EnclosureID o))]> h)
                  icount idLabel (newMeta ++ [fresh (dom h)]))
        as (h1 & ic1 & il1 & nm1 & Hrun & Hsf1).
      { by apply same_frozen_fresh. }
      { by eapply HG. }
      rewrite Hrun. cbn [mbind res_bind fst snd].
      edestruct IH as [Hr|[Hok Hall]]; [| | |left; exact Hr|right].
      * apply same_frozen_fresh, Hsf1.
      * done.
      * done.
      * split; [exact Hok|]. intros m' o' [->|Hm']%elem_of_cons Ho' Hn' He'.
        -- assert (o' = o0) as -> by congruence. rewrite <- Hid. by eexists.
        -- by eapply Hall.
    + cbn [mbind res_bind].
      edestruct IH as [Hr|[Hok Hall]]; [| | |left; exact Hr|right].
      * eapply same_frozen_insert; [done..|apply frozen_set_label].
      * done.
      * done.
      * split; [exact Hok|]. intros m' o' [->|Hm']%elem_of_cons Ho' Hn' He'.
        -- congruence.
        -- by eapply Hall.
Qed.

(** X9.  [sort_enclosure] reads [newList] at the identity of every
    enclosure entry it meets that is no null cell, and at [0]: when
    the outer region [0] or such an enclosure has no void cell, the
    key is missing and the call raises [KeyError]. *)
Theorem sort_enclosure_needs_void_cells_in_every_region
    (MetaList meta_void : list ref) (offSet : Z) (h0 : heap) :
  allocated h0 (MetaList ++ meta_void) →
  void_group h0 meta_void 0 = []
  ∨ (∃ m o, m ∈ MetaList ∧ h0 !! m = Some o ∧ NullCell o = false
            ∧ IsEnclosure o = true ∧ void_group h0 meta_void (EnclosureID o) = []) →
  sort_enclosure MetaList meta_void offSet h0 = Raise KeyError.
Proof.
  intros Hal Hbad.
  assert (Hal1 : allocated h0 MetaList) by (intros r Hr; apply Hal; set_solver).
  assert (Hal2 : allocated h0 meta_void) by (intros r Hr; apply Hal; set_solver).
  unfold sort_enclosure.
  destruct (group_loop h0 meta_void ∅ Hal2) as (G & HrunG & HG).
  rewrite HrunG. cbn [mbind res_bind].
  assert (HGnone : ∀ k, void_group h0 meta_void k = [] → G !! k = None).
  { intros k Hk. by rewrite HG, decide_True. }
  assert (HGal : ∀ k grp, G !! k = Some grp → allocated h0 grp).
  { intros k grp Hk. rewrite HG in Hk. case_decide; [done|].
    rewrite lookup_empty in Hk. cbn in Hk. injection Hk as <-.
    by apply void_group_allocated. }
  destruct (sort_main_loop_outcome h0 G MetaList h0 offSet {[0 := 0]} []
              (same_frozen_refl h0) Hal1 HGal)
    as [Hr|[(h1 & ic1 & il1 & nm1 & Hrun) Hall]].
  - by rewrite Hr.
  - rewrite Hrun. cbn [mbind res_bind]. unfold new_comment_cell. cbn iota beta.
    destruct Hbad as [H0|(m & o & Hm & Ho & Hn & He & Hg)].
    + unfold py_getitem. by rewrite (HGnone 0 H0).
    + destruct (Hall m o Hm Ho Hn He) as [grp Hgrp].
      by rewrite (HGnone _ Hg) in Hgrp.
Qed.

Lemma sort_enclosure_without_voids (ml : list ref) (c : Z) h out :
  sort_enclosure ml [] c h ≠ Ok out.
Proof.
  unfold sort_enclosure. cbn [foldM mbind res_bind].
  destruct (foldM _ _ ml) as [[[[h1 ic] il] nm]|e]; cbn [mbind res_bind]; [|done].
  unfold new_comment_cell. cbn iota beta. unfold py_getitem. by rewrite lookup_empty.
Qed.

(** *** The flat branch *)

Lemma mapM_getitem_KeyError (idLabel : gmap Z Z) (ids : list Z) :
  mapM (λ i, idLabel !! i) ids = None → mapM (py_getitem idLabel) ids = Raise KeyError.
Proof.
  induction ids as [|i ids IH]; [done|]. cbn [mapM].
  destruct (idLabel !! i) as [l|] eqn:Hi; cbn [mbind option_bind].
  - rewrite (py_getitem_Some _ _ _ Hi). cbn [mbind res_bind].
    destruct (mapM (λ i, idLabel !! i) ids) as [ls|]; [done|]. intros _.
    by rewrite IH.
  - intros _. assert (py_getitem idLabel i = Raise KeyError) as ->; [|done].
    unfold py_getitem. by rewrite Hi.
Qed.

Lemma update_comment_outcome meta idLabel h o :
  h !! meta = Some o →
  match new_comment idLabel o with
  | Some cm => update_comment meta idLabel h = Ok (<[meta := set_Comments cm o]> h)
  | None => update_comment meta idLabel h = Raise KeyError
  end.
Proof.
  intros Ho. destruct (new_comment idLabel o) as [cm|] eqn:Hcm.
  - by apply update_comment_Some.
  - unfold update_comment. rewrite (deref_Some _ _ _ Ho). cbn [mbind res_bind].
    unfold new_comment in Hcm. destruct (__commentInfo__ o) as [[b [ids|]]|]; [|done..].
    destruct (mapM (λ i, idLabel !! i) ids) as [ls|] eqn:Hls; [done|].
    by rewrite (mapM_getitem_KeyError _ _ Hls).
Qed.

Lemma new_comment_None_frozen idLabel (o o' : GeounedSolid) :
  frozen o' = frozen o → new_comment idLabel o = None → new_comment idLabel o' = None.
Proof.
  intros (_ & _ & _ & Hc)%frozen_inv. unfold new_comment. rewrite Hc.
  by destruct (__commentInfo__ o) as [[b [ids|]]|].
Qed.

Lemma flat_void_loop_KeyError h0 idLabel (l : list (nat * ref)) : ∀ h icount deleted,
  same_frozen h0 h → allocated h0 l.*2 →
  (∃ ir o, ir ∈ l ∧ h0 !! ir.2 = Some o ∧ NullCell o = false
           ∧ new_comment idLabel o = None) →
  foldM (flat_void_step idLabel) (h, icount, deleted) l = Raise KeyError.
Proof.
  induction l as [|[i m] l IH]; intros h icount deleted Hsf Hal (ir & ob & Hin & Hob & Hnb & Hcb).
  - by apply elem_of_nil in Hin.
  - destruct (Hal m) as [o0 Ho0]; [set_solver|].
    destruct (Hsf m o0 Ho0) as (o & Ho & Hfr).
    apply frozen_inv in Hfr as Hfi. destruct Hfi as (Hn & _ & _ & _).
    assert (Hal' : allocated h0 l.*2) by (intros r Hr; apply Hal; set_solver).
    cbn [foldM]. rewrite (flat_void_step_eq _ _ _ _ _ _ _ Ho).
    destruct (NullCell o) eqn:Hnull; cbn [mbind res_bind].
    + apply IH; [done..|]. exists ir, ob. split_and!; [|done..].
      apply elem_of_cons in Hin as [->|Hin]; [|done]. cbn in Hob. congruence.
    + set (o1 := set_label (icount + 1) o).
      pose proof (update_comment_outcome m idLabel (<[m := o1]> h) o1
                    (lookup_insert_eq _ _ _)) as Hup.
      destruct (new_comment idLabel o1) as [cm|] eqn:Hcm; rewrite Hup; cbn [mbind res_bind];
        [|done].
      apply IH; [|done|].
      * rewrite insert_insert_eq. eapply same_frozen_insert; [done..|].
        unfold o1. by rewrite frozen_set_Comments, frozen_set_label.
      * exists ir, ob. split_and!; [|done..].
        apply elem_of_cons in Hin as [->|Hin]; [|done]. cbn in Hob.
        assert (ob = o0) as -> by congruence.
        assert (new_comment idLabel o1 = None); [|congruence].
        eapply new_comment_None_frozen; [|exact Hcb].
        unfold o1. by rewrite frozen_set_label.
Qed.

Lemma record_labels_None h c (cells : list ref) (i : Z) :
  i ≠ 0 → (∀ r o, r ∈ cells → h !! r = Some o → __id__ o ≠ i) →
  record_labels h c cells !! i = None.
Proof.
  intros Hi. induction cells as [|x cells IH] using rev_ind; intros Hno.
  - rewrite record_labels_nil. by rewrite lookup_singleton_ne.
  - destruct (h !! x) as [ox|] eqn:Hx.
    + rewrite (record_labels_snoc _ _ _ _ _ Hx). rewrite lookup_insert_ne.
      * apply IH. intros r o Hr. apply Hno. set_solver.
      * apply (Hno x ox); [set_solver|done].
    + rewrite (record_labels_snoc_None _ _ _ _ Hx).
      apply IH. intros r o Hr. apply Hno. set_solver.
Qed.

Lemma mapM_lookup_None (idLabel : gmap Z Z) (ids : list Z) i :
  i ∈ ids → idLabel !! i = None → mapM (λ i, idLabel !! i) ids = None.
Proof.
  intros Hi Hn. destruct (mapM _ ids) as [ls|] eqn:Hls; [|done].
  apply mapM_Some in Hls. apply list_elem_of_lookup in Hi as [k Hk].
  destruct (Forall2_lookup_l _ _ _ _ _ Hls Hk) as (l & _ & Hl). congruence.
Qed.

(** X10.  The flat branch of [start] raises [KeyError] when a void cell
    it keeps records an identity that is neither [0] nor the identity
    of a solid cell it kept: the cross-reference to a solid that was
    dropped as a null cell, or to an enclosure entry, stops the run. *)
Theorem flat_numbering_raises_on_a_reference_to_a_dropped_cell
    (meta_list meta_void : list ref) (c : Z) (h0 : heap) r o b ids i :
  allocated h0 (meta_list ++ meta_void) →
  r ∈ meta_void → h0 !! r = Some o → NullCell o = false →
  __commentInfo__ o = Some (b, Some ids) → i ∈ ids → i ≠ 0 →
  (∀ r' o', r' ∈ flat_solids h0 meta_list → h0 !! r' = Some o' → __id__ o' ≠ i) →
  number_flat meta_list meta_void c h0 = Raise KeyError.
Proof.
  intros Hal Hr Ho Hn Hc Hi Hi0 Hno.
  set (kept := flat_solids h0 meta_list).
  set (idLabel := record_labels h0 c kept).
  set (mc := fresh (dom h0)).
  assert (Hal1 : allocated h0 meta_list) by (intros x Hx; apply Hal; set_solver).
  assert (Hal2 : allocated h0 meta_void) by (intros x Hx; apply Hal; set_solver).
  assert (Hbad : new_comment idLabel o = None).
  { unfold new_comment. rewrite Hc.
    rewrite (mapM_lookup_None idLabel ids i Hi); [done|].
    by apply record_labels_None. }
  unfold number_flat.
  destruct (flat_solid_loop h0 c meta_list [] [] Hal1) as (deleted & Hrun & Hs & Hge & Hmem).
  change (flat_solids h0 []) with (@nil ref) in Hrun.
  rewrite apply_cells_nil, record_labels_nil in Hrun.
  cbn [length app] in Hrun, Hge, Hmem. rewrite Z.add_0_r in Hrun.
  unfold enumerate. rewrite Hrun. cbn [mbind res_bind].
  rewrite (delete_reversed_filter (λ r, is_null h0 r || is_enclosure h0 r = false));
    [|done|intros d Hd; specialize (Hge d Hd); lia|done].
  cbn [mbind res_bind]. fold (flat_solids h0 meta_list). fold kept.
  unfold new_comment_cell. rewrite apply_cells_dom. fold mc.
  fold (comment_cell void_cells_banner). fold idLabel.
  set (hs := <[mc := comment_cell void_cells_banner]> (apply_cells (labelled c) kept h0)).
  assert (Hsf : same_frozen h0 hs).
  { intros x m Hm.
    assert (Hxs : is_Some (hs !! x)).
    { unfold hs. rewrite lookup_insert_ne
        by (symmetry; apply fresh_not_allocated; by eexists).
      apply apply_cells_is_Some. by eexists. }
    destruct Hxs as [ox Hox]. exists ox. split; [done|].
    destruct (flat_start_frozen h0 c kept void_cells_banner x ox) as (m' & Hm' & Hf);
      [by eexists|done|]. congruence. }
  rewrite (flat_void_loop_KeyError h0 idLabel); [done|done| |].
  - intros x Hx. apply Hal2. rewrite snd_zip in Hx; [done|]. rewrite length_seq. lia.
  - apply list_elem_of_lookup in Hr as [k Hk].
    exists (k, r), o. split_and!; [|done..].
    apply list_elem_of_lookup. exists k. apply lookup_zip_with_Some.
    exists k, r. split_and!; [done| |done].
    apply lookup_seq. split; [done|]. by eapply lookup_lt_Some.
Qed.

End NumberingErrors.

(** ** What a run keeps of the instance *)

Section ConfigProofs.
Context `{KT : KernelTypes} `{C : !Collaborators}.

Lemma same_config_refl self : same_config self self.
Proof. by unfold same_config. Qed.

Lemma same_config_trans self1 self2 self3 :
  same_config self1 self2 → same_config self2 self3 → same_config self1 self3.
Proof.
  unfold same_config. intros (?&?&?&?&?) (?&?&?&?&?). split_and!; congruence.
Qed.

Lemma foldM_same_config {A S} (π : S → CadToCsg) (f : S → A → res S) (l : list A) :
  (∀ s a s', f s a = Ok s' → same_config (π s) (π s')) →
  ∀ s s', foldM f s l = Ok s' → same_config (π s) (π s').
Proof.
  intros Hf. induction l as [|x l IH]; intros s s' Hrun.
  - injection Hrun as <-. apply same_config_refl.
  - cbn [foldM] in Hrun. apply bind_Ok_inv in Hrun as (s1 & Hstep & Hrun).
    eapply same_config_trans; [by eapply Hf|by eapply IH].
Qed.

Lemma _export_solids_Ok self self' :
  _export_solids self = Ok self' → self' = log EvExportSolids self.
Proof.
  unfold _export_solids. case_bool_decide; [done|].
  intros (x & _ & Hx)%bind_Ok_inv. by injection Hx as <-.
Qed.

Lemma decompose_step_config meta st im st' :
  decompose_step meta st im = Ok st' → same_config st.1 st'.1.
Proof.
  destruct st as [self w], im as [i r]. unfold decompose_step.
  intros (m & _ & Hm)%bind_Ok_inv.
  destruct (meta && IsEnclosure m).
  - injection Hm as <-. apply same_config_refl.
  - apply bind_Ok_inv in Hm as (solids & _ & Hm).
    apply bind_Ok_inv in Hm as (box & _ & Hm).
    apply bind_Ok_inv in Hm as (Sf & _ & Hm).
    destruct (SplitSolid solids box) as [comsolid err].
    by injection Hm as <-.
Qed.

Lemma _decompose_solids_config meta self st' :
  _decompose_solids meta self = Ok st' → same_config self st'.1.
Proof.
  unfold _decompose_solids. intros Hrun.
  by apply (foldM_same_config fst _ _ (decompose_step_config meta)) in Hrun.
Qed.

Lemma decompose_enclosures_config self self' :
  decompose_enclosures self = Ok self' → same_config self self'.
Proof.
  unfold decompose_enclosures.
  destruct (Settings.voidGen (settings self) && bool_decide (enclosure_list self ≠ [])).
  - intros ([s w] & Hd & Hs)%bind_Ok_inv. injection Hs as <-.
    by apply _decompose_solids_config in Hd.
  - intros [= <-]. apply same_config_refl.
Qed.

Lemma build_cell_config st r st' :
  build_cell st r = Ok st' → same_config st.1 st'.1.
Proof.
  destruct st as [self coneInfo]. unfold build_cell.
  intros (m & _ & Hm)%bind_Ok_inv.
  apply bind_Ok_inv in Hm as (box & _ & Hm).
  apply bind_Ok_inv in Hm as (Sf & _ & Hm).
  destruct (cellDef m Sf box) as [[m' Sf'] cones].
  by injection Hm as <-.
Qed.

Lemma build_solid_step_config st r st' :
  build_solid_step st r = Ok st' → same_config st.1 st'.1.
Proof.
  unfold build_solid_step. intros (m & _ & Hm)%bind_Ok_inv.
  destruct (IsEnclosure m).
  - injection Hm as <-. apply same_config_refl.
  - by apply build_cell_config in Hm.
Qed.

Lemma void_phase_config self st' :
  void_phase self = Ok st' →
  same_config self st'.1 ∧ (Settings.voidGen (settings self) = false → st'.2 = []).
Proof.
  unfold void_phase. destruct (Settings.voidGen (settings self)).
  - intros (meta_reduced & _ & Hm)%bind_Ok_inv.
    apply bind_Ok_inv in Hm as (init & _ & Hm).
    apply bind_Ok_inv in Hm as (box & _ & Hm).
    apply bind_Ok_inv in Hm as (Sf & _ & Hm).
    destruct (void_generation _ _ _ _ _ _) as [[meta_void h] Sf'].
    by injection Hm as <-.
  - intros [= <-]. split; [apply same_config_refl|done].
Qed.

Lemma simplify_step_config self c self' :
  simplify_step self c = Ok self' → same_config self self'.
Proof.
  unfold simplify_step. intros (o & _ & Ho)%bind_Ok_inv.
  destruct (bool_decide (level (Definition_ o) = 0) || IsEnclosure o).
  - injection Ho as <-. apply same_config_refl.
  - apply bind_Ok_inv in Ho as (Surfs & _ & Ho). by injection Ho as <-.
Qed.

Lemma build_phase_config self coneInfo st' :
  (if negb (Options.Facets (options self)) then
     '(self, _) ← _decompose_solids true self;
     self ← decompose_enclosures self;
     '(self, coneInfo) ← foldM build_solid_step (self, coneInfo) (meta_list self);
     if Options.forceNoOverlap (options self) then
       Sf ← the (Surfaces self);
       let '(h, Sf) := no_overlapping_cell (meta_list self) (objects self) Sf in
       Ok (log EvNoOverlap (set_objects h (set_Surfaces Sf self)), coneInfo)
     else Ok (self, coneInfo)
   else
     Sf ← the (Surfaces self);
     box ← the (geometry_bounding_box self);
     let '(h, Sf) := translate (meta_list self) (objects self) Sf box in
     let self := log EvTranslate (set_objects h (set_Surfaces Sf self)) in
     self ← decompose_enclosures self;
     Ok (self, coneInfo)) = Ok st' →
  same_config self st'.1.
Proof.
  destruct (negb (Options.Facets (options self))).
  - intros ([self1 w] & H1 & H)%bind_Ok_inv.
    apply _decompose_solids_config in H1.
    apply bind_Ok_inv in H as (self2 & H2 & H).
    apply decompose_enclosures_config in H2.
    apply bind_Ok_inv in H as ([self3 coneInfo3] & H3 & H).
    apply (foldM_same_config fst _ _ build_solid_step_config) in H3. cbn [fst] in *.
    assert (H13 : same_config self self3).
    { eapply same_config_trans; [exact H1|]. by eapply same_config_trans. }
    destruct (Options.forceNoOverlap (options self3)).
    + apply bind_Ok_inv in H as (Sf & _ & H).
      destruct (no_overlapping_cell _ _ _) as [h Sf'].
      injection H as <-. cbn [fst].
      eapply same_config_trans; [exact H13|]. done.
    + by injection H as <-.
  - intros (Sf & _ & H)%bind_Ok_inv.
    apply bind_Ok_inv in H as (box & _ & H).
    destruct (translate _ _ _ _) as [h Sf'].
    apply bind_Ok_inv in H as (self2 & H2 & H).
    apply decompose_enclosures_config in H2. injection H as <-. cbn [fst].
    eapply same_config_trans; [|exact H2]. done.
Qed.

(** A run of [start] that returns, cut at the numbering. *)
Lemma start_Ok_inv (self self' : CadToCsg) :
  start self = Ok self' →
  ∃ (before : CadToCsg) (meta_void numbered : list ref) (coneInfo : gmap Z (gset Z))
    (box : BoundBox) (Sf Sf' : SurfacesDict) (h h' : heap),
    _get_geometry_bounding_box default_padding (meta_list self) (objects self) = Ok box
    ∧ settings before = settings self ∧ options before = options self
    ∧ meta_list before = meta_list self ∧ enclosure_list before = enclosure_list self
    ∧ geometry_bounding_box before = Some box
    ∧ Surfaces before = Some Sf
    ∧ (Settings.voidGen (settings self) = false → meta_void = [])
    ∧ (if bool_decide (enclosure_list before ≠ [])
          && Settings.sort_enclosure (settings before)
       then sort_enclosure (meta_list before) meta_void
              (Settings.startCell (settings before) - 1) (objects before)
       else number_flat (meta_list before) meta_void
              (Settings.startCell (settings before) - 1) (objects before))
      = Ok (numbered, h)
    ∧ process_cones numbered coneInfo Sf box h = Ok (h', Sf')
    ∧ self' = set_objects h' (set_Surfaces Sf'
                (log EvProcessCones (set_objects h (set_meta_list numbered
                   (log EvNumbering before))))).
Proof.
  intros H. unfold start in H. case_bool_decide; [done|].
  apply bind_Ok_inv in H as (self1 & H1 & H).
  assert (E1 : same_config self self1 ∧ objects self1 = objects self).
  { destruct (bool_decide (Settings.exportSolids (settings self) ≠ "")).
    - apply _export_solids_Ok in H1 as ->. done.
    - by injection H1 as <-. }
  destruct E1 as [(Es1 & Eo1 & Em1 & Ee1 & _) Eobj1].
  apply bind_Ok_inv in H as (box & Hbox & H).
  rewrite Em1, Eobj1 in Hbox.
  set (self2 := set_Surfaces _ (set_geometry_bounding_box box self1)) in H.
  assert (E2 : settings self2 = settings self ∧ options self2 = options self
               ∧ meta_list self2 = meta_list self ∧ enclosure_list self2 = enclosure_list self
               ∧ geometry_bounding_box self2 = Some box) by done.
  apply bind_Ok_inv in H as ([self3 coneInfo3] & H3 & H).
  apply build_phase_config in H3. cbn [fst] in H3.
  apply bind_Ok_inv in H as ([self4 coneInfo4] & H4 & H).
  assert (A4 : same_config self3 self4).
  { destruct (Settings.voidGen (settings self3) && bool_decide (enclosure_list self3 ≠ [])).
    - by apply (foldM_same_config fst _ _ build_cell_config) in H4.
    - injection H4 as <- <-. apply same_config_refl. }
  apply bind_Ok_inv in H as ([self5 meta_void] & H5 & H).
  apply void_phase_config in H5 as [A5 Hvoid]. cbn [fst snd] in A5, Hvoid.
  apply bind_Ok_inv in H as (self6 & H6 & H).
  assert (A6 : same_config self5 self6).
  { destruct (bool_decide (Settings.simplify (settings self5) = "full")).
    - by apply (foldM_same_config id _ _ simplify_step_config) in H6.
    - injection H6 as <-. apply same_config_refl. }
  assert (A26 : same_config self2 self6).
  { eapply same_config_trans; [exact H3|]. eapply same_config_trans; [exact A4|].
    by eapply same_config_trans. }
  pose proof (same_config_trans _ _ _ H3 A4) as A24.
  destruct A26 as (Es & Eo & Em & Ee & Eb). destruct E2 as (Es2 & Eo2 & Em2 & Ee2 & Eb2).
  apply bind_Ok_inv in H as ([numbered h] & Hnum & H).
  apply bind_Ok_inv in H as (Sf & HSf & H).
  apply bind_Ok_inv in H as (box' & Hbox' & H).
  apply bind_Ok_inv in H as ([h' Sf'] & Hcones & H).
  injection H as <-.
  cbn [Surfaces geometry_bounding_box set_objects set_meta_list log set_Surfaces
       meta_list objects] in HSf, Hbox', Hcones.
  assert (box' = box) as ->.
  { rewrite Eb, Eb2 in Hbox'. unfold the in Hbox'. congruence. }
  exists self6, meta_void, numbered, coneInfo4, box, Sf, Sf', h, h'.
  split_and!; try congruence.
  - unfold the in HSf. by destruct (Surfaces self6); simplify_eq.
  - intros Hv. apply Hvoid. destruct A24 as (Es4 & _). congruence.
  - exact Hnum.
Qed.

(** X11.  A run of [start] that returns leaves the settings, the options
    and the enclosure list of the instance as they were; the universe
    box it leaves is the box of the solid list it started from with
    the default padding, whatever box the instance held before; and
    the registry of surfaces is set. *)
Theorem start_keeps_the_configuration_and_sets_the_default_box
    (self self' : CadToCsg) :
  start self = Ok self' →
  settings self' = settings self ∧ options self' = options self
  ∧ enclosure_list self' = enclosure_list self
  ∧ (∃ box, _get_geometry_bounding_box default_padding (meta_list self) (objects self)
            = Ok box
            ∧ geometry_bounding_box self' = Some box)
  ∧ is_Some (Surfaces self').
Proof.
  intros (before & mv & numbered & coneInfo & box & Sf & Sf' & h & h'
          & Hbox & Es & Eo & Em & Ee & Eb & HSf & _ & _ & _ & ->)%start_Ok_inv.
  split_and!; [done..| |by eexists]. exists box. by split.
Qed.

(** X12.  [start] cannot return when [sort_enclosure] is asked for
    without void generation on a model with enclosures:
    [sort_enclosure] then receives no void cell and reads a key that
    [newList] does not have. *)
Theorem start_cannot_sort_enclosures_without_void_generation (self : CadToCsg) :
  Settings.voidGen (settings self) = false →
  Settings.sort_enclosure (settings self) = true →
  enclosure_list self ≠ [] →
  ∀ self', start self ≠ Ok self'.
Proof.
  intros Hv Hs He self'
    (before & mv & numbered & coneInfo & box & Sf & Sf' & h & h'
     & Hbox & Es & Eo & Em & Ee & Eb & HSf & Hvoid & Hnum & _)%start_Ok_inv.
  rewrite Ee, Es, Hs, (Hvoid Hv) in Hnum.
  rewrite bool_decide_eq_true_2 in Hnum by done. cbn [andb] in Hnum.
  by eapply sort_enclosure_without_voids.
Qed.

End ConfigProofs.

(** ** The void cells [sort_enclosure] leaves out *)

Section SortMore.
Context `{KT : KernelTypes} `{C : !Collaborators}.
Implicit Types (h : heap).

Lemma sorted_cells_origin h (ml mv : list ref) r :
  r ∈ sorted_cells h ml mv →
  r ∈ ml
  ∨ (r ∈ mv ∧ EnclosureID <$> h !! r = Some 0)
  ∨ (r ∈ mv ∧ ∃ m om, m ∈ ml ∧ h !! m = Some om ∧ NullCell om = false
                      ∧ IsEnclosure om = true
                      ∧ EnclosureID <$> h !! r = Some (EnclosureID om)).
Proof.
  unfold sorted_cells. intros [Hr|Hr]%elem_of_app.
  - apply list_elem_of_bind in Hr as (m & Hr & Hm). unfold emitted_for in Hr.
    destruct (h !! m) as [om|] eqn:Hom; [|by apply elem_of_nil in Hr].
    destruct (NullCell om) eqn:Hn; [by apply elem_of_nil in Hr|].
    destruct (IsEnclosure om) eqn:He.
    + unfold flat_voids, void_group in Hr.
      apply list_elem_of_filter in Hr as [_ Hr]. apply list_elem_of_filter in Hr as [Hid Hr].
      right. right. split; [done|]. by exists m, om.
    + apply list_elem_of_singleton in Hr as ->. by left.
  - unfold flat_voids, void_group in Hr.
    apply list_elem_of_filter in Hr as [_ Hr]. apply list_elem_of_filter in Hr as [Hid Hr].
    right. left. by split.
Qed.

(** X13.  [sort_enclosure] emits the void cells of the outer region and
    of the enclosures it meets in the solid list, and no other: a void
    cell whose [EnclosureID] is not [0] and is the identity of no
    enclosure entry of the list that is not a null cell is not in the
    output, and it gets no label. *)
Theorem sort_enclosure_leaves_out_the_void_cells_of_a_missing_enclosure
    (MetaList meta_void : list ref) (offSet : Z) (h0 : heap) r o :
  sort_ready h0 MetaList meta_void offSet →
  r ∈ meta_void → r ∉ MetaList → h0 !! r = Some o → EnclosureID o ≠ 0 →
  (∀ m om, m ∈ MetaList → h0 !! m = Some om → NullCell om = false →
           IsEnclosure om = true → EnclosureID om ≠ EnclosureID o) →
  ∃ out (h' : heap),
    sort_enclosure MetaList meta_void offSet h0 = Ok (out, h')
    ∧ (r ∉ out) ∧ h' !! r = Some o.
Proof.
  intros Hready Hr Hnot Ho Hid Hmiss.
  destruct (sort_enclosure_pointwise MetaList meta_void offSet h0 Hready)
    as (out & h' & Hrun & Hout & _ & _ & Hother).
  assert (Hcells : r ∉ sorted_cells h0 MetaList meta_void).
  { intros [Hin|[[_ H0]|[_ (m & om & Hm & Hom & Hn & He & Heq)]]]%sorted_cells_origin.
    - done.
    - rewrite Ho in H0. cbn in H0. congruence.
    - rewrite Ho in Heq. cbn in Heq. eapply Hmiss; [done..|congruence]. }
  exists out, h'. split_and!; [done| |].
  - intros Hin. apply Hcells. rewrite <- Hout. apply list_elem_of_filter.
    split; [by eexists|done].
  - rewrite Hother; [done|by eexists|done].
Qed.

End SortMore.

(** ** Exporting and decomposing the solids *)

Section ExportMore.
Context `{KT : KernelTypes} `{C : !Collaborators}.
Implicit Types (h : heap).

Lemma export_loop h (l : list ref) : ∀ (acc : list Shape),
  allocated h l →
  ((∃ r o, r ∈ l ∧ h !! r = Some o ∧ IsEnclosure o = false ∧ Solids o = None) →
   foldM (λ solids m, o ← deref h m;
            if IsEnclosure o then Ok solids else s ← the (Solids o); Ok (solids ++ s))
         acc l = Raise TypeError)
  ∧ ((∀ r o, r ∈ l → h !! r = Some o → IsEnclosure o = false → is_Some (Solids o)) →
     is_Ok (foldM (λ solids m, o ← deref h m;
              if IsEnclosure o then Ok solids else s ← the (Solids o); Ok (solids ++ s))
            acc l)).
Proof.
  induction l as [|m l IH]; intros acc Hal.
  - split; [intros (r & o & Hr & _); by apply elem_of_nil in Hr|]. intros _. by eexists.
  - destruct (Hal m) as [om Hom]; [set_solver|].
    assert (Hal' : allocated h l) by (intros r Hr; apply Hal; set_solver).
    cbn [foldM]. rewrite (deref_Some _ _ _ Hom). cbn [mbind res_bind].
    destruct (IsEnclosure om) eqn:He; cbn [mbind res_bind].
    + destruct (IH acc Hal') as [IH1 IH2]. split.
      * intros (r & o & [->|Hr]%elem_of_cons & Ho & Hne & Hs); [congruence|].
        apply IH1. by exists r, o.
      * intros Hall. apply IH2. intros r o Hr. apply Hall. set_solver.
    + destruct (Solids om) as [s|] eqn:Hs; cbn [the mbind res_bind].
      * destruct (IH (acc ++ s) Hal') as [IH1 IH2]. split.
        -- intros (r & o & [->|Hr]%elem_of_cons & Ho & Hne & Hs'); [congruence|].
           apply IH1. by exists r, o.
        -- intros Hall. apply IH2. intros r o Hr. apply Hall. set_solver.
      * split; [done|]. intros Hall.
        destruct (Hall m om) as [s Hs']; [set_solver|done..|congruence].
Qed.

(** X14.  [_export_solids] raises [ValueError] on an empty solid list,
    and [TypeError] when an entry that is no enclosure entry has no
    solids ([Solids] is [None]); otherwise it collects the solids of
    the entries that are no enclosure entries, reaches the export and
    changes nothing of the instance.  An enclosure entry is never
    read for its solids. *)
Theorem export_solids_outcome (self : CadToCsg) :
  allocated (objects self) (meta_list self) →
  (meta_list self = [] → _export_solids self = Raise ValueError)
  ∧ (meta_list self ≠ [] →
     (∃ r o, r ∈ meta_list self ∧ objects self !! r = Some o
             ∧ IsEnclosure o = false ∧ Solids o = None) →
     _export_solids self = Raise TypeError)
  ∧ (meta_list self ≠ [] →
     (∀ r o, r ∈ meta_list self → objects self !! r = Some o →
             IsEnclosure o = false → is_Some (Solids o)) →
     _export_solids self = Ok (log EvExportSolids self)).
Proof.
  intros Hal. destruct (export_loop (objects self) (meta_list self) [] Hal) as [Hbad Hgood].
  unfold _export_solids. split_and!.
  - intros ->. by rewrite bool_decide_eq_true_2.
  - intros Hne Hex. rewrite bool_decide_eq_false_2 by done. by rewrite (Hbad Hex).
  - intros Hne Hall. rewrite bool_decide_eq_false_2 by done.
    destruct (Hgood Hall) as [solids ->]. done.
Qed.

End ExportMore.

Section DecomposeProofs.
Context `{KT : KernelTypes} `{C : !Collaborators}.
Implicit Types (h : heap).

Lemma decompose_step_eq meta (self : CadToCsg) (warningSolids : list nat) (i : nat) r o :
  objects self !! r = Some o →
  decompose_step meta (self, warningSolids) (i, r)
  = if meta && IsEnclosure o then Ok (self, warningSolids)
    else
      solids ← the (Solids o);
      box ← the (geometry_bounding_box self);
      Sf ← the (Surfaces self);
      let '(comsolid, err) := SplitSolid solids box in
      let warningSolids :=
        if bool_decide (err ≠ 0) then warningSolids ++ [i] else warningSolids in
      let self := set_Surfaces (extend_surfaces Sf comsolid box) self in
      let self := set_objects (<[r := update_solids o comsolid]> (objects self)) self in
      Ok (log (EvSplitSolid r) self, warningSolids).
Proof. intros Ho. unfold decompose_step. by rewrite (deref_Some _ _ _ Ho). Qed.

Lemma decompose_loop meta (self : CadToCsg) (box : BoundBox) (l : list ref) :
  NoDup l → allocated (objects self) l →
  geometry_bounding_box self = Some box →
  (∀ r, r ∈ l → decomposed meta (objects self) r = true → has_solids (objects self) r) →
  ∀ (suf done : list ref) (st : CadToCsg * list nat),
    l = done ++ suf → decompose_inv meta self box done st →
    ∃ st', foldM (decompose_step meta) st (zip (seq (length done) (length suf)) suf) = Ok st'
           ∧ decompose_inv meta self box l st'.
Proof.
  intros Hnd Hal Hbox Hsol. induction suf as [|r suf IH]; intros done [selfk warn] Hl Hinv.
  - exists (selfk, warn). split; [done|]. by rewrite Hl, app_nil_r.
  - assert (Hrl : r ∈ l) by (rewrite Hl; set_solver).
    assert (Hrd : r ∉ done).
    { rewrite Hl in Hnd. apply NoDup_app in Hnd as (_ & Hdisj & _).
      intros Hin. apply (Hdisj r Hin). set_solver. }
    destruct (Hal r Hrl) as [o Ho].
    destruct Hinv as (Hcfg & [Sf HSf] & Htr & Hout & Hin & Hw). cbn [fst snd] in *.
    set (split := filter (λ r, decomposed meta (objects self) r = true) done) in *.
    assert (Hrs : r ∉ split).
    { intros [_ ?]%list_elem_of_filter. done. }
    assert (Hok : objects selfk !! r = Some o) by (by rewrite Hout).
    assert (Hdec : decomposed meta (objects self) r = negb (meta && IsEnclosure o)).
    { unfold decomposed. by rewrite Ho. }
    cbn [length seq zip zip_with foldM].
    rewrite (decompose_step_eq _ _ _ _ _ _ Hok).
    destruct (meta && IsEnclosure o) eqn:Hskip; cbn [negb] in Hdec.
    + cbn [mbind res_bind].
      destruct (IH (done ++ [r]) (selfk, warn)) as (st' & Hrun & Hinv').
      { by rewrite <- app_assoc. }
      { unfold decompose_inv. cbn [fst snd]. rewrite filter_app, filter_cons.
        rewrite decide_False by (by rewrite Hdec). rewrite filter_nil, app_nil_r.
        fold split. split_and!; [done|by eexists|done..|].
        intros i. rewrite Hw. split.
        - intros (r' & o' & s' & Hi & Hrest). exists r', o', s'. split; [|done].
          by apply lookup_app_l_Some.
        - intros (r' & o' & s' & Hi & Ho' & Hd' & Hrest).
          apply lookup_snoc_Some in Hi as [[_ Hi]|[_ <-]]; [by exists r', o', s'|].
          congruence. }
      exists st'. split; [|done]. rewrite length_app in Hrun. cbn [length] in Hrun.
      by replace (length done + 1)%nat with (S (length done)) in Hrun by lia.
    + destruct (Hsol r Hrl) as (o' & Ho' & solids & Hs); [by rewrite Hdec|].
      assert (o' = o) as -> by congruence.
      destruct Hcfg as (Es & Eo & Em & Ee & Eb).
      rewrite Hs, Eb, Hbox, HSf. cbn [the mbind res_bind].
      destruct (SplitSolid solids box) as [comsolid err] eqn:Hsplit.
      cbn [mbind res_bind].
      match goal with |- ∃ st', foldM _ ?s _ = _ ∧ _ =>
        destruct (IH (done ++ [r]) s) as (st' & Hrun & Hinv') end.
      { by rewrite <- app_assoc. }
      { unfold decompose_inv. cbn [fst snd]. rewrite filter_app, filter_cons.
        rewrite decide_True by (by rewrite Hdec). rewrite filter_nil.
        fold split. split_and!.
        - done.
        - by eexists.
        - cbn [trace log set_objects set_Surfaces]. rewrite Htr, fmap_app.
          by rewrite <- app_assoc.
        - intros r' Hr'. cbn [objects log set_objects set_Surfaces].
          rewrite lookup_insert_ne by set_solver. apply Hout. set_solver.
        - intros r' o' s' [Hr'|Hr']%elem_of_app Ho'' Hs';
            [|apply list_elem_of_singleton in Hr' as ->].
          + cbn [objects log set_objects set_Surfaces].
            rewrite lookup_insert_ne by (intros ->; done). by eapply Hin.
          + cbn [objects log set_objects set_Surfaces]. rewrite lookup_insert_eq.
            assert (o' = o) as -> by congruence.
            assert (s' = solids) as -> by congruence. by rewrite Hsplit.
        - intros i. split.
          + case_bool_decide as Herr.
            * intros [Hi|Hi]%elem_of_app; [|apply list_elem_of_singleton in Hi as ->].
              -- apply Hw in Hi as (r' & o' & s' & Hi & Hrest).
                 exists r', o', s'. split; [|done]. by apply lookup_app_l_Some.
              -- exists r, o, solids. split_and!; [|done|by rewrite Hdec|done|].
                 ++ apply lookup_snoc_Some. by right.
                 ++ by rewrite Hsplit.
            * intros Hi. apply Hw in Hi as (r' & o' & s' & Hi & Hrest).
              exists r', o', s'. split; [|done]. by apply lookup_app_l_Some.
          + intros (r' & o' & s' & Hi & Ho'' & Hd' & Hs' & Herr').
            apply lookup_snoc_Some in Hi as [[_ Hi]|[-> <-]].
            * assert (i ∈ warn) by (apply Hw; by exists r', o', s').
              case_bool_decide; set_solver.
            * assert (o' = o) as -> by congruence.
              assert (s' = solids) as -> by congruence.
              rewrite Hsplit in Herr'. cbn [snd] in Herr'.
              rewrite bool_decide_eq_true_2 by done. set_solver. }
      exists st'. split; [|done]. rewrite length_app in Hrun. cbn [length] in Hrun.
      by replace (length done + 1)%nat with (S (length done)) in Hrun by lia.
Qed.

(** X15.  [_decompose_solids] on a list that holds each cell once.  It
    visits the list in order and splits every entry but, with
    [meta=True], the enclosure entries: a split cell becomes the cell
    with the solids of its split, built from the solids it had at the
    call and the universe box; the other objects are untouched.  The
    list it returns holds the positions of the split cells whose split
    reported an error, and the lists, settings and box of the instance
    are kept. *)
Theorem decompose_solids_splits_each_cell_once
    (meta : bool) (self : CadToCsg) (box : BoundBox) (Sf : SurfacesDict) :
  let l := if meta then meta_list self else enclosure_list self in
  let split := filter (λ r, decomposed meta (objects self) r = true) l in
  NoDup l → allocated (objects self) l →
  geometry_bounding_box self = Some box → Surfaces self = Some Sf →
  (∀ r, r ∈ split → has_solids (objects self) r) →
  ∃ self' warningSolids,
    _decompose_solids meta self = Ok (self', warningSolids)
    ∧ same_config self self'
    ∧ trace self' = trace self ++ (EvSplitSolid <$> split)
    ∧ (∀ r, r ∉ split → objects self' !! r = objects self !! r)
    ∧ (∀ r o solids, r ∈ split → objects self !! r = Some o → Solids o = Some solids →
         objects self' !! r = Some (update_solids o (SplitSolid solids box).1))
    ∧ (∀ i : nat, i ∈ warningSolids ↔
         ∃ r o solids, l !! i = Some r ∧ objects self !! r = Some o
                       ∧ decomposed meta (objects self) r = true
                       ∧ Solids o = Some solids ∧ (SplitSolid solids box).2 ≠ 0).
Proof.
  intros l split Hnd Hal Hbox HSf Hsol.
  destruct (decompose_loop meta self box l Hnd Hal Hbox) with (suf := l) (done := @nil ref)
    (st := (self, @nil nat)) as ([self' warn] & Hrun & Hinv).
  - intros r Hr Hd. apply Hsol. by apply list_elem_of_filter.
  - done.
  - unfold decompose_inv. cbn [fst snd]. rewrite filter_nil.
    split_and!; [apply same_config_refl|by eexists|by rewrite app_nil_r|done| |].
    + intros r o s Hr. by apply elem_of_nil in Hr.
    + intros i. split; [intros Hi; by apply elem_of_nil in Hi|].
      intros (r & o & s & Hi & _). done.
  - exists self', warn. unfold _decompose_solids, enumerate. fold l.
    cbn [length] in Hrun. split; [exact Hrun|].
    destruct Hinv as (H1 & _ & H3 & H4 & H5 & H6). done.
Qed.

End DecomposeProofs.

(** ** [export_csg] and [from_json] *)

Section EntryProofs.
Context `{KT : KernelTypes} `{C : !Collaborators}.






End EntryProofs.

Section FromJsonProofs.
Context {V Inst : Type} `{!ConfigCollaborators V Inst}.
Implicit Types (config : list (string * V)) (cad : Inst).

Lemma from_json_key_unknown config cad key :
  key ∉ config_keys → from_json_key config cad key = Raise ValueError.
Proof.
  intros Hk. unfold from_json_key, config_keys in *.
  repeat (rewrite bool_decide_eq_false_2; [|intros ?; apply Hk; set_solver]). done.
Qed.

Lemma from_json_key_known config cad key :
  setters_total → key ∈ config.*1 → key ∈ config_keys →
  is_Ok (from_json_key config cad key).
Proof.
  intros Htot Hin Hk.
  assert (Hget : ∃ v, py_getitem (list_to_map config : gmap string V) key = Ok v).
  { destruct ((list_to_map config : gmap string V) !! key) as [v|] eqn:Hv.
    - exists v. unfold py_getitem. by rewrite Hv.
    - by apply not_elem_of_list_to_map in Hv. }
  destruct Hget as [v Hv]. destruct (Htot v cad) as (H1 & H2 & H3 & H4).
  unfold from_json_key, config_keys in *. cbn zeta.
  repeat (apply elem_of_cons in Hk as [->|Hk]); [..|by apply elem_of_nil in Hk].
  - rewrite bool_decide_eq_true_2 by set_solver. by eexists.
  - rewrite bool_decide_eq_true_2 by set_solver. by eexists.
  - rewrite bool_decide_eq_false_2 by set_solver.
    rewrite bool_decide_eq_true_2 by done. by rewrite Hv.
  - rewrite bool_decide_eq_false_2 by set_solver.
    rewrite bool_decide_eq_false_2 by done.
    rewrite bool_decide_eq_true_2 by done. by rewrite Hv.
  - rewrite bool_decide_eq_false_2 by set_solver.
    do 2 rewrite bool_decide_eq_false_2 by done.
    rewrite bool_decide_eq_true_2 by done. by rewrite Hv.
  - rewrite bool_decide_eq_false_2 by set_solver.
    do 3 rewrite bool_decide_eq_false_2 by done.
    rewrite bool_decide_eq_true_2 by done. by rewrite Hv.
Qed.

Lemma config_loop_unknown config (keys : list string) : ∀ cad key,
  key ∈ keys → key ∉ config_keys →
  (∃ e, foldM (from_json_key config) cad keys = Raise e)
  ∧ (setters_total → keys ⊆ config.*1 →
     foldM (from_json_key config) cad keys = Raise ValueError).
Proof.
  induction keys as [|k keys IH]; intros cad key Hin Hk; [by apply elem_of_nil in Hin|].
  cbn [foldM]. destruct (decide (k ∈ config_keys)) as [Hkk|Hkk].
  - assert (Hkey : key ∈ keys).
    { apply elem_of_cons in Hin as [->|?]; done. }
    destruct (from_json_key config cad k) as [cad'|e] eqn:Hstep; cbn [mbind res_bind].
    + destruct (IH cad' key Hkey Hk) as [He Hv]. split; [done|].
      intros Htot Hsub. apply Hv; [done|]. set_solver.
    + split; [by eexists|]. intros Htot Hsub.
      destruct (from_json_key_known config cad k Htot) as [x Hx]; [set_solver|done|].
      congruence.
  - rewrite (from_json_key_unknown _ _ _ Hkk). cbn [mbind res_bind].
    split; [by eexists|done].
Qed.

(** X17.  [from_json] rejects a configuration that has a key other than
    [load_step_file], [export_csg], [Tolerances], [Options],
    [NumericFormat] and [Settings]: the loop over the keys raises, so
    no file is loaded and nothing is converted; when the data classes
    accept their values the error is [ValueError].  The key
    [Parameters], which the message of this error lists as
    acceptable, is rejected like any other. *)
Theorem from_json_rejects_an_unknown_key config key :
  key ∈ config.*1 → key ∉ config_keys →
  (∃ e, foldM (from_json_key config) cls_init config.*1 = Raise e
        ∧ from_json config = Raise e)
  ∧ (setters_total → from_json config = Raise ValueError)
  ∧ "Parameters" ∉ config_keys.
Proof.
  intros Hin Hk.
  destruct (config_loop_unknown config config.*1 cls_init key Hin Hk) as [[e He] Hv].
  split_and!.
  - exists e. split; [done|]. unfold from_json. cbn zeta. by rewrite He.
  - intros Htot. unfold from_json. cbn zeta. by rewrite Hv.
  - unfold config_keys. set_solver.
Qed.

Lemma config_loop_known config (keys : list string) : ∀ cad,
  setters_total → keys ⊆ config.*1 → keys ⊆ config_keys →
  is_Ok (foldM (from_json_key config) cad keys).
Proof.
  induction keys as [|k keys IH]; intros cad Htot Hsub Hk; [by eexists|].
  cbn [foldM].
  destruct (from_json_key_known config cad k Htot) as [cad' ->]; [set_solver..|].
  cbn [mbind res_bind]. apply IH; [done|set_solver..].
Qed.

(** X18.  [from_json] needs the key [load_step_file]: without it no run
    of [from_json] returns, and when the other keys are accepted the
    instance is configured and the lookup of [load_step_file] then
    raises [KeyError]. *)
Theorem from_json_needs_the_key_load_step_file config :
  "load_step_file" ∉ config.*1 →
  (∀ cad, from_json config ≠ Ok cad)
  ∧ (setters_total → config.*1 ⊆ config_keys → from_json config = Raise KeyError).
Proof.
  intros Hno.
  assert (Hget : py_getitem (list_to_map config : gmap string V) "load_step_file"
                 = Raise KeyError).
  { unfold py_getitem. by rewrite (not_elem_of_list_to_map_1 _ _ Hno). }
  unfold from_json. cbn zeta. split.
  - intros cad. destruct (foldM _ _ _) as [c|e]; cbn [mbind res_bind]; [|done].
    by rewrite Hget.
  - intros Htot Hk. destruct (config_loop_known config config.*1 cls_init Htot) as [c ->];
      [done..|]. cbn [mbind res_bind]. by rewrite Hget.
Qed.

End FromJsonProofs.

(** * The further properties on the small instance *)

Section MoreWitnesses.
#[local] Existing Instances Toy.types Toy.collaborators ToyConfig.collaborators.

(** The index [3] on a list of three. *)
Lemma skip_solids_out_of_range_witness :
  delete_skipped [10; 11; 12]%nat [0; 3] = Raise IndexError
  ∧ ∀ loaded (h h1 h2 : heap) el,
      join_meta_lists loaded.*1 h = Ok ([10; 11; 12]%nat, h1) →
      join_meta_lists loaded.*2 h1 = Ok (el, h2) →
      load_step_file loaded [0; 3] h = Raise IndexError.
Proof.
  apply (skip_solids_out_of_range_raises [10; 11; 12]%nat [0; 3] 3).
  - set_solver.
  - left. cbn. lia.
Defined.

(** The indices [-1] and [-2] on a list of three. *)
Lemma skip_solids_one_entry_per_index_witness :
  sublist [11]%nat [10; 11; 12]%nat
  ∧ length [10; 11; 12]%nat = (length [11]%nat + length ([-1; -2]%Z : list Z))%nat.
Proof.
  apply (skip_solids_removes_one_entry_per_index [10; 11; 12]%nat [11]%nat [-1; -2]).
  vm_compute. reflexivity.
Defined.

(** Two files: identities [1], [2], then the third cell. *)
Lemma join_meta_lists_identities_witness :
  ∃ h' : heap,
    join_meta_lists [[0; 1]; [2]; []]%nat Toy.spline_store = Ok ([0; 1; 2]%nat, h')
    ∧ StronglySorted (λ r1 r2, id_at h' r1 < id_at h' r2) [0; 1; 2]%nat.
Proof.
  apply (join_meta_lists_keeps_identities_increasing [0; 1]%nat [[2]; []]%nat
           Toy.spline_store).
  - discriminate.
  - apply (bool_decide_unpack _). by vm_compute.
  - intros r Hr. cbn [app concat] in Hr. members; by eexists.
  - repeat constructor; vm_compute; reflexivity.
Defined.

(** The label [ul] on the small model: the enclosure and the cell
    commented [null] are left out. *)
Lemma exclude_cells_witness :
  exclude_cells Toy.store Toy.solids ["ul"%string] = Ok [0%nat]
  ∧ exclude_cells Toy.store Toy.solids ["ul"%string]
    = Ok (filter (λ r, cell_excluded Toy.store ["ul"%string] r = false) Toy.solids).
Proof.
  split; [vm_compute; reflexivity|].
  apply (exclude_cells_keeps_the_cells_without_label Toy.store Toy.solids ["ul"%string]).
  intros r Hr. unfold Toy.solids in Hr. members; by eexists.
Defined.

(** One solid, [voidExclude] empty. *)
Lemma void_generation_input_witness :
  ∃ init,
    void_init ToyCases.one_solid_ready = Ok init
    ∧ let out := void_generation [0%nat] [] () Toy.universe init
                   (objects ToyCases.one_solid_ready) in
      void_phase ToyCases.one_solid_ready
      = Ok (log (EvVoidGeneration init)
              (set_objects out.1.2 (set_Surfaces out.2 ToyCases.one_solid_ready)),
            out.1.1).
Proof.
  apply (void_generation_receives_the_reduced_list ToyCases.one_solid_ready Toy.universe ()).
  - reflexivity.
  - intros r Hr. cbn in Hr. members; by eexists.
  - reflexivity.
  - reflexivity.
Defined.

(** The first solid alone, and the three entries of the small model. *)
Lemma geometry_bounding_box_grows_witness :
  ∃ b1 b2,
    _get_geometry_bounding_box default_padding [0%nat] Toy.store = Ok b1
    ∧ _get_geometry_bounding_box default_padding Toy.solids Toy.store = Ok b2
    ∧ box_holds b2 b1.
Proof.
  apply (geometry_bounding_box_grows_with_the_list default_padding [0%nat] Toy.solids
           Toy.store).
  - discriminate.
  - unfold Toy.solids. set_solver.
  - intros r Hr. unfold Toy.solids in Hr. members; by eexists.
Defined.

(** The solid of the small model has the record [{7}]. *)
Lemma solid_cell_cones_witness :
  ∃ (h' : heap) (Sf' : SurfacesDict),
    process_cones [0; 3]%nat Toy.cone_records () Toy.universe Toy.store = Ok (h', Sf')
    ∧ ∃ Sk : SurfacesDict,
        h' !! 0%nat
        = Some (set_Definition
                  (add_cone_plane ({[7]} : gset Z) {[7]} Sk Toy.universe).1
                  (Toy.cell 1 false false false 0 None {[7]} "solid" 0)).
Proof.
  change (∃ (h' : heap) (Sf' : SurfacesDict),
    process_cones [0; 3]%nat Toy.cone_records () Toy.universe Toy.store = Ok (h', Sf')
    ∧ match Toy.cone_records
            !! __id__ (Toy.cell 1 false false false 0 None {[7]} "solid" 0) with
      | Some cones =>
          ∃ Sk : SurfacesDict,
            h' !! 0%nat
            = Some (set_Definition
                      (add_cone_plane
                         (Definition_ (Toy.cell 1 false false false 0 None {[7]} "solid" 0))
                         cones Sk Toy.universe).1
                      (Toy.cell 1 false false false 0 None {[7]} "solid" 0))
      | None => h' !! 0%nat = Some (Toy.cell 1 false false false 0 None {[7]} "solid" 0)
      end).
  apply (solid_cell_gets_the_cones_of_its_own_record
           Toy.cone_records Toy.universe [0; 3]%nat Toy.store () 0%nat
           (Toy.cell 1 false false false 0 None {[7]} "solid" 0)).
  - intros r Hr. members; by eexists.
  - apply (bool_decide_unpack _). by vm_compute.
  - repeat constructor.
  - reflexivity.
  - reflexivity.
Defined.

(** Cone planes on three cells of the small model. *)
Lemma cone_patching_definitions_only_witness :
  ∃ (h' : heap) (Sf' : SurfacesDict),
    process_cones [0; 5; 3]%nat Toy.cone_records () Toy.universe Toy.store = Ok (h', Sf')
    ∧ (∀ r o, Toy.store !! r = Some o → ∃ d, h' !! r = Some (set_Definition d o))
    ∧ (∀ r, r ∉ [0; 5; 3]%nat → h' !! r = Toy.store !! r)
    ∧ dom h' = dom Toy.store.
Proof.
  apply (cone_patching_changes_definitions_only
           Toy.cone_records Toy.universe [0; 5; 3]%nat Toy.store ()).
  intros r Hr. members; by eexists.
Defined.

(** The small model with the void cell of the enclosure only: the
    outer region has none. *)
Lemma sort_enclosure_KeyError_witness :
  sort_enclosure Toy.solids [4%nat] 0 Toy.store = Raise KeyError.
Proof.
  apply (sort_enclosure_needs_void_cells_in_every_region Toy.solids [4%nat] 0 Toy.store).
  - intros r Hr. unfold Toy.solids in Hr. cbn [app] in Hr. members; by eexists.
  - left. vm_compute. reflexivity.
Defined.

(** The outer void cell records the identity [3] of the null solid. *)
Lemma flat_numbering_KeyError_witness :
  number_flat Toy.solids Toy.voids 0 ToyCases.store_void_of_null = Raise KeyError.
Proof.
  apply (flat_numbering_raises_on_a_reference_to_a_dropped_cell
           Toy.solids Toy.voids 0 ToyCases.store_void_of_null 3%nat
           (Toy.cell 4 false false true 0 (Some ((), Some [3])) ∅ "outer void" 0)
           () [3] 3).
  - intros r Hr. unfold Toy.solids, Toy.voids in Hr. cbn [app] in Hr. members; by eexists.
  - unfold Toy.voids. set_solver.
  - reflexivity.
  - reflexivity.
  - reflexivity.
  - set_solver.
  - lia.
  - intros r' o' Hr' Ho'.
    assert (flat_solids ToyCases.store_void_of_null Toy.solids = [0%nat]) as Hk by (by vm_compute).
    rewrite Hk in Hr'. members. vm_compute in Ho'. injection Ho' as <-. cbn. lia.
Defined.

(** One run on a model of one solid. *)
Lemma start_configuration_witness :
  ∃ self', start Toy.one_solid = Ok self'
    ∧ settings self' = settings Toy.one_solid ∧ options self' = options Toy.one_solid
    ∧ enclosure_list self' = enclosure_list Toy.one_solid
    ∧ (∃ box, _get_geometry_bounding_box default_padding (meta_list Toy.one_solid)
                (objects Toy.one_solid) = Ok box
              ∧ geometry_bounding_box self' = Some box)
    ∧ is_Some (Surfaces self').
Proof.
  eexists. split; [vm_compute; reflexivity|].
  apply start_keeps_the_configuration_and_sets_the_default_box. vm_compute. reflexivity.
Defined.

(** Two solids and an enclosure, [sort_enclosure] set, [voidGen] not. *)
Lemma start_sorting_without_voids_witness :
  start ToyCases.sorting_without_voids = Raise KeyError
  ∧ ∀ self', start ToyCases.sorting_without_voids ≠ Ok self'.
Proof.
  split; [vm_compute; reflexivity|].
  apply (start_cannot_sort_enclosures_without_void_generation ToyCases.sorting_without_voids).
  - reflexivity.
  - reflexivity.
  - discriminate.
Defined.

Lemma toy_lost_void_ready : sort_ready ToyCases.store_lost_void Toy.solids [3; 4; 5; 6]%nat 0.
Proof.
  assert (sorted_cells ToyCases.store_lost_void Toy.solids [3; 4; 5; 6]%nat = [0; 4; 3]%nat)
    as Hc by (by vm_compute).
  split_and!.
  - intros r Hr. unfold Toy.solids in Hr. cbn [app] in Hr. members; by eexists.
  - rewrite Hc. by apply (bool_decide_unpack _); vm_compute.
  - intros m o Hm Ho Hn He. unfold Toy.solids in Hm.
    members; vm_compute in Ho; injection Ho as <-; try done; by vm_compute.
  - by vm_compute.
  - done.
  - intros r o Hr Ho. rewrite Hc in Hr |- *.
    members; vm_compute in Ho; injection Ho as <-; by eexists.
Qed.

(** The void cell at [6] belongs to the enclosure [7], which is not
    in the solid list. *)
Lemma sort_enclosure_lost_void_witness :
  ∃ out (h' : heap),
    sort_enclosure Toy.solids [3; 4; 5; 6]%nat 0 ToyCases.store_lost_void = Ok (out, h')
    ∧ (6%nat ∉ out)
    ∧ h' !! 6%nat = Some (Toy.cell 7 false false true 7 None ∅ "lost void" 0).
Proof.
  apply (sort_enclosure_leaves_out_the_void_cells_of_a_missing_enclosure
           Toy.solids [3; 4; 5; 6]%nat 0 ToyCases.store_lost_void 6%nat).
  - apply toy_lost_void_ready.
  - set_solver.
  - unfold Toy.solids. set_solver.
  - reflexivity.
  - cbn. lia.
  - intros m om Hm Hom Hn He. unfold Toy.solids in Hm.
    members; vm_compute in Hom; injection Hom as <-; first [done|cbn; lia].
Defined.

(** One solid with its solids. *)
Lemma export_solids_witness :
  (meta_list Toy.one_solid = [] → _export_solids Toy.one_solid = Raise ValueError)
  ∧ (meta_list Toy.one_solid ≠ [] →
     (∃ r o, r ∈ meta_list Toy.one_solid ∧ objects Toy.one_solid !! r = Some o
             ∧ IsEnclosure o = false ∧ Solids o = None) →
     _export_solids Toy.one_solid = Raise TypeError)
  ∧ (meta_list Toy.one_solid ≠ [] →
     (∀ r o, r ∈ meta_list Toy.one_solid → objects Toy.one_solid !! r = Some o →
             IsEnclosure o = false → is_Some (Solids o)) →
     _export_solids Toy.one_solid = Ok (log EvExportSolids Toy.one_solid)).
Proof.
  apply (export_solids_outcome Toy.one_solid).
  intros r Hr. cbn in Hr. members; by eexists.
Defined.

(** The solid list of one solid, the box and the registry set. *)
Lemma decompose_solids_witness :
  ∃ self' warningSolids,
    _decompose_solids true ToyCases.one_solid_ready = Ok (self', warningSolids)
    ∧ same_config ToyCases.one_solid_ready self'
    ∧ trace self' = [EvSplitSolid 0%nat]
    ∧ warningSolids = [].
Proof.
  destruct (decompose_solids_splits_each_cell_once true ToyCases.one_solid_ready Toy.universe ())
    as (self' & warn & Hrun & Hcfg & Htr & _).
  - apply (bool_decide_unpack _). by vm_compute.
  - intros r Hr. cbn in Hr. members; by eexists.
  - reflexivity.
  - reflexivity.
  - intros r Hr. vm_compute in Hr. apply list_elem_of_singleton in Hr as ->.
    eexists. split; [reflexivity|]. by eexists.
  - exists self', warn. split_and!; [exact Hrun|exact Hcfg|exact Htr|].
    vm_compute in Hrun. by injection Hrun as _ <-.
Defined.

(** A configuration with the key [Parameters]. *)
Lemma from_json_unknown_key_witness :
  (∃ e, foldM (from_json_key [("Parameters"%string, 0); ("load_step_file"%string, 1)])
          cls_init ["Parameters"%string; "load_step_file"%string] = Raise e
        ∧ from_json [("Parameters"%string, 0); ("load_step_file"%string, 1)] = Raise e)
  ∧ (setters_total →
     from_json [("Parameters"%string, 0); ("load_step_file"%string, 1)] = Raise ValueError)
  ∧ "Parameters"%string ∉ config_keys.
Proof.
  apply (from_json_rejects_an_unknown_key
           [("Parameters"%string, 0); ("load_step_file"%string, 1)] "Parameters"%string).
  - set_solver.
  - unfold config_keys. set_solver.
Defined.

(** A configuration with the settings only. *)
Lemma from_json_without_load_step_file_witness :
  (∀ cad, from_json [("Settings"%string, 0)] ≠ Ok cad)
  ∧ (setters_total → [("Settings"%string, 0)].*1 ⊆ config_keys →
     from_json [("Settings"%string, 0)] = Raise KeyError).
Proof.
  apply (from_json_needs_the_key_load_step_file [("Settings"%string, 0)]).
  set_solver.
Defined.

End MoreWitnesses.
